(** * GitHubStorage: a shallow embedding of [src/github-storage.js]

    The adapter persists a list of update-log records to a file of a
    GitHub repository (Contents API) and mirrors it into the browser's
    [localStorage].  The embedding follows the class method by method.
    The browser built-ins the class calls ([JSON.parse], [JSON.stringify],
    [encodeURIComponent], [unescape], [btoa], [atob], [localStorage],
    [fetch], [console], [alert]) are modelled after their standards.
    Where the model is coarser than a browser it says so at the
    definition: numbers are exact decimals, not IEEE doubles; the message
    text of the errors of built-ins is left empty; [localStorage] has a
    quota in code units; the remote end is a script of outcomes; an
    [async] method is run to its end, a rejected promise being a thrown
    error. *)

From Stdlib Require Import ZArith NArith List String Ascii Bool Lia.
From Stdlib Require DecimalN DecimalPos DecimalFacts.
From stdpp Require Import base option list gmap.
Import ListNotations.

Set Implicit Arguments.
Local Open Scope N_scope.

(** ** JavaScript strings

    A JavaScript string is a sequence of UTF-16 code units. *)

Abbreviation jsstring := (list N) (only parsing).

Definition nonempty (s : jsstring) : bool :=
  match s with [] => false | _ => true end.

(** ASCII literals of the source. *)
Definition js (s : string) : jsstring :=
  map N_of_ascii (list_ascii_of_string s).

Definition between (lo hi c : N) : bool := (lo <=? c) && (c <=? hi).

Definition is_digit (c : N) : bool := between 48 57 c.
Definition is_upper (c : N) : bool := between 65 90 c.
Definition is_lower (c : N) : bool := between 97 122 c.
Definition is_high_surrogate (c : N) : bool := between 0xD800 0xDBFF c.
Definition is_low_surrogate (c : N) : bool := between 0xDC00 0xDFFF c.
Definition is_surrogate (c : N) : bool := between 0xD800 0xDFFF c.

(** Value of a hexadecimal digit, either case. *)
Definition hex_val (c : N) : option N :=
  if is_digit c then Some (c - 48)
  else if between 65 70 c then Some (c - 55)
  else if between 97 102 c then Some (c - 87)
  else None.

Definition hex_upper (d : N) : N := if d <? 10 then 48 + d else 55 + d.
Definition hex_lower (d : N) : N := if d <? 10 then 48 + d else 87 + d.

Definition hex4 (h1 h2 h3 h4 : N) : option N :=
  match hex_val h1, hex_val h2, hex_val h3, hex_val h4 with
  | Some a, Some b, Some c, Some d => Some (((a * 16 + b) * 16 + c) * 16 + d)
  | _, _, _, _ => None
  end.

Definition hex2 (h1 h2 : N) : option N :=
  match hex_val h1, hex_val h2 with
  | Some a, Some b => Some (a * 16 + b)
  | _, _ => None
  end.

Fixpoint uint_units (d : Decimal.uint) : jsstring :=
  match d with
  | Decimal.Nil => []
  | Decimal.D0 d => 48 :: uint_units d
  | Decimal.D1 d => 49 :: uint_units d
  | Decimal.D2 d => 50 :: uint_units d
  | Decimal.D3 d => 51 :: uint_units d
  | Decimal.D4 d => 52 :: uint_units d
  | Decimal.D5 d => 53 :: uint_units d
  | Decimal.D6 d => 54 :: uint_units d
  | Decimal.D7 d => 55 :: uint_units d
  | Decimal.D8 d => 56 :: uint_units d
  | Decimal.D9 d => 57 :: uint_units d
  end.

(** Decimal digits of a natural number, as [String(n)] prints them. *)
Definition dec_of_N (n : N) : jsstring := uint_units (N.to_uint n).

(** Number of a sequence of decimal digits. *)
Definition N_of_digits (ds : jsstring) : N :=
  fold_left (fun acc c => 10 * acc + (c - 48)) ds 0.

(** ** JSON values

    [JNum m e] is the number [m * 10^e].  [JSON.parse] produces it in
    canonical form ([m] without trailing zero digit, [e = 0] when
    [m = 0]).  The rounding of a literal to an IEEE double is not
    modelled: a literal keeps its exact decimal value.

    An object is the list of its own properties in the order
    [Object.keys] enumerates them. *)

#[local] Unset Elimination Schemes.
Inductive json : Type :=
| JNull
| JBool (b : bool)
| JNum (m e : Z)
| JStr (s : jsstring)
| JArr (l : list json)
| JObj (kvs : list (jsstring * json)).
#[local] Set Elimination Schemes.

(** A JavaScript value that came out of a property read: [None] is
    [undefined]. *)
Definition jsval := option json.

Section json_induction.
Variable P : json -> Prop.
Hypothesis Hnull : P JNull.
Hypothesis Hbool : forall b, P (JBool b).
Hypothesis Hnum : forall m e, P (JNum m e).
Hypothesis Hstr : forall s, P (JStr s).
Hypothesis Harr : forall l, Forall P l -> P (JArr l).
Hypothesis Hobj : forall kvs, Forall (fun kv => P (snd kv)) kvs -> P (JObj kvs).

Fixpoint json_ind_nested (v : json) : P v :=
  match v with
  | JNull => Hnull
  | JBool b => Hbool b
  | JNum m e => Hnum m e
  | JStr s => Hstr s
  | JArr l =>
      Harr ((fix go (l : list json) : Forall P l :=
               match l with
               | [] => @List.Forall_nil _ P
               | x :: l' => @List.Forall_cons _ P x l' (json_ind_nested x) (go l')
               end) l)
  | JObj kvs =>
      Hobj ((fix go (kvs : list (jsstring * json))
               : Forall (fun kv => P (snd kv)) kvs :=
               match kvs with
               | [] => @List.Forall_nil _ _
               | kv :: kvs' =>
                   @List.Forall_cons _ (fun kv => P (snd kv)) kv kvs'
                     (json_ind_nested (snd kv)) (go kvs')
               end) kvs)
  end.
End json_induction.

(** [ToBoolean]. *)
Definition truthy (v : jsval) : bool :=
  match v with
  | None => false
  | Some JNull => false
  | Some (JBool b) => b
  | Some (JNum m _) => negb (m =? 0)%Z
  | Some (JStr s) => nonempty s
  | Some (JArr _) => true
  | Some (JObj _) => true
  end.

(** Own property lookup in an object's property list. *)
Fixpoint assoc (k : jsstring) (kvs : list (jsstring * json)) : jsval :=
  match kvs with
  | [] => None
  | (k', v) :: kvs' => if decide (k = k') then Some v else assoc k kvs'
  end.

(** ** Exceptions

    A thrown value is an error object with a [name] and a [message].  The
    message text a browser puts into the errors of its built-ins is
    engine-specific and is left empty. *)

Record error : Type := mkError { name : jsstring; message : jsstring }.

(** [new Error(msg)]. *)
Definition Error (msg : jsstring) : error := mkError (js "Error") msg.
Definition SyntaxError : error := mkError (js "SyntaxError") [].
Definition TypeError : error := mkError (js "TypeError") [].
Definition URIError : error := mkError (js "URIError") [].
Definition InvalidCharacterError : error := mkError (js "InvalidCharacterError") [].
Definition QuotaExceededError : error := mkError (js "QuotaExceededError") [].

(** The outcome of evaluating an expression: a value or a thrown error. *)
Inductive result (A : Type) : Type :=
| Ok (a : A)
| Throw (e : error).
Arguments Ok {A} a.
Arguments Throw {A} e.

Definition result_bind {A B} (r : result A) (k : A -> result B) : result B :=
  match r with
  | Ok a => k a
  | Throw e => Throw e
  end.

(** [base.prop]: reading a property of [null] or [undefined] throws a
    [TypeError]; a primitive or an array has none of the properties this
    program reads ([username], [repo], [token], [branch], [content],
    [sha], [message]), so the read gives [undefined]. *)
Definition get_prop (base : jsval) (k : jsstring) : result jsval :=
  match base with
  | None => Throw TypeError
  | Some JNull => Throw TypeError
  | Some (JObj kvs) => Ok (assoc k kvs)
  | Some _ => Ok None
  end.

(** ** Number::toString and ToString *)

Fixpoint drop_zeros (ds : jsstring) : jsstring * nat :=
  match ds with
  | c :: r =>
      if c =? 48 then let '(d, n) := drop_zeros r in (d, S n) else (ds, O)
  | [] => ([], O)
  end.

(** [Number::toString] (radix 10), applied to the exact decimal
    [m * 10^e]: with [ds] the [k] significant digits and [n] such that
    the value is [0.ds * 10^n], the four cases of the standard. *)
Definition number_to_string (m e : Z) : jsstring :=
  if (m =? 0)%Z then js "0" else
  let '(rds, z) := drop_zeros (rev (dec_of_N (Z.abs_N m))) in
  let ds := rev rds in
  let k := Z.of_nat (length ds) in
  let n := (k + e + Z.of_nat z)%Z in
  (if (m <? 0)%Z then js "-" else []) ++
  (if (k <=? n)%Z && (n <=? 21)%Z then
     ds ++ repeat 48 (Z.to_nat (n - k))
   else if (0 <? n)%Z && (n <=? 21)%Z then
     take (Z.to_nat n) ds ++ js "." ++ drop (Z.to_nat n) ds
   else if (-6 <? n)%Z && (n <=? 0)%Z then
     js "0." ++ repeat 48 (Z.to_nat (- n)) ++ ds
   else
     let x := (n - 1)%Z in
     let es := (if (x <? 0)%Z then js "e-" else js "e+")
                 ++ dec_of_N (Z.abs_N x) in
     match ds with
     | [] => []
     | [d] => d :: es
     | d :: r => d :: js "." ++ r ++ es
     end).

(** [parts.join(sep)] *)
Fixpoint join (sep : jsstring) (parts : list jsstring) : jsstring :=
  match parts with
  | [] => []
  | p :: ps =>
      match ps with
      | [] => p
      | _ => p ++ sep ++ join sep ps
      end
  end.

(** [ToString] of a value obtained from JSON.  An array joins the
    strings of its elements with commas ([null] elements print as
    nothing), and throws when the conversion of an element does.  An
    object prints as [[object Object]], which the inherited [toString]
    returns, unless it has an own property [toString]: a value obtained
    from JSON is never callable, the inherited [valueOf] returns the
    object itself, and [OrdinaryToPrimitive] throws a [TypeError]. *)
Fixpoint to_string (v : json) : result jsstring :=
  match v with
  | JNull => Ok (js "null")
  | JBool true => Ok (js "true")
  | JBool false => Ok (js "false")
  | JNum m e => Ok (number_to_string m e)
  | JStr s => Ok s
  | JArr l =>
      result_bind
        ((fix elements (l : list json) : result (list jsstring) :=
            match l with
            | [] => Ok []
            | x :: l' =>
                result_bind
                  (match x with JNull => Ok [] | _ => to_string x end)
                  (fun s =>
                     result_bind (elements l') (fun ss => Ok (s :: ss)))
            end) l)
        (fun parts => Ok (join (js ",") parts))
  | JObj kvs =>
      match assoc (js "toString") kvs with
      | Some _ => Throw TypeError
      | None => Ok (js "[object Object]")
      end
  end.

Definition to_string_val (v : jsval) : result jsstring :=
  match v with
  | None => Ok (js "undefined")
  | Some j => to_string j
  end.

(** ** JSON.stringify and JSON.parse *)

Module JSON.

(** [\uXXXX] with lower-case hexadecimal digits. *)
Definition unicode_escape (c : N) : jsstring :=
  js "\u" ++ [hex_lower (N.shiftr c 12 mod 16); hex_lower (N.shiftr c 8 mod 16);
              hex_lower (N.shiftr c 4 mod 16); hex_lower (c mod 16)].

(** The body of [QuoteJSONString]: the seven short escapes, [\uXXXX]
    for the other control characters and for lone surrogates
    (well-formed [JSON.stringify]), everything else as it is. *)
Fixpoint quote_body (s : jsstring) : jsstring :=
  match s with
  | [] => []
  | c :: s' =>
      if c =? 8 then js "\b" ++ quote_body s'
      else if c =? 9 then js "\t" ++ quote_body s'
      else if c =? 10 then js "\n" ++ quote_body s'
      else if c =? 12 then js "\f" ++ quote_body s'
      else if c =? 13 then js "\r" ++ quote_body s'
      else if c =? 34 then [92; 34] ++ quote_body s'
      else if c =? 92 then [92; 92] ++ quote_body s'
      else if c <? 32 then unicode_escape c ++ quote_body s'
      else if is_high_surrogate c then
        match s' with
        | d :: s'' =>
            if is_low_surrogate d then c :: d :: quote_body s''
            else unicode_escape c ++ quote_body s'
        | [] => unicode_escape c
        end
      else if is_low_surrogate c then unicode_escape c ++ quote_body s'
      else c :: quote_body s'
  end.

Definition quote (s : jsstring) : jsstring := [34] ++ quote_body s ++ [34].

(** [SerializeJSONProperty] with its [SerializeJSONArray] and
    [SerializeJSONObject]: [gap] is the indentation unit, [indent] the
    current indentation. *)
Fixpoint serialize (gap indent : jsstring) (v : json) : jsstring :=
  let indent' := indent ++ gap in
  let sep := if nonempty gap then js "," ++ [10] ++ indent' else js "," in
  let opening := if nonempty gap then [10] ++ indent' else [] in
  let closing := if nonempty gap then [10] ++ indent else [] in
  match v with
  | JNull => js "null"
  | JBool true => js "true"
  | JBool false => js "false"
  | JNum m e => number_to_string m e
  | JStr s => quote s
  | JArr [] => js "[]"
  | JArr l =>
      js "[" ++ opening ++ join sep (map (serialize gap indent') l)
        ++ closing ++ js "]"
  | JObj [] => js "{}"
  | JObj kvs =>
      js "{" ++ opening
        ++ join sep
             (map (fun kv =>
                     quote (fst kv) ++ js ":"
                       ++ (if nonempty gap then js " " else [])
                       ++ serialize gap indent' (snd kv)) kvs)
        ++ closing ++ js "}"
  end.

(** [JSON.stringify(value)] and [JSON.stringify(value, null, n)] for a
    numeric [n] (clamped to 10 spaces). *)
Definition stringify (v : json) : jsstring := serialize [] [] v.
Definition stringify_indent (n : nat) (v : json) : jsstring :=
  serialize (repeat 32 (Nat.min n 10)) [] v.


(** *** JSON.parse *)

Inductive parsed (A : Type) : Type :=
| POk (a : A) (rest : jsstring)
| PErr
| PFuel.
Arguments POk {A} a rest.
Arguments PErr {A}.
Arguments PFuel {A}.

Definition is_ws (c : N) : bool :=
  (c =? 9) || (c =? 10) || (c =? 13) || (c =? 32).

Fixpoint skip_ws (s : jsstring) : jsstring :=
  match s with
  | c :: s' => if is_ws c then skip_ws s' else s
  | [] => []
  end.

Fixpoint span_digits (s : jsstring) : jsstring * jsstring :=
  match s with
  | c :: s' =>
      if is_digit c then let '(ds, r) := span_digits s' in (c :: ds, r)
      else ([], s)
  | [] => ([], [])
  end.

(** The character an escape [\c] (other than [\u]) stands for. *)
Definition simple_escape (c : N) : option N :=
  if c =? 34 then Some 34          (* quotation mark *)
  else if c =? 92 then Some 92     (* reverse solidus *)
  else if c =? 47 then Some 47     (* solidus *)
  else if c =? 98 then Some 8      (* b: backspace *)
  else if c =? 102 then Some 12    (* f: form feed *)
  else if c =? 110 then Some 10    (* n: line feed *)
  else if c =? 114 then Some 13    (* r: carriage return *)
  else if c =? 116 then Some 9     (* t: tab *)
  else None.

(** The characters of a string literal after its opening quote, up to
    and including the closing quote. *)
Fixpoint parse_chars (s : jsstring) : option (jsstring * jsstring) :=
  match s with
  | [] => None
  | c :: s' =>
      if c =? 34 then Some ([], s')
      else if c =? 92 then
        match s' with
        | [] => None
        | e :: s'' =>
            if e =? 117 then
              match s'' with
              | h1 :: h2 :: h3 :: h4 :: r =>
                  match hex4 h1 h2 h3 h4 with
                  | Some u =>
                      match parse_chars r with
                      | Some (cs, rest) => Some (u :: cs, rest)
                      | None => None
                      end
                  | None => None
                  end
              | _ => None
              end
            else
              match simple_escape e with
              | Some u =>
                  match parse_chars s'' with
                  | Some (cs, rest) => Some (u :: cs, rest)
                  | None => None
                  end
              | None => None
              end
        end
      else if c <? 32 then None
      else
        match parse_chars s' with
        | Some (cs, rest) => Some (c :: cs, rest)
        | None => None
        end
  end.

(** The canonical [JNum] of a literal with the digits [ds] (integer and
    fraction part together) and the decimal exponent [e]. *)
Definition make_number (neg : bool) (ds : jsstring) (e : Z) : json :=
  let '(rds, z) := drop_zeros (rev ds) in
  let m := Z.of_N (N_of_digits (rev rds)) in
  if (m =? 0)%Z then JNum 0 0
  else JNum (if neg then - m else m) (e + Z.of_nat z).

(** A number literal: an optional minus sign; the integer part, a
    single 0 or digits that start with 1 to 9; an optional fraction, a
    point and at least one digit; an optional exponent, e or E, an
    optional sign and at least one digit. *)
Definition parse_number (s : jsstring) : option (json * jsstring) :=
  let '(neg, s1) :=
    match s with
    | c :: r => if c =? 45 then (true, r) else (false, s)
    | [] => (false, s)
    end in
  let '(ip, s2) :=
    match s1 with
    | c :: r => if c =? 48 then ([48], r) else span_digits s1
    | [] => ([], [])
    end in
  match ip with
  | [] => None
  | _ =>
      let frac :=
        match s2 with
        | c :: r =>
            if c =? 46 then
              match span_digits r with
              | ([], _) => None
              | (fp, s3) => Some (fp, s3)
              end
            else Some ([], s2)
        | [] => Some ([], s2)
        end in
      match frac with
      | None => None
      | Some (fp, s3) =>
          let mant := ip ++ fp in
          let e0 := (- Z.of_nat (length fp))%Z in
          match s3 with
          | c :: r =>
              if (c =? 101) || (c =? 69) then
                let '(eneg, r1) :=
                  match r with
                  | d :: r' =>
                      if d =? 45 then (true, r')
                      else if d =? 43 then (false, r')
                      else (false, r)
                  | [] => (false, r)
                  end in
                match span_digits r1 with
                | ([], _) => None
                | (es, s4) =>
                    let x := Z.of_N (N_of_digits es) in
                    Some (make_number neg mant
                            (e0 + (if eneg then - x else x)), s4)
                end
              else Some (make_number neg mant e0, s3)
          | [] => Some (make_number neg mant e0, s3)
          end
      end
  end.

(** A key is an array index when it is the canonical decimal of an
    integer below [2^32 - 1]; such keys come first, in ascending order,
    when the properties of an object are enumerated. *)
Definition array_index (k : jsstring) : option N :=
  match k with
  | [] => None
  | c :: r =>
      if forallb is_digit k && (negb (c =? 48) || negb (nonempty r))
         && (Nat.leb (length k) 10)
      then let n := N_of_digits k in
           if n <? 4294967295 then Some n else None
      else None
  end.

(** Insertion of an array-index key [i] among the array-index keys. *)
Fixpoint insert_index (i : N) (k : jsstring) (v : json)
    (kvs : list (jsstring * json)) : list (jsstring * json) :=
  match kvs with
  | [] => [(k, v)]
  | (k', v') :: kvs' =>
      match array_index k' with
      | Some j =>
          if i <? j then (k, v) :: kvs
          else (k', v') :: insert_index i k v kvs'
      | None => (k, v) :: kvs
      end
  end.

Fixpoint replace_value (k : jsstring) (v : json)
    (kvs : list (jsstring * json)) : list (jsstring * json) :=
  match kvs with
  | [] => []
  | (k', v') :: kvs' =>
      if decide (k = k') then (k', v) :: kvs'
      else (k', v') :: replace_value k v kvs'
  end.

(** [CreateDataProperty(obj, k, v)] on the property list: an existing
    key keeps its place and takes the new value, a new key is added in
    enumeration order. *)
Definition obj_set (k : jsstring) (v : json)
    (kvs : list (jsstring * json)) : list (jsstring * json) :=
  match assoc k kvs with
  | Some _ => replace_value k v kvs
  | None =>
      match array_index k with
      | Some i => insert_index i k v kvs
      | None => kvs ++ [(k, v)]
      end
  end.

(** Consume the literal [lit], then return [v]. *)
Fixpoint expect (lit : jsstring) (v : json) (s : jsstring) : parsed json :=
  match lit with
  | [] => POk v s
  | c :: lit' =>
      match s with
      | d :: s' => if c =? d then expect lit' v s' else PErr
      | [] => PErr
      end
  end.

(** Recursive descent over the JSON grammar.  [fuel] bounds the number
    of nested calls; [parse] below starts with enough of it
    ([parse_value_fuel_enough]). *)
Fixpoint parse_value (fuel : nat) (s : jsstring) {struct fuel} : parsed json :=
  match fuel with
  | O => PFuel
  | S f =>
      match skip_ws s with
      | [] => PErr
      | c :: r =>
          if c =? 91 then             (* [ *)
            match skip_ws r with
            | d :: r' =>
                if d =? 93 then POk (JArr []) r'
                else parse_elements f [] (d :: r')
            | [] => PErr
            end
          else if c =? 123 then       (* { *)
            match skip_ws r with
            | d :: r' =>
                if d =? 125 then POk (JObj []) r'
                else parse_members f [] (d :: r')
            | [] => PErr
            end
          else if c =? 34 then
            match parse_chars r with
            | Some (cs, rest) => POk (JStr cs) rest
            | None => PErr
            end
          else if c =? 116 then expect (js "rue") (JBool true) r
          else if c =? 102 then expect (js "alse") (JBool false) r
          else if c =? 110 then expect (js "ull") JNull r
          else
            match parse_number (c :: r) with
            | Some (v, rest) => POk v rest
            | None => PErr
            end
      end
  end

with parse_elements (fuel : nat) (acc : list json) (s : jsstring)
    {struct fuel} : parsed json :=
  match fuel with
  | O => PFuel
  | S f =>
      match parse_value f s with
      | POk v r =>
          match skip_ws r with
          | c :: r' =>
              if c =? 44 then parse_elements f (acc ++ [v]) r'
              else if c =? 93 then POk (JArr (acc ++ [v])) r'
              else PErr
          | [] => PErr
          end
      | PErr => PErr
      | PFuel => PFuel
      end
  end

with parse_members (fuel : nat) (acc : list (jsstring * json)) (s : jsstring)
    {struct fuel} : parsed json :=
  match fuel with
  | O => PFuel
  | S f =>
      match skip_ws s with
      | c :: r =>
          if c =? 34 then
            match parse_chars r with
            | Some (k, r1) =>
                match skip_ws r1 with
                | d :: r2 =>
                    if d =? 58 then
                      match parse_value f r2 with
                      | POk v r3 =>
                          match skip_ws r3 with
                          | x :: r4 =>
                              if x =? 44 then parse_members f (obj_set k v acc) r4
                              else if x =? 125 then POk (JObj (obj_set k v acc)) r4
                              else PErr
                          | [] => PErr
                          end
                      | PErr => PErr
                      | PFuel => PFuel
                      end
                    else PErr
                | [] => PErr
                end
            | None => PErr
            end
          else PErr
      | [] => PErr
      end
  end.

Definition parse_fuel (s : jsstring) : nat := 2 * length s + 2.

(** [JSON.parse(text)]: one value, surrounded by optional white space;
    anything else is a [SyntaxError]. *)
Definition parse (text : jsstring) : result json :=
  match parse_value (parse_fuel text) text with
  | POk v rest =>
      match skip_ws rest with
      | [] => Ok v
      | _ => Throw SyntaxError
      end
  | _ => Throw SyntaxError
  end.

End JSON.

(** ** encodeURIComponent, unescape, btoa, atob *)

(** The UTF-8 encoding of a code point. *)
Definition utf8 (cp : N) : list N :=
  if cp <? 0x80 then [cp]
  else if cp <? 0x800 then
    [N.lor 0xC0 (N.shiftr cp 6); N.lor 0x80 (N.land cp 0x3F)]
  else if cp <? 0x10000 then
    [N.lor 0xE0 (N.shiftr cp 12);
     N.lor 0x80 (N.land (N.shiftr cp 6) 0x3F);
     N.lor 0x80 (N.land cp 0x3F)]
  else
    [N.lor 0xF0 (N.shiftr cp 18);
     N.lor 0x80 (N.land (N.shiftr cp 12) 0x3F);
     N.lor 0x80 (N.land (N.shiftr cp 6) 0x3F);
     N.lor 0x80 (N.land cp 0x3F)].

(** The code point of a surrogate pair. *)
Definition code_point (hi lo : N) : N :=
  (hi - 0xD800) * 0x400 + (lo - 0xDC00) + 0x10000.

(** [%XX] with upper-case hexadecimal digits. *)
Definition percent (b : N) : jsstring :=
  [37; hex_upper (b / 16); hex_upper (b mod 16)].

Definition percent_all (bs : list N) : jsstring := flat_map percent bs.

(** The characters [encodeURIComponent] leaves as they are: letters,
    digits and [- _ . ! ~ * ' ( )]. *)
Definition uri_unreserved (c : N) : bool :=
  is_upper c || is_lower c || is_digit c
  || (c =? 45) || (c =? 95) || (c =? 46) || (c =? 33) || (c =? 126)
  || (c =? 42) || (c =? 39) || (c =? 40) || (c =? 41).

(** [encodeURIComponent(s)]: every other code point is replaced by the
    escapes of its UTF-8 bytes; a surrogate that is not part of a pair
    throws a [URIError]. *)
Fixpoint encodeURIComponent (s : jsstring) : result jsstring :=
  match s with
  | [] => Ok []
  | c :: s' =>
      if uri_unreserved c then
        result_bind (encodeURIComponent s') (fun r => Ok (c :: r))
      else if is_low_surrogate c then Throw URIError
      else if is_high_surrogate c then
        match s' with
        | d :: s'' =>
            if is_low_surrogate d then
              result_bind (encodeURIComponent s'')
                (fun r => Ok (percent_all (utf8 (code_point c d)) ++ r))
            else Throw URIError
        | [] => Throw URIError
        end
      else
        result_bind (encodeURIComponent s')
          (fun r => Ok (percent_all (utf8 c) ++ r))
  end.

(** [unescape(s)]: [%uXXXX] and [%XX] are replaced by the code unit they
    name; a [%] that starts neither stays. *)
Fixpoint unescape (s : jsstring) : jsstring :=
  match s with
  | [] => []
  | c :: s' =>
      if c =? 37 then
        match s' with
        | a :: ((b :: t2) as t1) =>
            if a =? 117 then
              match t1 with
              | h1 :: h2 :: h3 :: h4 :: r =>
                  match hex4 h1 h2 h3 h4 with
                  | Some x => x :: unescape r
                  | None => c :: unescape s'
                  end
              | _ => c :: unescape s'
              end
            else
              match hex2 a b with
              | Some x => x :: unescape t2
              | None => c :: unescape s'
              end
        | _ => c :: unescape s'
        end
      else c :: unescape s'
  end.

(** The Base64 alphabet. *)
Definition b64_char (v : N) : N :=
  if v <? 26 then 65 + v
  else if v <? 52 then 97 + (v - 26)
  else if v <? 62 then 48 + (v - 52)
  else if v =? 62 then 43
  else 47.

Definition b64_val (c : N) : option N :=
  if is_upper c then Some (c - 65)
  else if is_lower c then Some (c - 97 + 26)
  else if is_digit c then Some (c - 48 + 52)
  else if c =? 43 then Some 62
  else if c =? 47 then Some 63
  else None.

Fixpoint b64_encode (bs : list N) : jsstring :=
  match bs with
  | [] => []
  | [a] =>
      [b64_char (N.shiftr a 2); b64_char (N.shiftl (N.land a 3) 4); 61; 61]
  | [a; b] =>
      [b64_char (N.shiftr a 2);
       b64_char (N.lor (N.shiftl (N.land a 3) 4) (N.shiftr b 4));
       b64_char (N.shiftl (N.land b 15) 2); 61]
  | a :: b :: c :: r =>
      b64_char (N.shiftr a 2)
      :: b64_char (N.lor (N.shiftl (N.land a 3) 4) (N.shiftr b 4))
      :: b64_char (N.lor (N.shiftl (N.land b 15) 2) (N.shiftr c 6))
      :: b64_char (N.land c 63)
      :: b64_encode r
  end.

(** [btoa(data)]: a code unit above 255 throws an
    [InvalidCharacterError]; otherwise the Base64 of the code units taken
    as bytes. *)
Definition btoa (data : jsstring) : result jsstring :=
  if forallb (fun c => c <=? 255) data then Ok (b64_encode data)
  else Throw InvalidCharacterError.

(** The bytes of a sequence of 6-bit values; a last group of two or
    three values gives one or two bytes, its spare bits are dropped. *)
Fixpoint b64_decode (vs : list N) : list N :=
  match vs with
  | a :: b :: c :: d :: r =>
      N.lor (N.shiftl a 2) (N.shiftr b 4)
      :: N.lor (N.shiftl (N.land b 15) 4) (N.shiftr c 2)
      :: N.lor (N.shiftl (N.land c 3) 6) d
      :: b64_decode r
  | [a; b; c] =>
      [N.lor (N.shiftl a 2) (N.shiftr b 4);
       N.lor (N.shiftl (N.land b 15) 4) (N.shiftr c 2)]
  | [a; b] => [N.lor (N.shiftl a 2) (N.shiftr b 4)]
  | _ => []
  end.

Definition is_ascii_ws (c : N) : bool :=
  (c =? 9) || (c =? 10) || (c =? 12) || (c =? 13) || (c =? 32).

(** Removal of at most two trailing [=] signs. *)
Definition strip_padding (s : jsstring) : jsstring :=
  match rev s with
  | a :: b :: r => if a =? 61 then (if b =? 61 then rev r else rev (b :: r)) else s
  | [a] => if a =? 61 then [] else s
  | [] => s
  end.

Fixpoint b64_vals (s : jsstring) : option (list N) :=
  match s with
  | [] => Some []
  | c :: s' =>
      match b64_val c, b64_vals s' with
      | Some v, Some vs => Some (v :: vs)
      | _, _ => None
      end
  end.

(** [atob(data)], the forgiving Base64 decoding: ASCII white space is
    removed; when the length is a multiple of four one or two trailing
    [=] are removed; a length of [4n+1] or a character outside the
    alphabet throws an [InvalidCharacterError]; the result is the string
    whose code units are the decoded bytes. *)
Definition atob (data : jsstring) : result jsstring :=
  let d1 := filter (fun c => is_ascii_ws c = false) data in
  let d2 := if (length d1 mod 4 =? 0)%nat then strip_padding d1 else d1 in
  if (length d2 mod 4 =? 1)%nat then Throw InvalidCharacterError
  else
    match b64_vals d2 with
    | Some vs => Ok (b64_decode vs)
    | None => Throw InvalidCharacterError
    end.

(** ** The environment of the adapter

    What the class reads and writes besides its own field: the browser's
    [localStorage], the network, the console, the alert box and the
    clock. *)

Record request : Type := mkRequest {
  method : jsstring;
  url : jsstring;
  headers : list (jsstring * jsstring);
  body : option jsstring
}.

(** An HTTP response: its status and the text of its body. *)
Record response : Type := mkResponse {
  status : N;
  text : jsstring
}.

(** What a call of [fetch] comes to: the promise is rejected (no
    connection, CORS, ...) or fulfilled with a response. *)
Inductive outcome : Type :=
| Rejected
| Responded (r : response).

Inductive level : Type := LLog | LWarn | LError.

(** The observable actions, in the order they happen. *)
Inductive event : Type :=
| GetItem (key : jsstring)
| SetItem (key value : jsstring)
| Fetch (req : request)
| Console (lvl : level) (msg : jsstring) (err : option error)
| Alert (msg : jsstring).

(** [config] is the field [this.config] ([JNull] for [null]).
    [storage] with [quota] is [localStorage]: a write that would make
    the stored keys and values longer than [quota] code units throws.
    [net] scripts the remote end: the n-th call of [fetch] comes to the
    n-th outcome, and is rejected once the script is used up.  [clock]
    is what [new Date().toLocaleString('zh-CN')] prints. *)
Record World : Type := mkWorld {
  config : json;
  storage : gmap jsstring jsstring;
  quota : nat;
  net : list outcome;
  clock : jsstring;
  trace : list event
}.

Definition emit (e : event) (w : World) : World :=
  mkWorld (config w) (storage w) (quota w) (net w) (clock w) (trace w ++ [e]).

Definition with_config (c : json) (w : World) : World :=
  mkWorld c (storage w) (quota w) (net w) (clock w) (trace w).

Definition with_storage (m : gmap jsstring jsstring) (w : World) : World :=
  mkWorld (config w) m (quota w) (net w) (clock w) (trace w).

Definition with_net (n : list outcome) (w : World) : World :=
  mkWorld (config w) (storage w) (quota w) n (clock w) (trace w).

(** *** Computations: state and exceptions *)

Definition M (A : Type) : Type := World -> result A * World.

Definition ret {A} (a : A) : M A := fun w => (Ok a, w).

Definition bind {A B} (m : M A) (k : A -> M B) : M B :=
  fun w =>
    match m w with
    | (Ok a, w') => k a w'
    | (Throw e, w') => (Throw e, w')
    end.

Definition throw {A} (e : error) : M A := fun w => (Throw e, w).

(** [try { m } catch (error) { h error }] *)
Definition try_catch {A} (m : M A) (h : error -> M A) : M A :=
  fun w =>
    match m w with
    | (Ok a, w') => (Ok a, w')
    | (Throw e, w') => h e w'
    end.

(** A pure evaluation that may throw. *)
Definition lift {A} (r : result A) : M A := fun w => (r, w).

Definition action (e : event) : M unit := fun w => (Ok tt, emit e w).

Declare Scope js_scope.
Delimit Scope js_scope with js.
Notation "x <- m ;; k" := (bind m (fun x => k))
  (at level 20, m at level 99, k at level 200, only parsing) : js_scope.
Notation "m ;; k" := (bind m (fun _ => k))
  (at level 100, k at level 200, only parsing, right associativity) : js_scope.
Local Open Scope js_scope.

Module console.
Definition log (msg : jsstring) : M unit := action (Console LLog msg None).
Definition warn (msg : jsstring) : M unit := action (Console LWarn msg None).
Definition error (msg : jsstring) (e : option error) : M unit :=
  action (Console LError msg e).
End console.

Definition alert (msg : jsstring) : M unit := action (Alert msg).

Module localStorage.

(** The code units the store holds. *)
Definition size (m : gmap jsstring jsstring) : nat :=
  map_fold (fun k v n => (length k + length v + n)%nat) O m.

(** Whether the store takes [key := value]. *)
Definition accepts (key value : jsstring) (w : World) : bool :=
  (size (<[key := value]> (storage w)) <=? quota w)%nat.

(** [localStorage.getItem(key)]: [None] is [null]. *)
Definition getItem (key : jsstring) : M (option jsstring) :=
  fun w => (Ok (storage w !! key), emit (GetItem key) w).

(** [localStorage.setItem(key, value)] *)
Definition setItem (key value : jsstring) : M unit :=
  fun w =>
    let w' := emit (SetItem key value) w in
    if accepts key value w
    then (Ok tt, with_storage (<[key := value]> (storage w)) w')
    else (Throw QuotaExceededError, w').

End localStorage.

(** [fetch(url, {method, headers, body})]: what becomes of the request
    is the environment's, the next element of [net]; a rejected promise
    (the network failed, or the browser refused to send the request)
    is a [TypeError]. *)
Definition fetch (req : request) : M response :=
  fun w =>
    let w' := with_net (tl (net w)) (emit (Fetch req) w) in
    match net w with
    | Responded r :: _ => (Ok r, w')
    | _ => (Throw TypeError, w')
    end.

(** [response.ok] *)
Definition ok (r : response) : bool := between 200 299 (status r).

(** [response.json()] *)
Definition response_json (r : response) : M json := lift (JSON.parse (text r)).

(** [new Date().toLocaleString('zh-CN')] *)
Definition now : M jsstring := fun w => (Ok (clock w), w).

(** Truth of a value that is a string or [null], as [getItem] returns. *)
Definition truthy_str (s : option jsstring) : bool :=
  match s with
  | Some s => nonempty s
  | None => false
  end.

(** [a && b] *)
Definition js_and (a b : result jsval) : result jsval :=
  result_bind a (fun x => if truthy x then b else Ok x).

(** [a || b] *)
Definition js_or (a b : jsval) : jsval := if truthy a then a else b.

(** ** The string literals of the source that are not ASCII, as code
    units *)

(* Config load failed: *)
Definition msg_config_load_failed : jsstring :=
  [0x914D; 0x7F6E; 0x52A0; 0x8F7D; 0x5931; 0x8D25] ++ js ":".
(* GitHub is not configured *)
Definition msg_not_configured : jsstring :=
  js "GitHub " ++ [0x672A; 0x914D; 0x7F6E].
(* GitHub is not configured, using local storage *)
Definition msg_warn_use_local : jsstring :=
  js "GitHub " ++ [0x672A; 0x914D; 0x7F6E; 0xFF0C; 0x4F7F; 0x7528; 0x672C; 0x5730; 0x5B58; 0x50A8].
(* The GitHub data file does not exist, a new file will be created *)
Definition msg_remote_file_missing : jsstring :=
  js "GitHub " ++ [0x6570; 0x636E; 0x6587; 0x4EF6; 0x4E0D; 0x5B58; 0x5728; 0xFF0C; 0x5C06; 0x521B; 0x5EFA; 0x65B0; 0x6587; 0x4EF6].
(* GitHub API error: *)
Definition msg_api_error_colon : jsstring :=
  js "GitHub API " ++ [0x9519; 0x8BEF] ++ js ": ".
(* Loading the data from GitHub failed: *)
Definition msg_load_failed : jsstring :=
  [0x4ECE] ++ js " GitHub " ++ [0x52A0; 0x8F7D; 0x6570; 0x636E; 0x5931; 0x8D25] ++ js ":".
(* Trying to load from the local cache... *)
Definition msg_try_local : jsstring :=
  [0x5C1D; 0x8BD5; 0x4ECE; 0x672C; 0x5730; 0x7F13; 0x5B58; 0x52A0; 0x8F7D] ++ js "...".
(* GitHub is not configured, saving locally only *)
Definition msg_warn_local_only : jsstring :=
  js "GitHub " ++ [0x672A; 0x914D; 0x7F6E; 0xFF0C; 0x4EC5; 0x4FDD; 0x5B58; 0x5230; 0x672C; 0x5730].
(* The file does not exist, a new file will be created *)
Definition msg_no_file : jsstring :=
  [0x6587; 0x4EF6; 0x4E0D; 0x5B58; 0x5728; 0xFF0C; 0x5C06; 0x521B; 0x5EFA; 0x65B0; 0x6587; 0x4EF6].
(* Update log data - *)
Definition msg_commit_prefix : jsstring :=
  [0x66F4; 0x65B0; 0x65E5; 0x5FD7; 0x6570; 0x636E] ++ js " - ".
(* GitHub API error *)
Definition msg_api_error : jsstring :=
  js "GitHub API " ++ [0x9519; 0x8BEF].
(* (check mark) The data is synced to GitHub *)
Definition msg_synced : jsstring :=
  [0x2705] ++ js " " ++ [0x6570; 0x636E; 0x5DF2; 0x540C; 0x6B65; 0x5230] ++ js " GitHub".
(* Saving to GitHub failed: *)
Definition msg_save_failed : jsstring :=
  [0x4FDD; 0x5B58; 0x5230] ++ js " GitHub " ++ [0x5931; 0x8D25] ++ js ":".
(* (warning sign) Syncing the data to GitHub failed! (two line feeds) Error: *)
Definition alert_prefix : jsstring :=
  [0x26A0; 0xFE0F] ++ js " " ++ [0x6570; 0x636E; 0x540C; 0x6B65; 0x5230] ++ js " GitHub " ++ [0x5931; 0x8D25; 0xFF01; 0x000A; 0x000A; 0x9519; 0x8BEF] ++ js ": ".
(* (two line feeds) The data is saved in the local cache, retry the sync later. *)
Definition alert_suffix : jsstring :=
  [0x000A; 0x000A; 0x6570; 0x636E; 0x5DF2; 0x4FDD; 0x5B58; 0x5230; 0x672C; 0x5730; 0x7F13; 0x5B58; 0xFF0C; 0x8BF7; 0x7A0D; 0x540E; 0x91CD; 0x8BD5; 0x540C; 0x6B65; 0x3002].
(* Not enough local storage space *)
Definition msg_quota : jsstring :=
  [0x672C; 0x5730; 0x5B58; 0x50A8; 0x7A7A; 0x95F4; 0x4E0D; 0x8DB3].
(* Saving locally failed: *)
Definition msg_local_save_failed : jsstring :=
  [0x4FDD; 0x5B58; 0x5230; 0x672C; 0x5730; 0x5931; 0x8D25] ++ js ":".
(* Configure the GitHub connection first *)
Definition msg_configure_first : jsstring :=
  [0x8BF7; 0x5148; 0x914D; 0x7F6E] ++ js " GitHub " ++ [0x8FDE; 0x63A5].

(** ** class GitHubStorage *)

Module GitHubStorage.

Definition CONFIG_KEY : jsstring := js "github_config".
Definition DATA_PATH : jsstring := js "data/logs.json".
Definition LOGS_KEY : jsstring := js "updateLogs".

Definition this_config : M json := fun w => (Ok (config w), w).
Definition set_this_config (c : json) : M unit :=
  fun w => (Ok tt, with_config c w).

(** [loadConfig()] *)
Definition loadConfig : M bool :=
  configStr <- localStorage.getItem CONFIG_KEY ;;
  match configStr with
  | Some str =>
      if truthy_str configStr then
        try_catch
          (c <- lift (JSON.parse str) ;;
           set_this_config c ;;
           ret true)
          (fun error =>
             console.error msg_config_load_failed (Some error) ;;
             ret false)
      else ret false
  | None => ret false
  end.

(** [constructor()] *)
Definition constructor : M unit :=
  set_this_config JNull ;;
  _ <- loadConfig ;;
  ret tt.

(** The value of
    [this.config && this.config.username && this.config.repo && this.config.token]. *)
Definition isConfigured_value (c : json) : result jsval :=
  js_and
    (js_and
       (js_and (Ok (Some c)) (get_prop (Some c) (js "username")))
       (get_prop (Some c) (js "repo")))
    (get_prop (Some c) (js "token")).

(** [isConfigured()] *)
Definition isConfigured : M jsval :=
  c <- this_config ;;
  lift (isConfigured_value c).

(** [getApiUrl()] *)
Definition getApiUrl : M jsstring :=
  configured <- isConfigured ;;
  if negb (truthy configured) then throw (Error msg_not_configured)
  else
    c <- this_config ;;
    username <- lift (get_prop (Some c) (js "username")) ;;
    username <- lift (to_string_val username) ;;
    repo <- lift (get_prop (Some c) (js "repo")) ;;
    repo <- lift (to_string_val repo) ;;
    ret (js "https://api.github.com/repos/" ++ username
           ++ js "/" ++ repo ++ js "/contents/" ++ DATA_PATH).

(** [getHeaders()] *)
Definition getHeaders : M (list (jsstring * jsstring)) :=
  configured <- isConfigured ;;
  if negb (truthy configured) then throw (Error msg_not_configured)
  else
    c <- this_config ;;
    token <- lift (get_prop (Some c) (js "token")) ;;
    token <- lift (to_string_val token) ;;
    ret [(js "Authorization", js "token " ++ token);
         (js "Accept", js "application/vnd.github.v3+json");
         (js "Content-Type", js "application/json")].

(** [loadLogsFromLocal()] *)
Definition loadLogsFromLocal : M json :=
  data <- localStorage.getItem LOGS_KEY ;;
  match data with
  | Some str => if truthy_str data then lift (JSON.parse str) else ret (JArr [])
  | None => ret (JArr [])
  end.

(** [saveLogsToLocal(logs)] *)
Definition saveLogsToLocal (logs : json) : M bool :=
  try_catch
    (localStorage.setItem LOGS_KEY (JSON.stringify logs) ;;
     ret true)
    (fun error =>
       (if decide (name error = js "QuotaExceededError")
        then console.error msg_quota None
        else console.error msg_local_save_failed (Some error)) ;;
       ret false).

(** [loadLogs()] *)
Definition loadLogs : M json :=
  configured <- isConfigured ;;
  if negb (truthy configured) then
    console.warn msg_warn_use_local ;;
    loadLogsFromLocal
  else
    try_catch
      (url <- getApiUrl ;;
       headers <- getHeaders ;;
       response <- fetch (mkRequest (js "GET") url headers None) ;;
       if status response =? 404 then
         console.log msg_remote_file_missing ;;
         ret (JArr [])
       else if negb (ok response) then
         throw (Error (msg_api_error_colon ++ dec_of_N (status response)))
       else
         data <- response_json response ;;
         data_content <- lift (get_prop (Some data) (js "content")) ;;
         data_content <- lift (to_string_val data_content) ;;
         content <- lift (atob data_content) ;;
         logs <- lift (JSON.parse content) ;;
         _ <- saveLogsToLocal logs ;;
         ret logs)
      (fun error =>
         console.error msg_load_failed (Some error) ;;
         console.log msg_try_local ;;
         loadLogsFromLocal).

(** The inner [try] of [saveLogs]: the SHA of the file that is there. *)
Definition fetch_sha : M jsval :=
  try_catch
    (url <- getApiUrl ;;
     headers <- getHeaders ;;
     getResponse <- fetch (mkRequest (js "GET") url headers None) ;;
     if ok getResponse then
       fileData <- response_json getResponse ;;
       lift (get_prop (Some fileData) (js "sha"))
     else ret (Some JNull))
    (fun error =>
       console.log msg_no_file ;;
       ret (Some JNull)).

(** The object literal [requestBody], with [sha] added when it is
    truthy. *)
Definition requestBody (timestamp encodedContent : jsstring)
    (branch : jsval) (sha : jsval) : json :=
  JObj ([(js "message", JStr (msg_commit_prefix ++ timestamp));
         (js "content", JStr encodedContent);
         (js "branch", match branch with
                       | Some b => if truthy branch then b else JStr (js "main")
                       | None => JStr (js "main")
                       end)]
        ++ match sha with
           | Some s => if truthy sha then [(js "sha", s)] else []
           | None => []
           end).

(** [saveLogs(logs)] *)
Definition saveLogs (logs : json) : M bool :=
  configured <- isConfigured ;;
  if negb (truthy configured) then
    console.warn msg_warn_local_only ;;
    saveLogsToLocal logs
  else
    try_catch
      (sha <- fetch_sha ;;
       let content := JSON.stringify_indent 2 logs in
       escaped <- lift (encodeURIComponent content) ;;
       encodedContent <- lift (btoa (unescape escaped)) ;;
       timestamp <- now ;;
       c <- this_config ;;
       branch <- lift (get_prop (Some c) (js "branch")) ;;
       let requestBody := requestBody timestamp encodedContent branch sha in
       url <- getApiUrl ;;
       headers <- getHeaders ;;
       response <- fetch (mkRequest (js "PUT") url headers
                            (Some (JSON.stringify requestBody))) ;;
       (if negb (ok response) then
          errorData <- response_json response ;;
          m <- lift (get_prop (Some errorData) (js "message")) ;;
          message <- lift (to_string_val (js_or m (Some (JStr msg_api_error)))) ;;
          throw (Error message)
        else ret tt) ;;
       _ <- saveLogsToLocal logs ;;
       console.log msg_synced ;;
       ret true)
      (fun error =>
         console.error msg_save_failed (Some error) ;;
         alert (alert_prefix ++ message error ++ alert_suffix) ;;
         _ <- saveLogsToLocal logs ;;
         ret false).

(** [syncFromGitHub()] *)
Definition syncFromGitHub : M json :=
  configured <- isConfigured ;;
  if negb (truthy configured) then throw (Error msg_configure_first)
  else
    logs <- loadLogs ;;
    ret logs.

(** [syncToGitHub()] *)
Definition syncToGitHub : M bool :=
  configured <- isConfigured ;;
  if negb (truthy configured) then throw (Error msg_configure_first)
  else
    logs <- loadLogsFromLocal ;;
    saveLogs logs.

(** [getConfigInfo()]: [None] is [null]; the object literal is the list
    of its properties with the values they are given. *)
Definition getConfigInfo : M (option (list (jsstring * jsval))) :=
  configured <- isConfigured ;;
  if negb (truthy configured) then ret None
  else
    c <- this_config ;;
    username <- lift (get_prop (Some c) (js "username")) ;;
    repo <- lift (get_prop (Some c) (js "repo")) ;;
    branch <- lift (get_prop (Some c) (js "branch")) ;;
    url_username <- lift (get_prop (Some c) (js "username")) ;;
    url_username <- lift (to_string_val url_username) ;;
    url_repo <- lift (get_prop (Some c) (js "repo")) ;;
    url_repo <- lift (to_string_val url_repo) ;;
    ret (Some [(js "username", username);
               (js "repo", repo);
               (js "branch", js_or branch (Some (JStr (js "main"))));
               (js "repoUrl",
                Some (JStr (js "https://github.com/" ++ url_username
                              ++ js "/" ++ url_repo)))]).

End GitHubStorage.

(** * Specification vocabulary

    The notions the properties below are stated with: the configured
    state, the outcomes of the requests, what a run leaves in the store
    and in the trace, and the sample states of the examples. *)

Import GitHubStorage.

(** ** Sample states *)

Definition sample_config : json :=
  JObj [(js "username", JStr (js "alice"));
        (js "repo", JStr (js "update-log"));
        (js "token", JStr (js "ghp_0123456789"))].

(** The collection of one record whose text is two CJK characters. *)
Definition sample_logs : json :=
  JArr [JObj [(js "text", JStr [0x65E5; 0x5FD7])]].

Definition sample_world (c : json) (store : gmap (list N) (list N))
    (q : nat) (n : list outcome) : World :=
  mkWorld c store q n (js "2024/1/1 12:00:00") [].

(** ** The configuration *)

(** The configured state, as every method tests it: the truth of the
    value [isConfigured()] returns. *)
Definition is_configured (w : World) : bool :=
  match isConfigured_value (config w) with
  | Ok v => truthy v
  | Throw _ => false
  end.

(** The field [k] of the configuration [c]: absent when [c] is [null]
    or is not an object. *)
Definition field (c : json) (k : jsstring) : jsval :=
  match c with
  | JObj kvs => assoc k kvs
  | _ => None
  end.

(** A configuration field is missing when it is absent, [null] or the
    empty string. *)
Definition missing (v : jsval) : Prop :=
  v = None \/ v = Some JNull \/ v = Some (JStr []).

(** A field that holds a string that is not empty. *)
Definition filled (v : jsval) : Prop :=
  exists c s, v = Some (JStr (c :: s)).

(** ** The requests and what their outcomes lead to *)

(** The URL [getApiUrl()] builds and the headers [getHeaders()] builds
    from the configuration [c]: a [TypeError] when a field they print
    does not convert to a string. *)
Definition api_url (c : json) : result jsstring :=
  result_bind (to_string_val (field c (js "username"))) (fun username =>
  result_bind (to_string_val (field c (js "repo"))) (fun repo =>
  Ok (js "https://api.github.com/repos/" ++ username
        ++ js "/" ++ repo ++ js "/contents/" ++ DATA_PATH))).

Definition api_headers (c : json) : result (list (jsstring * jsstring)) :=
  result_bind (to_string_val (field c (js "token"))) (fun token =>
  Ok [(js "Authorization", js "token " ++ token);
      (js "Accept", js "application/vnd.github.v3+json");
      (js "Content-Type", js "application/json")]).

(** The read request of [loadLogs] and [saveLogs], when its URL and its
    headers can be built. *)
Definition get_request (c : json) : result request :=
  result_bind (api_url c) (fun url =>
  result_bind (api_headers c) (fun headers =>
  Ok (mkRequest (js "GET") url headers None))).

(** What [loadLogsFromLocal()] returns for a content of the cache key. *)
Definition local_logs (data : option jsstring) : result json :=
  match data with
  | Some (c :: s) => JSON.parse (c :: s)
  | _ => Ok (JArr [])
  end.

(** The store after [setItem(key, value)]. *)
Definition stored (key value : jsstring) (w : World) : gmap jsstring jsstring :=
  if localStorage.accepts key value w then <[key := value]> (storage w)
  else storage w.

(** What the inner [try] of [saveLogs] computes from the outcome of the
    read request. *)
Definition sha_result (o : outcome) : result jsval :=
  match o with
  | Rejected => Throw TypeError
  | Responded r =>
      if ok r then
        result_bind (JSON.parse (text r))
          (fun fileData => get_prop (Some fileData) (js "sha"))
      else Ok (Some JNull)
  end.

(** [btoa(unescape(encodeURIComponent(content)))] *)
Definition encode_content (content : jsstring) : result jsstring :=
  result_bind (encodeURIComponent content) (fun escaped => btoa (unescape escaped)).

(** The write request of [saveLogs], when its URL and its headers can
    be built. *)
Definition put_request (c : json) (timestamp encodedContent : jsstring)
    (sha : jsval) : result request :=
  result_bind (api_url c) (fun url =>
  result_bind (api_headers c) (fun headers =>
  Ok (mkRequest (js "PUT") url headers
        (Some (JSON.stringify
                 (requestBody timestamp encodedContent
                    (field c (js "branch")) sha)))))).

(** The error the outcome of the write request raises in [saveLogs];
    [None] for a response with a success status. *)
Definition put_error (o : outcome) : option error :=
  match o with
  | Rejected => Some TypeError
  | Responded r =>
      if ok r then None
      else Some
        match JSON.parse (text r) with
        | Throw e => e
        | Ok errorData =>
            match get_prop (Some errorData) (js "message") with
            | Throw e => e
            | Ok m =>
                match to_string_val (js_or m (Some (JStr msg_api_error))) with
                | Throw e => e
                | Ok message => Error message
                end
            end
        end
  end.

(** The [catch] block of [saveLogs]. *)
Definition save_failed (logs : json) (error : error) : M bool :=
  (console.error msg_save_failed (Some error) ;;
   alert (alert_prefix ++ message error ++ alert_suffix) ;;
   _ <- saveLogsToLocal logs ;;
   ret false)%js.

(** ** Strings and values of JavaScript *)

(** A string of 16-bit code units whose surrogates come in pairs. *)
Inductive well_formed : jsstring -> Prop :=
| wf_nil : well_formed []
| wf_unit c s :
    c < 65536 -> is_surrogate c = false -> well_formed s ->
    well_formed (c :: s)
| wf_pair h l s :
    is_high_surrogate h = true -> is_low_surrogate l = true ->
    well_formed s -> well_formed (h :: l :: s).

(** Strings without surrogates, such as the ASCII pieces of
    [JSON.stringify]. *)
Definition plain (s : jsstring) : Prop := Forall (fun c => c < 0xD800) s.

Definition bytes (s : list N) : Prop := Forall (fun c => c < 256) s.

(** A value of JavaScript: the code units of its strings and keys are
    16-bit. *)
Definition valid_string (s : jsstring) : bool := forallb (fun c => c <? 65536) s.

Fixpoint json_valid (v : json) : bool :=
  match v with
  | JStr s => valid_string s
  | JArr l => forallb json_valid l
  | JObj kvs =>
      forallb (fun kv => valid_string (fst kv) && json_valid (snd kv)) kvs
  | _ => true
  end.

(** ** Traces *)

(** The texts of the alerts in a trace, and the writes to the store. *)
Definition alerts (t : list event) : list jsstring :=
  flat_map (fun e => match e with Alert m => [m] | _ => [] end) t.

Definition writes (t : list event) : list (jsstring * jsstring) :=
  flat_map (fun e => match e with SetItem k v => [(k, v)] | _ => [] end) t.

(** The outcome of the second call of [fetch], the write request of
    [saveLogs]. *)
Definition put_outcome (w : World) : outcome := hd Rejected (tl (net w)).

Definition succeeded (o : outcome) : bool :=
  match o with
  | Responded r => ok r
  | Rejected => false
  end.

(** What the [try] block of [loadLogs] computes from the outcome of the
    read request: [Ok None] for the status 404, [Ok (Some logs)] for a
    decoded collection. *)
Definition remote_logs (o : outcome) : result (option json) :=
  match o with
  | Rejected => Throw TypeError
  | Responded r =>
      if status r =? 404 then Ok None
      else if negb (ok r) then
        Throw (Error (msg_api_error_colon ++ dec_of_N (status r)))
      else
        result_bind (JSON.parse (text r)) (fun data =>
        result_bind (get_prop (Some data) (js "content")) (fun data_content =>
        result_bind (to_string_val data_content) (fun data_content =>
        result_bind (atob data_content) (fun content =>
        result_bind (JSON.parse content) (fun logs => Ok (Some logs))))))
  end.

(** The [catch] block of [loadLogs]. *)
Definition load_failed (error : error) : M json :=
  (console.error msg_load_failed (Some error) ;;
   console.log msg_try_local ;;
   loadLogsFromLocal)%js.

(** The body of the last write request of a trace. *)
Definition last_put_body (t : list event) : option jsstring :=
  fold_left
    (fun acc e =>
       match e with
       | Fetch (mkRequest m _ _ (Some b)) =>
           if decide (m = js "PUT") then Some b else acc
       | _ => acc
       end) t None.

(** The [content] the last write request carried. *)
Definition written_content (t : list event) : jsval :=
  match last_put_body t with
  | Some b =>
      match JSON.parse b with
      | Ok requestBody => field requestBody (js "content")
      | Throw _ => None
      end
  | None => None
  end.

(** The answer of a remote end that holds [content]: the Contents API
    returns the Base64 text it was given, with the SHA of the file. *)
Definition file_response (content : json) : outcome :=
  Responded (mkResponse 200
    (JSON.stringify (JObj [(js "content", content);
                           (js "sha", JStr (js "95b966ae1c166bd92f8ae7d1c313e738c731dfc3"))]))).

(** [saveLogs(logs)] followed by [loadLogs()] against a remote end that
    returns what was written; [None] when nothing was written. *)
Definition save_then_load (logs : json) (w : World) : option (result json) :=
  let w1 := snd (saveLogs logs w) in
  match written_content (trace w1) with
  | Some content => Some (fst (loadLogs (with_net [file_response content] w1)))
  | None => None
  end.

(** The two CJK characters of [sample_logs], read back: the six bytes of
    their UTF-8 encoding, each taken for a character. *)
Definition garbled_logs : json :=
  JArr [JObj [(js "text", JStr [0xE6; 0x97; 0xA5; 0xE5; 0xBF; 0x97])]].

(** The requests of a trace, and the keys read from the store. *)
Definition requests (t : list event) : list request :=
  flat_map (fun e => match e with Fetch r => [r] | _ => [] end) t.

Definition reads (t : list event) : list jsstring :=
  flat_map (fun e => match e with GetItem k => [k] | _ => [] end) t.

(** The SHA [saveLogs] goes on with after the read request: [null]
    when the inner [try] failed. *)
Definition sha_of (o : outcome) : jsval :=
  match sha_result o with
  | Ok sha => sha
  | Throw _ => Some JNull
  end.

(** [v || d], for a default [d] that is truthy. *)
Definition or_default (v : jsval) (d : json) : json :=
  match js_or v (Some d) with
  | Some x => x
  | None => d
  end.

(** The property [k] an object gets under [if (v) { o.k = v }]. *)
Definition when_truthy (k : jsstring) (v : jsval) : list (jsstring * json) :=
  match v with
  | Some x => if truthy v then [(k, x)] else []
  | None => []
  end.

(** The UTF-8 bytes of a string, code point by code point. *)
Fixpoint utf8_units (s : jsstring) : list N :=
  match s with
  | [] => []
  | c :: s' =>
      if is_high_surrogate c then
        match s' with
        | d :: s'' =>
            if is_low_surrogate d then utf8 (code_point c d) ++ utf8_units s''
            else utf8 c ++ utf8_units s'
        | [] => utf8 c
        end
      else utf8 c ++ utf8_units s'
  end.

(** Strings of ASCII characters. *)
Definition ascii_only (s : jsstring) : Prop := Forall (fun c => c < 128) s.

(** The 6-bit values of the Base64 of a byte sequence, and its padding. *)
Fixpoint sextets (bs : list N) : list N :=
  match bs with
  | [] => []
  | [a] => [N.shiftr a 2; N.shiftl (N.land a 3) 4]
  | [a; b] =>
      [N.shiftr a 2;
       N.lor (N.shiftl (N.land a 3) 4) (N.shiftr b 4);
       N.shiftl (N.land b 15) 2]
  | a :: b :: c :: r =>
      N.shiftr a 2
      :: N.lor (N.shiftl (N.land a 3) 4) (N.shiftr b 4)
      :: N.lor (N.shiftl (N.land b 15) 2) (N.shiftr c 6)
      :: N.land c 63
      :: sextets r
  end.

Fixpoint padding (bs : list N) : jsstring :=
  match bs with
  | [] => []
  | [_] => [61; 61]
  | [_; _] => [61]
  | _ :: _ :: _ :: r => padding r
  end.

(** The range of the bytes, for checks by enumeration. *)
Definition all_bytes : list N := map N.of_nat (seq 0 256).

(** Induction on a list, three elements at a time, as [btoa] and [atob]
    take them. *)
Section list_ind3.
Variable A : Type.
Variable P : list A -> Prop.
Hypothesis H0 : P [].
Hypothesis H1 : forall a, P [a].
Hypothesis H2 : forall a b, P [a; b].
Hypothesis H3 : forall a b c r, P r -> P (a :: b :: c :: r).

Fixpoint list_ind3 (l : list A) : P l :=
  match l with
  | [] => H0
  | [a] => H1 a
  | [a; b] => H2 a b
  | a :: b :: c :: r => H3 a b c (list_ind3 r)
  end.
End list_ind3.

(** ** Values and texts of JSON *)

(** Strings of decimal digits. *)
Definition digits (ds : jsstring) : Prop := Forall (fun c => is_digit c = true) ds.

(** What may follow a number literal: the end of the text, or a
    character that does not continue the literal. *)
Definition number_end (rest : jsstring) : Prop :=
  match rest with
  | [] => True
  | c :: _ => is_digit c = false /\ c <> 46 /\ c <> 101 /\ c <> 69
  end.

(** The form in which [JSON.parse] returns a number: a mantissa without
    trailing zero digit, and the exponent 0 for the number 0. *)
Definition canonical_number (m e : Z) : bool :=
  if (m =? 0)%Z then (e =? 0)%Z else negb (Z.abs_N m mod 10 =? 0).

(** Strings of the white space of JSON. *)
Definition whitespace (s : jsstring) : Prop :=
  Forall (fun c => JSON.is_ws c = true) s.

(** The properties of an object in the order JavaScript keeps them:
    adding them one by one, as [JSON.parse] does, gives the list
    itself. *)
Definition js_ordered (kvs : list (jsstring * json)) : Prop :=
  fold_left (fun acc kv => JSON.obj_set (fst kv) (snd kv) acc) kvs [] = kvs.

(** A value as [JSON.parse] returns it: numbers in canonical form,
    strings and keys of 16-bit code units, the properties of objects
    in the order of JavaScript. *)
Fixpoint json_canonical (v : json) : Prop :=
  match v with
  | JNum m e => canonical_number m e = true
  | JStr s => valid_string s = true
  | JArr l =>
      (fix all (l : list json) : Prop :=
         match l with
         | [] => True
         | x :: l' => json_canonical x /\ all l'
         end) l
  | JObj kvs =>
      js_ordered kvs
      /\ (fix all (kvs : list (jsstring * json)) : Prop :=
            match kvs with
            | [] => True
            | kv :: kvs' =>
                valid_string (fst kv) = true /\ json_canonical (snd kv) /\ all kvs'
            end) kvs
  | _ => True
  end.

(** A value whose strings and keys are ASCII. *)
Definition ascii_string (s : jsstring) : bool := forallb (fun c => c <? 128) s.

Fixpoint json_ascii (v : json) : bool :=
  match v with
  | JStr s => ascii_string s
  | JArr l => forallb json_ascii l
  | JObj kvs => forallb (fun kv => ascii_string (fst kv) && json_ascii (snd kv)) kvs
  | _ => true
  end.

(** * Properties *)

(** ** Configuration *)

Lemma isConfigured_run (w : World) :
  isConfigured w = (isConfigured_value (config w), w).
Proof. reflexivity. Qed.

Lemma isConfigured_value_object (kvs : list (jsstring * json)) :
  isConfigured_value (JObj kvs) =
    Ok (if truthy (assoc (js "username") kvs) then
          if truthy (assoc (js "repo") kvs) then assoc (js "token") kvs
          else assoc (js "repo") kvs
        else assoc (js "username") kvs).
Proof.
  unfold isConfigured_value, js_and, get_prop, result_bind.
  change (truthy (Some (JObj kvs))) with true. cbv beta iota.
  destruct (truthy (assoc (js "username") kvs)) eqn:Hu; cbv beta iota.
  - destruct (truthy (assoc (js "repo") kvs)); reflexivity.
  - rewrite Hu. reflexivity.
Qed.

(** Outside objects the value is falsy: the configuration itself when it
    is falsy, [undefined] (the absent [username]) otherwise. *)
Lemma isConfigured_value_other (c : json) :
  (forall kvs, c <> JObj kvs) ->
  exists v, isConfigured_value c = Ok v /\ truthy v = false.
Proof.
  intros Hc. destruct c as [|b|m e|s|l|kvs];
    try (exists (Some JNull); split; reflexivity).
  - destruct b; [exists None | exists (Some (JBool false))]; split; reflexivity.
  - destruct (m =? 0)%Z eqn:Hm;
      [exists (Some (JNum m e)) | exists None]; split; try reflexivity;
      unfold isConfigured_value, js_and, result_bind; simpl;
      repeat (rewrite Hm; simpl); reflexivity.
  - destruct s; [exists (Some (JStr [])) | exists None]; split; reflexivity.
  - exists None; split; reflexivity.
  - exfalso; exact (Hc kvs eq_refl).
Qed.

Lemma isConfigured_value_total (c : json) :
  exists v, isConfigured_value c = Ok v.
Proof.
  destruct c as [| | | | |kvs];
    [..|rewrite isConfigured_value_object; eexists; reflexivity];
    match goal with
    | |- exists v, isConfigured_value ?c = _ =>
        destruct (@isConfigured_value_other c) as (v & Hv & _);
        [intros kvs; discriminate | exists v; exact Hv]
    end.
Qed.

Lemma isConfigured_value_truthy (c : json) (v : jsval) :
  isConfigured_value c = Ok v -> truthy v = true ->
  exists kvs, c = JObj kvs
    /\ truthy (assoc (js "username") kvs) = true
    /\ truthy (assoc (js "repo") kvs) = true
    /\ truthy (assoc (js "token") kvs) = true.
Proof.
  intros Hv Ht.
  destruct c as [| | | | |kvs];
    [..|exists kvs; split; [reflexivity|];
        rewrite isConfigured_value_object in Hv; injection Hv as <-;
        destruct (truthy (assoc (js "username") kvs)) eqn:Hu; [|congruence];
        destruct (truthy (assoc (js "repo") kvs)) eqn:Hr; [|congruence]; auto];
    match type of Hv with
    | isConfigured_value ?c = _ =>
        destruct (@isConfigured_value_other c) as (v' & Hv' & Ht');
        [intros kvs; discriminate | congruence]
    end.
Qed.

Lemma is_configured_inv (w : World) :
  is_configured w = true ->
  exists kvs, config w = JObj kvs
    /\ truthy (assoc (js "username") kvs) = true
    /\ truthy (assoc (js "repo") kvs) = true
    /\ truthy (assoc (js "token") kvs) = true.
Proof.
  unfold is_configured. intros H.
  destruct (isConfigured_value (config w)) as [v|e] eqn:Hv; [|discriminate].
  exact (isConfigured_value_truthy _ Hv H).
Qed.

Lemma missing_falsy (v : jsval) : missing v -> truthy v = false.
Proof. intros [-> | [-> | ->]]; reflexivity. Qed.

Lemma filled_truthy (v : jsval) : filled v -> truthy v = true.
Proof. intros (c & s & ->); reflexivity. Qed.

(** C6, amended. [isConfigured()] never throws and leaves the world as
    it is; the value it returns is falsy whenever one of [username],
    [repo], [token] is absent or empty, it is truthy only when none of
    the three is, and it is truthy when each of the three is a
    non-empty string. *)
Theorem isConfigured_all_three (w : World) :
  exists v, isConfigured w = (Ok v, w)
    /\ (missing (field (config w) (js "username"))
        \/ missing (field (config w) (js "repo"))
        \/ missing (field (config w) (js "token")) -> truthy v = false)
    /\ (truthy v = true ->
        ~ missing (field (config w) (js "username"))
        /\ ~ missing (field (config w) (js "repo"))
        /\ ~ missing (field (config w) (js "token")))
    /\ (filled (field (config w) (js "username"))
        /\ filled (field (config w) (js "repo"))
        /\ filled (field (config w) (js "token")) -> truthy v = true).
Proof.
  rewrite isConfigured_run.
  generalize (config w). intros c.
  destruct (isConfigured_value_total c) as [v Hv].
  exists v. rewrite Hv. split; [reflexivity|].
  assert (Hfalsy : missing (field c (js "username"))
                   \/ missing (field c (js "repo"))
                   \/ missing (field c (js "token")) ->
                   truthy v = false).
  { intros Hm. destruct (truthy v) eqn:Ht; [|reflexivity]. exfalso.
    destruct (isConfigured_value_truthy _ Hv Ht) as (kvs & Hc & Hu & Hr & Htk).
    rewrite Hc in Hm. simpl in Hm.
    destruct Hm as [Hm | [Hm | Hm]]; apply missing_falsy in Hm; congruence. }
  split; [exact Hfalsy|]. split.
  - intros Ht. repeat split; intros Hm;
      rewrite Hfalsy in Ht by tauto; discriminate.
  - intros (Hu & Hr & Htk).
    destruct c as [| | | | |kvs];
      try (destruct Hu as (? & ? & Hu); discriminate).
    simpl in Hu, Hr, Htk.
    rewrite isConfigured_value_object in Hv. injection Hv as <-.
    rewrite (filled_truthy Hu), (filled_truthy Hr). exact (filled_truthy Htk).
Qed.

(** C6 as it is stated, with [false] and [true], fails: the value of
    [isConfigured()] is the operand the [&&] chain stopped at.  With an
    empty token it is the empty string, not [false]; with the three
    fields filled it is the token, not [true]. *)
Lemma isConfigured_boolean_counterexample :
  (let w := mkWorld (JObj [(js "username", JStr (js "alice"));
                           (js "repo", JStr (js "update-log"));
                           (js "token", JStr [])]) ∅ 0 [] [] [] in
   missing (field (config w) (js "token"))
   /\ isConfigured w = (Ok (Some (JStr [])), w)
   /\ isConfigured w <> (Ok (Some (JBool false)), w))
  /\ (let w := mkWorld sample_config ∅ 0 [] [] [] in
      filled (field (config w) (js "username"))
      /\ filled (field (config w) (js "repo"))
      /\ filled (field (config w) (js "token"))
      /\ isConfigured w = (Ok (Some (JStr (js "ghp_0123456789"))), w)
      /\ isConfigured w <> (Ok (Some (JBool true)), w)).
Proof.
  split; cbv zeta.
  - split; [right; right; reflexivity|]. split; [reflexivity|].
    rewrite isConfigured_run. intros E. discriminate E.
  - split; [eexists _, _; reflexivity|]. split; [eexists _, _; reflexivity|].
    split; [eexists _, _; reflexivity|]. split; [reflexivity|].
    rewrite isConfigured_run. intros E. discriminate E.
Qed.

(** The configured sample, and the same without its token. *)
Example isConfigured_sample :
  fst (isConfigured (mkWorld sample_config ∅ 0 [] [] []))
  = Ok (Some (JStr (js "ghp_0123456789"))).
Proof. reflexivity. Qed.

Example isConfigured_sample_no_token :
  fst (isConfigured
         (mkWorld (JObj [(js "username", JStr (js "alice"));
                         (js "repo", JStr (js "update-log"));
                         (js "token", JStr [])]) ∅ 0 [] [] []))
  = Ok (Some (JStr [])).
Proof. reflexivity. Qed.

(** ** Requests *)

(** Unfolding of the plumbing of a computation. *)
Ltac run :=
  cbv beta iota delta
    [bind ret throw try_catch lift action this_config set_this_config
     console.log console.warn console.error alert now response_json
     localStorage.getItem localStorage.setItem fetch].

Lemma is_configured_value (w : World) :
  is_configured w = true ->
  exists v, isConfigured_value (config w) = Ok v /\ truthy v = true.
Proof.
  unfold is_configured.
  destruct (isConfigured_value (config w)) as [v|e]; [eauto | discriminate].
Qed.

Lemma not_configured_value (w : World) :
  is_configured w = false ->
  exists v, isConfigured_value (config w) = Ok v /\ truthy v = false.
Proof.
  unfold is_configured. destruct (isConfigured_value_total (config w)) as [v ->].
  eauto.
Qed.

Lemma getApiUrl_run (w : World) :
  is_configured w = true -> getApiUrl w = (api_url (config w), w).
Proof.
  intros H. destruct (is_configured_value w H) as (v & Hv & Ht).
  destruct (is_configured_inv w H) as (kvs & Hc & _).
  unfold getApiUrl, isConfigured. run. rewrite Hv, Ht. cbv beta iota delta [negb].
  rewrite Hc. unfold api_url. cbn [get_prop field].
  destruct (to_string_val (assoc (js "username") kvs)); [|reflexivity].
  destruct (to_string_val (assoc (js "repo") kvs)); reflexivity.
Qed.

Lemma getHeaders_run (w : World) :
  is_configured w = true -> getHeaders w = (api_headers (config w), w).
Proof.
  intros H. destruct (is_configured_value w H) as (v & Hv & Ht).
  destruct (is_configured_inv w H) as (kvs & Hc & _).
  unfold getHeaders, isConfigured. run. rewrite Hv, Ht. cbv beta iota delta [negb].
  rewrite Hc. unfold api_headers. cbn [get_prop field].
  destruct (to_string_val (assoc (js "token") kvs)); reflexivity.
Qed.

(** Changes of the world that leave the configuration alone. *)
Lemma is_configured_emit (e : event) (w : World) :
  is_configured (emit e w) = is_configured w.
Proof. reflexivity. Qed.

Lemma is_configured_with_net (n : list outcome) (w : World) :
  is_configured (with_net n w) = is_configured w.
Proof. reflexivity. Qed.

Lemma is_configured_with_storage (m : gmap jsstring jsstring) (w : World) :
  is_configured (with_storage m w) = is_configured w.
Proof. reflexivity. Qed.

(** ** The local cache *)

Lemma parse_empty : JSON.parse [] = Throw SyntaxError.
Proof. reflexivity. Qed.

Lemma loadLogsFromLocal_run (w : World) :
  loadLogsFromLocal w
  = (local_logs (storage w !! LOGS_KEY), emit (GetItem LOGS_KEY) w).
Proof.
  unfold loadLogsFromLocal. run.
  destruct (storage w !! LOGS_KEY) as [[|c s]|]; reflexivity.
Qed.

Lemma saveLogsToLocal_run (logs : json) (w : World) :
  saveLogsToLocal logs w
  = let w1 := emit (SetItem LOGS_KEY (JSON.stringify logs)) w in
    if localStorage.accepts LOGS_KEY (JSON.stringify logs) w
    then (Ok true, with_storage (<[LOGS_KEY := JSON.stringify logs]> (storage w)) w1)
    else (Ok false, emit (Console LError msg_quota None) w1).
Proof.
  unfold saveLogsToLocal. run.
  destruct (localStorage.accepts LOGS_KEY (JSON.stringify logs) w); reflexivity.
Qed.

(** ** Construction *)

Lemma constructor_run (w : World) :
  constructor w
  = let w1 := emit (GetItem CONFIG_KEY) (with_config JNull w) in
    match storage w !! CONFIG_KEY with
    | Some (c :: s) =>
        match JSON.parse (c :: s) with
        | Ok v => (Ok tt, with_config v w1)
        | Throw e => (Ok tt, emit (Console LError msg_config_load_failed (Some e)) w1)
        end
    | _ => (Ok tt, w1)
    end.
Proof.
  unfold constructor, loadConfig. run.
  change (storage (with_config JNull w)) with (storage w).
  destruct (storage w !! CONFIG_KEY) as [[|c s]|]; try reflexivity.
  unfold truthy_str, nonempty. cbv beta iota.
  destruct (JSON.parse (c :: s)); reflexivity.
Qed.

(** C9 (amended). When the content under [github_config] is present but
    is not valid JSON, constructing the adapter throws nothing, leaves
    [this.config] at [null], so that the adapter is not configured, and
    touches neither the store nor the network.  A content that is not
    the empty string is read and its parse error logged with
    [console.error], once; the empty string is read and taken for no
    content: nothing is logged. *)
Theorem constructor_malformed_config (w : World) (s : jsstring) (e : error) :
  storage w !! CONFIG_KEY = Some s ->
  JSON.parse s = Throw e ->
  exists w', constructor w = (Ok tt, w')
    /\ config w' = JNull
    /\ is_configured w' = false
    /\ storage w' = storage w
    /\ net w' = net w
    /\ trace w' = trace w ++ GetItem CONFIG_KEY ::
         (if nonempty s
          then [Console LError msg_config_load_failed (Some e)]
          else []).
Proof.
  intros Hs He. rewrite constructor_run, Hs.
  destruct s as [|c s].
  - eexists; split; [reflexivity|]. repeat split.
  - rewrite He. eexists; split; [reflexivity|]. repeat split.
    cbn [trace emit with_config nonempty]. rewrite <- app_assoc. reflexivity.
Qed.

Lemma constructor_malformed_config_witness :
  let w := sample_world sample_config {[CONFIG_KEY := js "{username:"]} 5000 [] in
  storage w !! CONFIG_KEY = Some (js "{username:")
  /\ JSON.parse (js "{username:") = Throw SyntaxError
  /\ exists w', constructor w = (Ok tt, w')
       /\ config w' = JNull
       /\ is_configured w' = false
       /\ storage w' = storage w
       /\ net w' = net w
       /\ trace w' = trace w ++ GetItem CONFIG_KEY ::
            (if nonempty (js "{username:")
             then [Console LError msg_config_load_failed (Some SyntaxError)]
             else []).
Proof.
  intros w. split; [vm_compute; reflexivity|]. split; [reflexivity|].
  apply constructor_malformed_config; [vm_compute; reflexivity | reflexivity].
Defined.

(** C9 as stated fails for the empty string: it is present under the
    key and is not valid JSON, and constructing the adapter logs
    nothing. *)
Lemma constructor_empty_config_counterexample :
  let w := sample_world JNull {[CONFIG_KEY := []]} 5000 [] in
  storage w !! CONFIG_KEY = Some []
  /\ JSON.parse [] = Throw SyntaxError
  /\ fst (constructor w) = Ok tt
  /\ trace (snd (constructor w)) = [GetItem CONFIG_KEY].
Proof. repeat split; vm_compute; reflexivity. Qed.

(** ** Reading *)

Lemma loadLogs_unconfigured_run (w : World) :
  is_configured w = false ->
  loadLogs w
  = (local_logs (storage w !! LOGS_KEY),
     emit (GetItem LOGS_KEY) (emit (Console LWarn msg_warn_use_local None) w)).
Proof.
  intros H. destruct (not_configured_value w H) as (c & Hc & Ht).
  unfold loadLogs. unfold bind at 1. rewrite isConfigured_run, Hc, Ht.
  cbv beta iota delta [negb]. unfold bind, console.warn, action.
  rewrite loadLogsFromLocal_run. reflexivity.
Qed.

(** C7. In an unconfigured state [loadLogs()] sends no request: it warns
    on the console, reads the key [updateLogs] and nothing else.  It
    returns the empty array when the key is absent and the value
    [JSON.parse] gives for the content of the key when there is one
    ([local_logs] is [loadLogsFromLocal] on the content). *)
Theorem loadLogs_unconfigured (w : World) :
  is_configured w = false ->
  exists r w', loadLogs w = (r, w')
    /\ r = local_logs (storage w !! LOGS_KEY)
    /\ (storage w !! LOGS_KEY = None -> r = Ok (JArr []))
    /\ (forall s v, storage w !! LOGS_KEY = Some s -> JSON.parse s = Ok v ->
        r = Ok v)
    /\ net w' = net w
    /\ storage w' = storage w
    /\ trace w' = trace w ++ [Console LWarn msg_warn_use_local None;
                             GetItem LOGS_KEY].
Proof.
  intros H. rewrite (loadLogs_unconfigured_run w H).
  eexists _, _. split; [reflexivity|].
  repeat split.
  - intros ->. reflexivity.
  - intros s v -> Hp. destruct s as [|a s]; [|exact Hp].
    rewrite parse_empty in Hp. discriminate.
  - cbn [trace emit]. rewrite <- app_assoc. reflexivity.
Qed.

Lemma loadLogs_unconfigured_witness :
  let w := sample_world JNull {[LOGS_KEY := JSON.stringify sample_logs]} 5000
             [Responded (mkResponse 200 (js "{}"))] in
  is_configured w = false
  /\ exists r w', loadLogs w = (r, w')
       /\ r = local_logs (storage w !! LOGS_KEY)
       /\ (storage w !! LOGS_KEY = None -> r = Ok (JArr []))
       /\ (forall s v, storage w !! LOGS_KEY = Some s -> JSON.parse s = Ok v ->
           r = Ok v)
       /\ net w' = net w
       /\ storage w' = storage w
       /\ trace w' = trace w ++ [Console LWarn msg_warn_use_local None;
                                GetItem LOGS_KEY].
Proof.
  intros w. split; [reflexivity|]. apply loadLogs_unconfigured. reflexivity.
Defined.

(** On that state the collection comes back from the cache. *)
Example loadLogs_unconfigured_sample :
  fst (loadLogs (sample_world JNull {[LOGS_KEY := JSON.stringify sample_logs]}
                   5000 [Responded (mkResponse 200 (js "{}"))]))
  = Ok sample_logs.
Proof. vm_compute. reflexivity. Qed.

Lemma fetch_run (req : request) (w : World) :
  fetch req w
  = (match hd Rejected (net w) with
     | Responded r => Ok r
     | Rejected => Throw TypeError
     end,
     with_net (tl (net w)) (emit (Fetch req) w)).
Proof. unfold fetch. destruct (net w) as [|[|r] n]; reflexivity. Qed.

(** The effect of [saveLogsToLocal]: it never throws, and it returns
    whether the store took the write. *)
Lemma saveLogsToLocal_returns (logs : json) (w : World) :
  exists w',
    saveLogsToLocal logs w
    = (Ok (localStorage.accepts LOGS_KEY (JSON.stringify logs) w), w').
Proof.
  rewrite saveLogsToLocal_run. cbv zeta.
  destruct (localStorage.accepts LOGS_KEY (JSON.stringify logs) w);
    eexists; reflexivity.
Qed.

(** The [catch] block of [loadLogs]. *)
Lemma load_failed_run (e : error) (w : World) :
  load_failed e w
  = (local_logs (storage w !! LOGS_KEY),
     emit (GetItem LOGS_KEY)
       (emit (Console LLog msg_try_local None)
          (emit (Console LError msg_load_failed (Some e)) w))).
Proof.
  unfold load_failed. run. unfold bind. rewrite loadLogsFromLocal_run.
  reflexivity.
Qed.

(** [loadLogs] in a configured state, step by step: the request is sent
    when its URL and its headers can be built, and the [catch] block
    takes over when they cannot. *)
Lemma loadLogs_configured (w : World) :
  is_configured w = true ->
  loadLogs w
  = match get_request (config w) with
    | Ok req =>
        let w1 := with_net (tl (net w)) (emit (Fetch req) w) in
        match remote_logs (hd Rejected (net w)) with
        | Ok None =>
            (Ok (JArr []), emit (Console LLog msg_remote_file_missing None) w1)
        | Ok (Some logs) => (Ok logs, snd (saveLogsToLocal logs w1))
        | Throw e => load_failed e w1
        end
    | Throw e => load_failed e w
    end.
Proof.
  intros H. destruct (is_configured_value w H) as (c & Hc & Ht).
  unfold loadLogs. unfold bind at 1. rewrite isConfigured_run, Hc, Ht.
  cbv beta iota delta [negb]. unfold try_catch, bind at 1.
  rewrite (getApiUrl_run w H). unfold get_request, result_bind.
  destruct (api_url (config w)) as [url|e]; [|reflexivity].
  unfold bind at 1. rewrite (getHeaders_run w H).
  destruct (api_headers (config w)) as [headers|e]; [|reflexivity].
  unfold bind at 1. rewrite fetch_run. cbv zeta.
  destruct (hd Rejected (net w)) as [|r]; [reflexivity|].
  unfold remote_logs. destruct (status r =? 404); [reflexivity|].
  destruct (ok r); [|reflexivity]. cbv beta iota delta [negb].
  run. unfold result_bind.
  destruct (JSON.parse (text r)) as [data|e]; [|reflexivity].
  destruct (get_prop (Some data) (js "content")) as [dc|e]; [|reflexivity].
  destruct (to_string_val dc) as [dcs|e]; [|reflexivity].
  destruct (atob dcs) as [content|e]; [|reflexivity].
  destruct (JSON.parse content) as [logs|e]; [|reflexivity].
  unfold bind.
  match goal with
  | |- context [saveLogsToLocal logs ?w0] =>
      destruct (saveLogsToLocal_returns logs w0) as (w' & ->)
  end.
  reflexivity.
Qed.

(** C3. In a configured state, when the read request is answered with
    status 404, [loadLogs()] returns the empty array; the store is as it
    was, and the only actions are the request and one console line: the
    key [updateLogs] is neither read nor written.  The read request is
    the one [getApiUrl()] and [getHeaders()] address, [get_request]; it
    is sent whenever [username], [repo] and [token] convert to strings,
    as the strings of the configuration schema do.  When one of them
    does not (an object with an own property [toString]), the
    conversion throws inside the [try] before anything is sent: no
    remote read takes place, so none is answered, and the [catch] block
    returns the local cache. *)
Theorem loadLogs_404 (w : World) (body : jsstring) (rest : list outcome) :
  is_configured w = true ->
  net w = Responded (mkResponse 404 body) :: rest ->
  match get_request (config w) with
  | Ok req =>
      exists w', loadLogs w = (Ok (JArr []), w')
        /\ storage w' = storage w
        /\ net w' = rest
        /\ trace w' = trace w ++ [Fetch req;
                                 Console LLog msg_remote_file_missing None]
  | Throw e =>
      exists w', loadLogs w = (local_logs (storage w !! LOGS_KEY), w')
        /\ storage w' = storage w
        /\ net w' = net w
        /\ trace w' = trace w ++ [Console LError msg_load_failed (Some e);
                                 Console LLog msg_try_local None;
                                 GetItem LOGS_KEY]
  end.
Proof.
  intros H Hn. rewrite (loadLogs_configured w H).
  destruct (get_request (config w)) as [req|e].
  - rewrite Hn. cbn [hd tl remote_logs status N.eqb Pos.eqb]. cbv zeta.
    eexists. split; [reflexivity|]. repeat split.
    cbn [trace emit with_net]. rewrite <- app_assoc. reflexivity.
  - rewrite load_failed_run. eexists. split; [reflexivity|]. repeat split.
    cbn [trace emit]. rewrite <- !app_assoc. reflexivity.
Qed.

Lemma loadLogs_404_witness :
  let w := sample_world sample_config {[LOGS_KEY := JSON.stringify sample_logs]}
             5000 [Responded (mkResponse 404 (js "{}"))] in
  let req := mkRequest (js "GET")
               (js "https://api.github.com/repos/alice/update-log/contents/data/logs.json")
               [(js "Authorization", js "token ghp_0123456789");
                (js "Accept", js "application/vnd.github.v3+json");
                (js "Content-Type", js "application/json")] None in
  is_configured w = true
  /\ net w = [Responded (mkResponse 404 (js "{}"))]
  /\ get_request (config w) = Ok req
  /\ exists w', loadLogs w = (Ok (JArr []), w')
       /\ storage w' = storage w
       /\ net w' = []
       /\ trace w' = trace w ++ [Fetch req;
                                Console LLog msg_remote_file_missing None].
Proof.
  intros w req. split; [reflexivity|]. split; [reflexivity|].
  split; [reflexivity|].
  exact (loadLogs_404 w (body := js "{}") (rest := []) eq_refl eq_refl).
Defined.

(** With a field that does not convert to a string nothing is sent,
    whatever the remote end would answer. *)
Example loadLogs_unprintable_username :
  let c := JObj [(js "username", JObj [(js "toString", JNum 1 0)]);
                 (js "repo", JStr (js "update-log"));
                 (js "token", JStr (js "ghp_0123456789"))] in
  let w := sample_world c {[LOGS_KEY := js "[1]"]} 5000
             [Responded (mkResponse 404 (js "{}"))] in
  is_configured w = true
  /\ get_request (config w) = Throw TypeError
  /\ fst (loadLogs w) = Ok (JArr [JNum 1 0])
  /\ net (snd (loadLogs w)) = net w
  /\ trace (snd (loadLogs w))
     = [Console LError msg_load_failed (Some TypeError);
        Console LLog msg_try_local None;
        GetItem LOGS_KEY].
Proof. repeat split; vm_compute; reflexivity. Qed.

(** ** Writing *)

Lemma fetch_sha_run (w : World) :
  is_configured w = true ->
  fetch_sha w
  = match get_request (config w) with
    | Ok req =>
        let w1 := with_net (tl (net w)) (emit (Fetch req) w) in
        match sha_result (hd Rejected (net w)) with
        | Ok sha => (Ok sha, w1)
        | Throw _ => (Ok (Some JNull), emit (Console LLog msg_no_file None) w1)
        end
    | Throw _ => (Ok (Some JNull), emit (Console LLog msg_no_file None) w)
    end.
Proof.
  intros H. unfold fetch_sha, try_catch. unfold bind at 1.
  rewrite (getApiUrl_run w H). unfold get_request, result_bind.
  destruct (api_url (config w)) as [url|e]; [|reflexivity].
  unfold bind at 1. rewrite (getHeaders_run w H).
  destruct (api_headers (config w)) as [headers|e]; [|reflexivity].
  unfold bind at 1. rewrite fetch_run. cbv zeta.
  destruct (hd Rejected (net w)) as [|r]; [reflexivity|].
  unfold sha_result. destruct (ok r); [|reflexivity].
  run. destruct (JSON.parse (text r)) as [d|e]; [|reflexivity].
  unfold result_bind. destruct (get_prop (Some d) (js "sha")); reflexivity.
Qed.

(** [saveLogs] in a configured state, step by step. *)
Lemma saveLogs_configured (logs : json) (w : World) :
  is_configured w = true ->
  saveLogs logs w
  = match fetch_sha w with
    | (Ok sha, w1) =>
        match encode_content (JSON.stringify_indent 2 logs) with
        | Throw e => save_failed logs e w1
        | Ok encodedContent =>
            match put_request (config w) (clock w) encodedContent sha with
            | Throw e => save_failed logs e w1
            | Ok req =>
                let w2 := with_net (tl (net w1)) (emit (Fetch req) w1) in
                match put_error (hd Rejected (net w1)) with
                | Some e => save_failed logs e w2
                | None =>
                    (Ok true, emit (Console LLog msg_synced None)
                                (snd (saveLogsToLocal logs w2)))
                end
            end
        end
    | (Throw e, w1) => save_failed logs e w1
    end.
Proof.
  intros H. destruct (is_configured_value w H) as (c & Hc & Ht).
  unfold saveLogs. unfold bind at 1. rewrite isConfigured_run, Hc, Ht.
  cbv beta iota delta [negb]. unfold try_catch at 1. unfold bind at 1.
  assert (Hsha : exists sha w1, fetch_sha w = (Ok sha, w1)
                   /\ is_configured w1 = true /\ config w1 = config w
                   /\ clock w1 = clock w).
  { rewrite (fetch_sha_run w H).
    destruct (get_request (config w)) as [req|e0]; cbv zeta;
      [destruct (sha_result (hd Rejected (net w))) as [sha|e0]|];
      eexists _, _; (split; [reflexivity|]); repeat split; exact H. }
  destruct Hsha as (sha & w1 & -> & Hw1 & Hc1 & Hk1). cbv beta iota.
  unfold encode_content, result_bind; unfold bind at 1; unfold lift at 1.
  destruct (encodeURIComponent (JSON.stringify_indent 2 logs)) as [esc|e1];
    [|reflexivity].
  unfold bind at 1; unfold lift at 1.
  destruct (btoa (unescape esc)) as [enc|e2]; [|reflexivity].
  unfold bind at 1; unfold now at 1.
  unfold bind at 1; unfold this_config at 1.
  destruct (is_configured_inv w1 Hw1) as (kvs & Hkvs & _).
  unfold bind at 1; unfold lift at 1.
  assert (Hb : get_prop (Some (config w1)) (js "branch")
               = Ok (field (config w1) (js "branch")))
    by (rewrite Hkvs; reflexivity).
  rewrite Hb; clear Hb kvs Hkvs.
  unfold bind at 1; rewrite (getApiUrl_run w1 Hw1).
  unfold put_request, result_bind. rewrite Hc1, Hk1.
  destruct (api_url (config w)) as [url|e3]; [|reflexivity].
  unfold bind at 1; rewrite (getHeaders_run w1 Hw1). rewrite Hc1.
  destruct (api_headers (config w)) as [headers|e3]; [|reflexivity].
  unfold bind at 1; rewrite fetch_run. cbv zeta.
  destruct (hd Rejected (net w1)) as [|r]; [reflexivity|].
  unfold put_error; destruct (ok r); cbv beta iota delta [negb].
  2:{ run. destruct (JSON.parse (text r)) as [d|e3]; [|reflexivity].
      destruct (get_prop (Some d) (js "message")) as [m|e3]; [|reflexivity].
      destruct (to_string_val (js_or m (Some (JStr msg_api_error))));
        reflexivity. }
  unfold bind at 1; unfold ret at 1; unfold bind at 1.
  match goal with
  | |- context [saveLogsToLocal ?l ?w0] =>
      rewrite (saveLogsToLocal_run l w0); cbv zeta;
      destruct (localStorage.accepts LOGS_KEY (JSON.stringify l) w0)
  end; reflexivity.
Qed.

(** ** The encoding of the content never fails

    [JSON.stringify] escapes lone surrogates, so that
    [encodeURIComponent] accepts its output, and [unescape] turns the
    escapes into bytes, which [btoa] accepts. *)

Lemma well_formed_app (a b : jsstring) :
  well_formed a -> well_formed b -> well_formed (a ++ b).
Proof.
  intros Ha Hb. induction Ha as [|c s Hc Hs Ha IH|h l s Hh Hl Ha IH]; simpl.
  - exact Hb.
  - apply wf_unit; assumption.
  - apply wf_pair; assumption.
Qed.

Lemma between_true (lo hi c : N) : between lo hi c = true <-> lo <= c <= hi.
Proof.
  unfold between. rewrite andb_true_iff, !N.leb_le. tauto.
Qed.

Lemma between_false (lo hi c : N) : between lo hi c = false <-> c < lo \/ hi < c.
Proof.
  unfold between. rewrite andb_false_iff, !N.leb_gt. tauto.
Qed.

Lemma plain_well_formed (s : jsstring) : plain s -> well_formed s.
Proof.
  induction 1 as [|c s Hc Hs IH]; [apply wf_nil|].
  apply wf_unit; [lia | | exact IH].
  apply between_false. lia.
Qed.

Lemma plain_app (a b : jsstring) : plain a -> plain b -> plain (a ++ b).
Proof. intros Ha Hb. apply Forall_app. split; assumption. Qed.

Lemma plain_js (str : string) : plain (js str).
Proof.
  unfold plain, js. apply Forall_map, Forall_forall. intros a _.
  pose proof (N_ascii_bounded a). simpl. lia.
Qed.

Lemma plain_repeat (c : N) (n : nat) : c < 0xD800 -> plain (repeat c n).
Proof. intros Hc. induction n; simpl; constructor; assumption. Qed.

Lemma lor_below (n a b : N) : a < 2 ^ n -> b < 2 ^ n -> N.lor a b < 2 ^ n.
Proof.
  intros Ha Hb.
  destruct (N.eq_dec a 0) as [->|Ha0]; [rewrite N.lor_0_l; exact Hb|].
  destruct (N.eq_dec b 0) as [->|Hb0]; [rewrite N.lor_0_r; exact Ha|].
  apply N.log2_lt_pow2.
  - apply N.neq_0_lt_0. rewrite N.lor_eq_0_iff. tauto.
  - rewrite N.log2_lor. apply N.max_lub_lt; apply N.log2_lt_pow2; lia.
Qed.

Lemma lor_byte (a b : N) : a < 256 -> b < 256 -> N.lor a b < 256.
Proof. exact (@lor_below 8 a b). Qed.

Lemma land_63 (a : N) : N.land a 0x3F < 64.
Proof.
  change 0x3F with (N.ones 6). rewrite N.land_ones.
  apply N.mod_lt. discriminate.
Qed.

Lemma shiftr_below (a n k : N) : a < k * 2 ^ n -> N.shiftr a n < k.
Proof.
  intros H. rewrite N.shiftr_div_pow2.
  apply N.Div0.div_lt_upper_bound. lia.
Qed.

Lemma utf8_bytes (cp : N) : cp < 0x110000 -> bytes (utf8 cp).
Proof.
  intros Hcp. unfold utf8, bytes.
  pose proof (land_63 cp) as L0. pose proof (land_63 (N.shiftr cp 6)) as L1.
  pose proof (land_63 (N.shiftr cp 12)) as L2.
  destruct (cp <? 0x80) eqn:H1; [apply N.ltb_lt in H1; repeat constructor; lia|].
  destruct (cp <? 0x800) eqn:H2.
  { apply N.ltb_lt in H2. pose proof (@shiftr_below cp 6 32 H2).
    repeat constructor; apply lor_byte; lia. }
  destruct (cp <? 0x10000) eqn:H3.
  { apply N.ltb_lt in H3. pose proof (@shiftr_below cp 12 16 H3).
    repeat constructor; apply lor_byte; lia. }
  assert (H4 : cp < 8 * 2 ^ 18) by (change (8 * 2 ^ 18) with 2097152; lia).
  apply shiftr_below in H4.
  repeat constructor; apply lor_byte; lia.
Qed.

Lemma hex_val_upper (d : N) : d < 16 -> hex_val (hex_upper d) = Some d.
Proof.
  intros Hd. unfold hex_val, hex_upper, is_digit.
  destruct (d <? 10) eqn:H10; [apply N.ltb_lt in H10 | apply N.ltb_ge in H10].
  - replace (between 48 57 (48 + d)) with true
      by (symmetry; apply between_true; lia).
    f_equal. lia.
  - replace (between 48 57 (55 + d)) with false
      by (symmetry; apply between_false; lia).
    replace (between 65 70 (55 + d)) with true
      by (symmetry; apply between_true; lia).
    f_equal. lia.
Qed.

Lemma hex_upper_not_u (d : N) : d < 16 -> (hex_upper d =? 117) = false.
Proof.
  intros Hd. apply N.eqb_neq. unfold hex_upper. destruct (d <? 10); lia.
Qed.

Lemma unescape_percent (b : N) (r : jsstring) :
  b < 256 -> unescape (percent b ++ r) = b :: unescape r.
Proof.
  intros Hb.
  assert (Hhi : b / 16 < 16) by (apply N.Div0.div_lt_upper_bound; lia).
  assert (Hlo : b mod 16 < 16) by (apply N.mod_lt; discriminate).
  unfold percent. cbn [app unescape N.eqb Pos.eqb].
  rewrite (hex_upper_not_u Hhi). unfold hex2.
  rewrite (hex_val_upper Hhi), (hex_val_upper Hlo). f_equal.
  pose proof (N.div_mod b 16 ltac:(discriminate)). lia.
Qed.

Lemma unescape_percent_all (bs : list N) (r : jsstring) :
  bytes bs -> unescape (percent_all bs ++ r) = bs ++ unescape r.
Proof.
  induction 1 as [|b bs Hb Hbs IH]; [reflexivity|].
  unfold percent_all in *. cbn [flat_map]. rewrite <- app_assoc.
  rewrite (unescape_percent _ Hb), IH. reflexivity.
Qed.

Lemma uri_unreserved_ascii (c : N) : uri_unreserved c = true -> c < 128 /\ c <> 37.
Proof.
  unfold uri_unreserved, is_upper, is_lower, is_digit.
  rewrite !orb_true_iff, !between_true, !N.eqb_eq. lia.
Qed.

Lemma unescape_literal (c : N) (r : jsstring) :
  c <> 37 -> unescape (c :: r) = c :: unescape r.
Proof.
  intros Hc. cbn [unescape]. apply N.eqb_neq in Hc. rewrite Hc. reflexivity.
Qed.

Lemma surrogate_split (c : N) :
  is_surrogate c = false ->
  is_high_surrogate c = false /\ is_low_surrogate c = false.
Proof.
  unfold is_surrogate, is_high_surrogate, is_low_surrogate.
  rewrite !between_false. lia.
Qed.

(** On a well-formed string [encodeURIComponent] succeeds, and
    [unescape] makes bytes of what it returns. *)
Lemma encode_well_formed (s : jsstring) :
  well_formed s ->
  exists e, encodeURIComponent s = Ok e /\ bytes (unescape e).
Proof.
  induction 1 as [|c s Hc Hs Hwf (e & He & Hb)|h l s Hh Hl Hwf (e & He & Hb)].
  - exists []. split; [reflexivity | constructor].
  - cbn [encodeURIComponent]. rewrite He. unfold result_bind.
    destruct (surrogate_split c Hs) as [Hhi Hlo]. rewrite Hhi, Hlo.
    destruct (uri_unreserved c) eqn:Hu.
    + destruct (uri_unreserved_ascii c Hu) as [Ha Hn].
      eexists; split; [reflexivity|]. rewrite (unescape_literal _ Hn).
      constructor; [lia | exact Hb].
    + eexists; split; [reflexivity|].
      assert (Hbs : bytes (utf8 c)) by (apply utf8_bytes; lia).
      rewrite (unescape_percent_all _ Hbs). apply Forall_app. split; assumption.
  - apply between_true in Hh as Hh'. apply between_true in Hl as Hl'.
    cbn [encodeURIComponent]. rewrite He. unfold result_bind.
    replace (uri_unreserved h) with false.
    2:{ symmetry. destruct (uri_unreserved h) eqn:Hu; [|reflexivity].
        apply uri_unreserved_ascii in Hu. lia. }
    replace (is_low_surrogate h) with false
      by (symmetry; apply between_false; lia).
    rewrite Hh, Hl.
    eexists; split; [reflexivity|].
    assert (Hbs : bytes (utf8 (code_point h l)))
      by (apply utf8_bytes; unfold code_point; lia).
    rewrite (unescape_percent_all _ Hbs). apply Forall_app. split; assumption.
Qed.

Lemma btoa_bytes (s : jsstring) : bytes s -> btoa s = Ok (b64_encode s).
Proof.
  intros Hs. unfold btoa.
  replace (forallb (fun c => c <=? 255) s) with true; [reflexivity|].
  symmetry. apply forallb_forall. intros c Hc.
  apply N.leb_le. pose proof (proj1 (Forall_forall (fun c => c < 256) s) Hs c) as H.
  apply list_elem_of_In in Hc. specialize (H Hc). simpl in H. lia.
Qed.

Lemma encode_content_well_formed (s : jsstring) :
  well_formed s -> exists enc, encode_content s = Ok enc.
Proof.
  intros Hs. destruct (encode_well_formed Hs) as (e & He & Hb).
  unfold encode_content. rewrite He. unfold result_bind.
  rewrite (btoa_bytes Hb). eexists; reflexivity.
Qed.

Lemma plain_uint_units (d : Decimal.uint) : plain (uint_units d).
Proof. induction d; simpl; constructor; (lia || assumption). Qed.

Lemma plain_dec_of_N (n : N) : plain (dec_of_N n).
Proof. apply plain_uint_units. Qed.

Lemma plain_drop_zeros (ds : jsstring) : plain ds -> plain (fst (drop_zeros ds)).
Proof.
  induction 1 as [|c r Hc Hr IH]; [constructor|].
  cbn [drop_zeros]. destruct (c =? 48).
  - destruct (drop_zeros r). exact IH.
  - constructor; assumption.
Qed.

Lemma plain_number_to_string (m e : Z) : plain (number_to_string m e).
Proof.
  unfold number_to_string.
  destruct (m =? 0)%Z; [apply plain_js|].
  assert (Hd : plain (fst (drop_zeros (rev (dec_of_N (Z.abs_N m))))))
    by (apply plain_drop_zeros, Forall_rev, plain_dec_of_N).
  destruct (drop_zeros (rev (dec_of_N (Z.abs_N m)))) as [rds z].
  cbn [fst] in Hd. apply Forall_rev in Hd.
  set (ds := rev rds) in *. cbv zeta.
  set (n := (Z.of_nat (length ds) + e + Z.of_nat z)%Z).
  apply plain_app; [destruct (m <? 0)%Z; [apply plain_js | constructor]|].
  repeat match goal with
         | |- plain (if ?b then _ else _) => destruct b
         end.
  - apply plain_app; [exact Hd | apply plain_repeat; lia].
  - apply plain_app; [apply Forall_take; exact Hd|].
    apply plain_app; [apply plain_js | apply Forall_drop; exact Hd].
  - apply plain_app; [apply plain_js|].
    apply plain_app; [apply plain_repeat; lia | exact Hd].
  - assert (He : plain ((if (n - 1 <? 0)%Z then js "e-" else js "e+")
                          ++ dec_of_N (Z.abs_N (n - 1)))).
    { apply plain_app; [destruct (n - 1 <? 0)%Z; apply plain_js|].
      apply plain_dec_of_N. }
    destruct Hd as [|d r Hd0 Hr]; [constructor|].
    destruct r as [|d' r'].
    + constructor; assumption.
    + constructor; [exact Hd0|].
      apply plain_app; [apply plain_js|]. apply plain_app; assumption.
Qed.

Lemma plain_unicode_escape (c : N) : plain (JSON.unicode_escape c).
Proof.
  assert (H : forall d, hex_lower (d mod 16) < 0xD800).
  { intros d. pose proof (N.mod_lt d 16 ltac:(discriminate)).
    unfold hex_lower. destruct (d mod 16 <? 10); lia. }
  unfold JSON.unicode_escape. apply plain_app; [apply plain_js|].
  repeat constructor; apply H.
Qed.

Lemma well_formed_plain_app (a b : jsstring) :
  plain a -> well_formed b -> well_formed (a ++ b).
Proof. intros Ha Hb. apply well_formed_app; [apply plain_well_formed|]; assumption. Qed.

Lemma valid_string_cons (c : N) (s : jsstring) :
  valid_string (c :: s) = true -> c < 65536 /\ valid_string s = true.
Proof.
  unfold valid_string. cbn [forallb]. rewrite andb_true_iff, N.ltb_lt. tauto.
Qed.

(** The body of a quoted string is well formed: [QuoteJSONString]
    escapes the surrogates that have no partner. *)
Lemma quote_body_well_formed (s : jsstring) :
  valid_string s = true -> well_formed (JSON.quote_body s).
Proof.
  remember (length s) as n eqn:Hn. revert s Hn.
  induction n as [n IH] using lt_wf_ind. intros s Hn Hv.
  destruct s as [|c s]; [apply wf_nil|].
  destruct (valid_string_cons _ _ Hv) as [Hc Hs].
  assert (IHs : well_formed (JSON.quote_body s)).
  { apply (IH (length s)); [subst n; simpl; lia | reflexivity | exact Hs]. }
  cbn [JSON.quote_body].
  repeat match goal with
         | |- well_formed (if ?b =? ?k then _ else _) =>
             destruct (b =? k);
             [apply well_formed_plain_app;
              [first [apply plain_js | repeat constructor; lia] | exact IHs]|]
         end.
  destruct (c <? 32);
    [apply well_formed_plain_app; [apply plain_unicode_escape | exact IHs]|].
  destruct (is_high_surrogate c) eqn:Hh.
  { destruct s as [|d s'].
    - rewrite <- (app_nil_r (JSON.unicode_escape c)).
      apply well_formed_plain_app; [apply plain_unicode_escape | apply wf_nil].
    - destruct (is_low_surrogate d) eqn:Hl.
      + apply wf_pair; [exact Hh | exact Hl|].
        destruct (valid_string_cons _ _ Hs) as [_ Hs'].
        apply (IH (length s')); [subst n; simpl; lia | reflexivity | exact Hs'].
      + apply well_formed_plain_app; [apply plain_unicode_escape | exact IHs]. }
  destruct (is_low_surrogate c) eqn:Hl;
    [apply well_formed_plain_app; [apply plain_unicode_escape | exact IHs]|].
  apply wf_unit; [exact Hc | | exact IHs].
  apply between_false in Hh, Hl. apply between_false. lia.
Qed.

Lemma quote_well_formed (s : jsstring) :
  valid_string s = true -> well_formed (JSON.quote s).
Proof.
  intros Hs. unfold JSON.quote.
  apply well_formed_plain_app; [repeat constructor; lia|].
  apply well_formed_app; [apply quote_body_well_formed; exact Hs|].
  apply plain_well_formed. repeat constructor; lia.
Qed.

Lemma join_well_formed (sep : jsstring) (parts : list jsstring) :
  well_formed sep -> Forall well_formed parts -> well_formed (join sep parts).
Proof.
  intros Hsep. induction 1 as [|p ps Hp Hps IH]; [apply wf_nil|].
  cbn [join]. destruct ps as [|q ps]; [exact Hp|].
  apply well_formed_app; [exact Hp|]. apply well_formed_app; assumption.
Qed.

Lemma serialize_array (gap indent : jsstring) (x : json) (l : list json) :
  JSON.serialize gap indent (JArr (x :: l))
  = js "[" ++ (if nonempty gap then [10] ++ indent ++ gap else [])
      ++ join (if nonempty gap then js "," ++ [10] ++ indent ++ gap else js ",")
           (map (JSON.serialize gap (indent ++ gap)) (x :: l))
      ++ (if nonempty gap then [10] ++ indent else []) ++ js "]".
Proof. reflexivity. Qed.

Lemma serialize_object (gap indent : jsstring) (kv : jsstring * json)
    (kvs : list (jsstring * json)) :
  JSON.serialize gap indent (JObj (kv :: kvs))
  = js "{" ++ (if nonempty gap then [10] ++ indent ++ gap else [])
      ++ join (if nonempty gap then js "," ++ [10] ++ indent ++ gap else js ",")
           (map (fun kv =>
                   JSON.quote (fst kv) ++ js ":"
                     ++ (if nonempty gap then js " " else [])
                     ++ JSON.serialize gap (indent ++ gap) (snd kv)) (kv :: kvs))
      ++ (if nonempty gap then [10] ++ indent else []) ++ js "}".
Proof. reflexivity. Qed.

Lemma plain_cons (c : N) (s : jsstring) : c < 0xD800 -> plain s -> plain (c :: s).
Proof. intros; constructor; assumption. Qed.

Create HintDb plain.
#[local] Hint Resolve plain_js plain_app plain_cons plain_number_to_string : plain.
#[local] Hint Extern 1 (plain (if ?b then _ else _)) => destruct b : plain.
#[local] Hint Extern 1 (plain []) => constructor : plain.
#[local] Hint Extern 1 (_ < _) => lia : plain.

(** The output of [JSON.stringify] is well formed. *)
Lemma serialize_well_formed (gap : jsstring) (v : json) :
  plain gap -> json_valid v = true ->
  forall indent, plain indent -> well_formed (JSON.serialize gap indent v).
Proof.
  intros Hgap. induction v as [|b|m e|s|l IH|kvs IH] using json_ind_nested;
    intros Hv indent Hind.
  - apply plain_well_formed, plain_js.
  - destruct b; apply plain_well_formed, plain_js.
  - apply plain_well_formed, plain_number_to_string.
  - apply quote_well_formed. exact Hv.
  - destruct l as [|x l]; [apply plain_well_formed, plain_js|].
    rewrite serialize_array.
    apply well_formed_plain_app; [apply plain_js|].
    apply well_formed_plain_app; [auto with plain|].
    apply well_formed_app;
      [|apply plain_well_formed; auto with plain].
    apply join_well_formed; [apply plain_well_formed; auto with plain|].
    apply Forall_map. cbn [json_valid] in Hv.
    pose proof (proj1 (forallb_forall _ _) Hv) as Hall.
    rewrite Forall_forall in IH |- *.
    intros y Hy. apply IH; [exact Hy | | auto with plain].
    apply Hall. apply list_elem_of_In. exact Hy.
  - destruct kvs as [|kv kvs]; [apply plain_well_formed, plain_js|].
    rewrite serialize_object.
    apply well_formed_plain_app; [apply plain_js|].
    apply well_formed_plain_app; [auto with plain|].
    apply well_formed_app;
      [|apply plain_well_formed; auto with plain].
    apply join_well_formed; [apply plain_well_formed; auto with plain|].
    apply Forall_map. cbn [json_valid] in Hv.
    pose proof (proj1 (forallb_forall _ _) Hv) as Hall.
    rewrite Forall_forall in IH |- *.
    intros y Hy. apply list_elem_of_In in Hy as Hy'. specialize (Hall y Hy').
    apply andb_true_iff in Hall as [Hk Hx].
    apply well_formed_app; [apply quote_well_formed; exact Hk|].
    apply well_formed_plain_app; [apply plain_js|].
    apply well_formed_plain_app; [auto with plain|].
    apply IH; [exact Hy | exact Hx | auto with plain].
Qed.

(** For a value of JavaScript the content is always encoded. *)
Lemma encode_content_stringify (logs : json) :
  json_valid logs = true ->
  exists enc, encode_content (JSON.stringify_indent 2 logs) = Ok enc.
Proof.
  intros Hv. apply encode_content_well_formed.
  unfold JSON.stringify_indent.
  apply serialize_well_formed; [apply plain_repeat; lia | exact Hv | constructor].
Qed.

(** ** What a run leaves behind *)

Lemma alerts_snoc (t : list event) (e : event) :
  alerts (t ++ [e]) = alerts t ++ alerts [e].
Proof. unfold alerts. apply flat_map_app. Qed.

Lemma writes_snoc (t : list event) (e : event) :
  writes (t ++ [e]) = writes t ++ writes [e].
Proof. unfold writes. apply flat_map_app. Qed.

Lemma put_error_succeeded (o : outcome) :
  put_error o = None <-> succeeded o = true.
Proof.
  destruct o as [|r]; simpl; [split; discriminate|].
  destruct (ok r); split; (reflexivity || discriminate).
Qed.

(** The effect of [saveLogsToLocal]: it never throws, it returns whether
    the store took the write, and it issues that one write. *)
Lemma saveLogsToLocal_effect (logs : json) (w : World) :
  exists w',
    saveLogsToLocal logs w
      = (Ok (localStorage.accepts LOGS_KEY (JSON.stringify logs) w), w')
    /\ storage w' = stored LOGS_KEY (JSON.stringify logs) w
    /\ config w' = config w /\ net w' = net w /\ quota w' = quota w
    /\ alerts (trace w') = alerts (trace w)
    /\ writes (trace w') = writes (trace w) ++ [(LOGS_KEY, JSON.stringify logs)].
Proof.
  rewrite saveLogsToLocal_run. cbv zeta. unfold stored.
  destruct (localStorage.accepts LOGS_KEY (JSON.stringify logs) w);
    eexists; (split; [reflexivity|]); cbn [storage config net quota trace
      emit with_storage]; repeat split;
    rewrite ?alerts_snoc, ?writes_snoc; cbn [alerts writes flat_map];
    rewrite ?app_nil_r; reflexivity.
Qed.

Lemma save_failed_effect (logs : json) (e : error) (w : World) :
  exists w',
    save_failed logs e w = (Ok false, w')
    /\ storage w' = stored LOGS_KEY (JSON.stringify logs) w
    /\ config w' = config w /\ net w' = net w /\ quota w' = quota w
    /\ alerts (trace w')
       = alerts (trace w) ++ [alert_prefix ++ message e ++ alert_suffix]
    /\ writes (trace w') = writes (trace w) ++ [(LOGS_KEY, JSON.stringify logs)].
Proof.
  unfold save_failed. run. unfold bind.
  match goal with
  | |- context [saveLogsToLocal logs ?w0] =>
      destruct (saveLogsToLocal_effect logs w0)
        as (w' & -> & Hs & Hc & Hn & Hq & Ha & Hw)
  end.
  exists w'. split; [reflexivity|].
  cbn [trace emit] in Ha, Hw. rewrite !alerts_snoc in Ha. rewrite !writes_snoc in Hw.
  cbn [alerts writes flat_map] in Ha, Hw. rewrite ?app_nil_r in Ha, Hw.
  repeat split; assumption.
Qed.

(** The write request is addressed as the read request is. *)
Lemma put_request_get_request (c : json) (timestamp encodedContent : jsstring)
    (sha : jsval) :
  put_request c timestamp encodedContent sha
  = result_bind (get_request c) (fun g =>
      Ok (mkRequest (js "PUT") (url g) (headers g)
            (Some (JSON.stringify
                     (requestBody timestamp encodedContent
                        (field c (js "branch")) sha))))).
Proof.
  unfold put_request, get_request, result_bind.
  destruct (api_url c); [|reflexivity]. destruct (api_headers c); reflexivity.
Qed.

(** The effect of the inner [try] of [saveLogs]: it never throws, it
    consumes one outcome when the read request can be built and none
    when it cannot, and it touches neither the store nor the alert
    box. *)
Lemma fetch_sha_effect (w : World) :
  is_configured w = true ->
  exists sha w1,
    fetch_sha w = (Ok sha, w1)
    /\ storage w1 = storage w /\ config w1 = config w
    /\ net w1 = match get_request (config w) with
                | Ok _ => tl (net w)
                | Throw _ => net w
                end
    /\ quota w1 = quota w /\ clock w1 = clock w
    /\ alerts (trace w1) = alerts (trace w)
    /\ writes (trace w1) = writes (trace w).
Proof.
  intros H. rewrite (fetch_sha_run w H).
  destruct (get_request (config w)) as [req|e0]; cbv zeta;
    [destruct (sha_result (hd Rejected (net w))) as [sha|e]|];
    eexists _, _; (split; [reflexivity|]);
    cbn [storage config net quota clock trace emit with_net];
    rewrite ?alerts_snoc, ?writes_snoc; cbn [alerts writes flat_map];
    rewrite ?app_nil_r; repeat split; reflexivity.
Qed.

Ltac trace_eq :=
  cbn [storage config net quota clock trace emit with_net with_storage
       with_config snd fst];
  rewrite ?alerts_snoc, ?writes_snoc; cbn [alerts writes flat_map];
  rewrite ?app_nil_r; try reflexivity.

(** Every run of [saveLogs] in a configured state: it returns a boolean,
    it writes the collection to the local cache once, it alerts once
    exactly when it returns [false], and, when the requests can be
    built, what it returns is decided by the outcome of the write
    request. *)
Lemma saveLogs_configured_effect (logs : json) (w : World) :
  is_configured w = true ->
  exists b w',
    saveLogs logs w = (Ok b, w')
    /\ storage w' = stored LOGS_KEY (JSON.stringify logs) w
    /\ config w' = config w
    /\ writes (trace w') = writes (trace w) ++ [(LOGS_KEY, JSON.stringify logs)]
    /\ (if b then alerts (trace w') = alerts (trace w)
        else exists e, alerts (trace w')
                       = alerts (trace w) ++ [alert_prefix ++ message e ++ alert_suffix])
    /\ (succeeded (put_outcome w) = false -> b = false)
    /\ (json_valid logs = true ->
        (exists req, get_request (config w) = Ok req) ->
        succeeded (put_outcome w) = true -> b = true).
Proof.
  intros H. rewrite (saveLogs_configured logs w H).
  destruct (fetch_sha_effect w H)
    as (sha & w1 & -> & Hs1 & Hc1 & Hn1 & Hq1 & Hk1 & Ha1 & Hw1).
  assert (Hst : forall w0, storage w0 = storage w1 -> quota w0 = quota w1 ->
                stored LOGS_KEY (JSON.stringify logs) w0
                = stored LOGS_KEY (JSON.stringify logs) w).
  { intros w0 E1 E2. unfold stored, localStorage.accepts.
    rewrite E1, E2, Hs1, Hq1. reflexivity. }
  assert (Hfail : forall e w0,
             storage w0 = storage w1 -> quota w0 = quota w1 ->
             config w0 = config w1 ->
             alerts (trace w0) = alerts (trace w1) ->
             writes (trace w0) = writes (trace w1) ->
             exists w', save_failed logs e w0 = (Ok false, w')
               /\ storage w' = stored LOGS_KEY (JSON.stringify logs) w
               /\ config w' = config w
               /\ writes (trace w')
                  = writes (trace w) ++ [(LOGS_KEY, JSON.stringify logs)]
               /\ exists e, alerts (trace w')
                   = alerts (trace w) ++ [alert_prefix ++ message e ++ alert_suffix]).
  { intros e w0 E1 E2 E3 E4 E5.
    destruct (save_failed_effect logs e w0)
      as (w' & -> & Hs & Hc & _ & _ & Ha & Hw).
    exists w'. split; [reflexivity|].
    rewrite Hs, Hc, Hw, Ha, E3, E4, E5, Hc1, Ha1, Hw1, (Hst w0 E1 E2).
    repeat split. exists e. reflexivity. }
  destruct (encode_content (JSON.stringify_indent 2 logs)) as [enc|e1] eqn:Henc.
  2:{ destruct (Hfail e1 w1) as (w' & -> & Hs & Hc & Hw & Ha); try reflexivity.
      exists false, w'. repeat split; try assumption.
      intros Hv _ _. destruct (encode_content_stringify logs Hv) as [enc Henc'].
      congruence. }
  rewrite put_request_get_request.
  destruct (get_request (config w)) as [g|eg]; cbn [result_bind].
  2:{ destruct (Hfail eg w1) as (w' & -> & Hs & Hc & Hw & Ha); try reflexivity.
      exists false, w'. repeat split; try assumption.
      intros _ [req Hreq]. discriminate. }
  cbv zeta. unfold put_outcome. rewrite <- Hn1.
  destruct (put_error (hd Rejected (net w1))) as [e|] eqn:Hput.
  - match goal with
    | |- context [save_failed logs e ?w0] =>
        destruct (Hfail e w0) as (w' & -> & Hs & Hc & Hw & Ha); try trace_eq
    end.
    exists false, w'. repeat split; try assumption.
    intros _ _ Hok. apply put_error_succeeded in Hok. congruence.
  - match goal with
    | |- context [saveLogsToLocal logs ?w0] =>
        destruct (saveLogsToLocal_effect logs w0)
          as (w' & -> & Hs & Hc & _ & _ & Ha & Hw);
        pose proof (Hst w0 eq_refl eq_refl) as Hst0
    end.
    exists true. eexists. split; [reflexivity|].
    cbn [storage config trace emit snd]. rewrite alerts_snoc, writes_snoc.
    cbn [alerts writes flat_map]. rewrite !app_nil_r.
    rewrite Hs, Hc, Ha, Hw, Hst0. cbn [config trace emit with_net].
    rewrite alerts_snoc, writes_snoc. cbn [alerts writes flat_map].
    rewrite !app_nil_r, Hc1, Ha1, Hw1.
    repeat split.
    intros Hno. apply put_error_succeeded in Hput. congruence.
Qed.

Lemma saveLogs_unconfigured (logs : json) (w : World) :
  is_configured w = false ->
  saveLogs logs w
  = saveLogsToLocal logs (emit (Console LWarn msg_warn_local_only None) w).
Proof.
  intros H. destruct (not_configured_value w H) as (c & Hc & Ht).
  unfold saveLogs. unfold bind at 1. rewrite isConfigured_run, Hc, Ht.
  reflexivity.
Qed.

(** Whatever the state and the remote end, [saveLogs] returns a boolean
    and leaves the store as the one write of the collection makes it. *)
Lemma saveLogs_effect (logs : json) (w : World) :
  exists b w',
    saveLogs logs w = (Ok b, w')
    /\ storage w' = stored LOGS_KEY (JSON.stringify logs) w
    /\ writes (trace w') = writes (trace w) ++ [(LOGS_KEY, JSON.stringify logs)].
Proof.
  destruct (is_configured w) eqn:H.
  - destruct (saveLogs_configured_effect logs w H)
      as (b & w' & Hr & Hs & _ & Hw & _).
    exists b, w'. auto.
  - rewrite (saveLogs_unconfigured logs w H).
    match goal with
    | |- context [saveLogsToLocal logs ?w0] =>
        destruct (saveLogsToLocal_effect logs w0)
          as (w' & -> & Hs & _ & _ & _ & _ & Hw)
    end.
    eexists _, w'. split; [reflexivity|]. split; [exact Hs|].
    rewrite Hw. trace_eq.
Qed.

Lemma stored_accepted (key value : jsstring) (w : World) :
  localStorage.accepts key value w = true ->
  stored key value w !! key = Some value.
Proof. intros H. unfold stored. rewrite H. apply lookup_insert_eq. Qed.

Lemma stored_rejected (key value : jsstring) (w : World) :
  localStorage.accepts key value w = false -> stored key value w = storage w.
Proof. intros H. unfold stored. rewrite H. reflexivity. Qed.

(** C2 (amended). Whatever the state and the remote end (unconfigured,
    write accepted, any failure), [saveLogs(X)] returns, and when
    [localStorage] takes the write the key [updateLogs] then holds
    [JSON.stringify(X)]. *)
Theorem saveLogs_local_cache (logs : json) (w : World) :
  localStorage.accepts LOGS_KEY (JSON.stringify logs) w = true ->
  exists b w',
    saveLogs logs w = (Ok b, w')
    /\ storage w' !! LOGS_KEY = Some (JSON.stringify logs).
Proof.
  intros Hacc. destruct (saveLogs_effect logs w) as (b & w' & Hr & Hs & _).
  exists b, w'. split; [exact Hr|]. rewrite Hs. apply stored_accepted, Hacc.
Qed.

Lemma saveLogs_local_cache_witness :
  let w := sample_world sample_config ∅ 5000
             [Responded (mkResponse 404 (js "{}"));
              Responded (mkResponse 500 (js "{}"))] in
  localStorage.accepts LOGS_KEY (JSON.stringify sample_logs) w = true
  /\ exists b w',
       saveLogs sample_logs w = (Ok b, w')
       /\ storage w' !! LOGS_KEY = Some (JSON.stringify sample_logs).
Proof.
  intros w. split; [vm_compute; reflexivity|].
  apply saveLogs_local_cache. vm_compute. reflexivity.
Defined.

(** When [localStorage] refuses the write, [saveLogs] still returns and
    the store is as it was. *)
Lemma saveLogs_store_full (logs : json) (w : World) :
  localStorage.accepts LOGS_KEY (JSON.stringify logs) w = false ->
  exists b w', saveLogs logs w = (Ok b, w') /\ storage w' = storage w.
Proof.
  intros Hacc. destruct (saveLogs_effect logs w) as (b & w' & Hr & Hs & _).
  exists b, w'. split; [exact Hr|]. rewrite Hs. apply stored_rejected, Hacc.
Qed.

(** C2 as stated fails when the store is full: the write request is
    accepted, [saveLogs] returns [true], and the key [updateLogs] does
    not hold the collection. *)
Lemma saveLogs_local_cache_counterexample :
  let w := sample_world sample_config ∅ 8
             [Responded (mkResponse 404 (js "{}"));
              Responded (mkResponse 201 (js "{}"))] in
  localStorage.accepts LOGS_KEY (JSON.stringify sample_logs) w = false
  /\ fst (saveLogs sample_logs w) = Ok true
  /\ storage (snd (saveLogs sample_logs w)) !! LOGS_KEY = None
  /\ storage (snd (saveLogs sample_logs w)) !! LOGS_KEY
     <> Some (JSON.stringify sample_logs).
Proof.
  intros w.
  assert (H : storage (snd (saveLogs sample_logs w)) !! LOGS_KEY = None)
    by (vm_compute; reflexivity).
  split; [vm_compute; reflexivity|].
  split; [vm_compute; reflexivity|]. split; [exact H|].
  rewrite H. discriminate.
Qed.

(** C5 (amended). In a configured state, when the write request is
    rejected or answered with a status that is not a success,
    [saveLogs(X)] returns [false], raises exactly one alert and issues
    exactly one write of [JSON.stringify(X)] to the key [updateLogs];
    the key holds it afterwards when [localStorage] takes the write. *)
Theorem saveLogs_remote_failure (logs : json) (w : World) :
  is_configured w = true ->
  succeeded (put_outcome w) = false ->
  exists e w',
    saveLogs logs w = (Ok false, w')
    /\ alerts (trace w')
       = alerts (trace w) ++ [alert_prefix ++ message e ++ alert_suffix]
    /\ writes (trace w') = writes (trace w) ++ [(LOGS_KEY, JSON.stringify logs)]
    /\ storage w' = stored LOGS_KEY (JSON.stringify logs) w
    /\ (localStorage.accepts LOGS_KEY (JSON.stringify logs) w = true ->
        storage w' !! LOGS_KEY = Some (JSON.stringify logs)).
Proof.
  intros H Hput.
  destruct (saveLogs_configured_effect logs w H)
    as (b & w' & Hr & Hs & _ & Hw & Ha & Hf & _).
  rewrite (Hf Hput) in Hr, Ha. destruct Ha as [e Ha].
  exists e, w'. repeat split; try assumption.
  intros Hacc. rewrite Hs. apply stored_accepted, Hacc.
Qed.

Lemma saveLogs_remote_failure_witness :
  let w := sample_world sample_config ∅ 5000
             [Responded (mkResponse 200 (js "{}"));
              Responded (mkResponse 409 (js "{}"))] in
  is_configured w = true /\ succeeded (put_outcome w) = false
  /\ exists e w',
       saveLogs sample_logs w = (Ok false, w')
       /\ alerts (trace w')
          = alerts (trace w) ++ [alert_prefix ++ message e ++ alert_suffix]
       /\ writes (trace w')
          = writes (trace w) ++ [(LOGS_KEY, JSON.stringify sample_logs)]
       /\ storage w' = stored LOGS_KEY (JSON.stringify sample_logs) w
       /\ (localStorage.accepts LOGS_KEY (JSON.stringify sample_logs) w = true ->
           storage w' !! LOGS_KEY = Some (JSON.stringify sample_logs)).
Proof.
  intros w. split; [reflexivity|]. split; [reflexivity|].
  apply saveLogs_remote_failure; reflexivity.
Defined.

(** C5 as stated fails twice.  With a full store the write request
    fails, [saveLogs] returns [false] and alerts, and the collection is
    not in the local cache.  And a step after the configured check may
    throw without [saveLogs] returning [false]: when the read request
    for the SHA is rejected and the write request is accepted,
    [saveLogs] returns [true] and raises no alert. *)
Lemma saveLogs_remote_failure_counterexample :
  (let w := sample_world sample_config ∅ 8
              [Responded (mkResponse 404 (js "{}"));
               Responded (mkResponse 500 (js "{}"))] in
   localStorage.accepts LOGS_KEY (JSON.stringify sample_logs) w = false
   /\ fst (saveLogs sample_logs w) = Ok false
   /\ length (alerts (trace (snd (saveLogs sample_logs w)))) = 1%nat
   /\ storage (snd (saveLogs sample_logs w)) !! LOGS_KEY = None)
  /\ (let w := sample_world sample_config ∅ 5000
                 [Rejected; Responded (mkResponse 201 (js "{}"))] in
      fst (saveLogs sample_logs w) = Ok true
      /\ alerts (trace (snd (saveLogs sample_logs w))) = []).
Proof. repeat split; vm_compute; reflexivity. Qed.

(** The [catch] block of [saveLogs], action by action. *)
Lemma save_failed_run (logs : json) (e : error) (w : World) :
  exists w',
    save_failed logs e w = (Ok false, w')
    /\ net w' = net w
    /\ trace w'
       = trace w ++ Console LError msg_save_failed (Some e)
           :: Alert (alert_prefix ++ message e ++ alert_suffix)
           :: SetItem LOGS_KEY (JSON.stringify logs)
           :: (if localStorage.accepts LOGS_KEY (JSON.stringify logs) w
               then []
               else [Console LError msg_quota None]).
Proof.
  unfold save_failed. run. unfold bind. rewrite saveLogsToLocal_run. cbv zeta.
  match goal with
  | |- context [localStorage.accepts LOGS_KEY ?v ?w0] =>
      change (localStorage.accepts LOGS_KEY v w0)
        with (localStorage.accepts LOGS_KEY v w)
  end.
  destruct (localStorage.accepts LOGS_KEY (JSON.stringify logs) w);
    eexists; (split; [reflexivity|]); (split; [reflexivity|]);
    cbn [trace emit with_storage]; rewrite <- !app_assoc; reflexivity.
Qed.

(** [saveLogs] in a configured state whose requests cannot be built:
    the inner [try] absorbs the error of the read request, the outer
    [catch] takes the error of the write request. *)
Lemma saveLogs_unaddressable (logs : json) (w : World) (e : error) :
  is_configured w = true ->
  json_valid logs = true ->
  get_request (config w) = Throw e ->
  saveLogs logs w
  = save_failed logs e (emit (Console LLog msg_no_file None) w).
Proof.
  intros H Hv Hg. rewrite (saveLogs_configured logs w H), (fetch_sha_run w H), Hg.
  destruct (encode_content_stringify logs Hv) as [enc ->].
  rewrite put_request_get_request. cbn [config clock emit]. rewrite Hg.
  reflexivity.
Qed.

(** C10. In a configured state, when the write request is answered with
    a success status, [saveLogs(X)] returns [true] and raises no alert,
    whether or not [localStorage] takes the write that follows; when it
    refuses it, the store is as it was.  [X] is a value of JavaScript:
    its strings are made of 16-bit code units.  The write request is
    sent whenever [username], [repo] and [token] convert to strings, as
    the strings of the configuration schema do.  When one of them does
    not, the conversion throws before anything is sent: there is no
    remote PUT to succeed, whatever the remote end would answer, and
    [saveLogs] takes its failure path. *)
Theorem saveLogs_remote_success (logs : json) (w : World) :
  is_configured w = true ->
  json_valid logs = true ->
  succeeded (put_outcome w) = true ->
  match get_request (config w) with
  | Ok _ =>
      exists w',
        saveLogs logs w = (Ok true, w')
        /\ alerts (trace w') = alerts (trace w)
        /\ writes (trace w')
           = writes (trace w) ++ [(LOGS_KEY, JSON.stringify logs)]
        /\ (localStorage.accepts LOGS_KEY (JSON.stringify logs) w = false ->
            storage w' = storage w)
  | Throw e =>
      exists w',
        saveLogs logs w = (Ok false, w')
        /\ net w' = net w
        /\ trace w'
           = trace w ++ Console LLog msg_no_file None
               :: Console LError msg_save_failed (Some e)
               :: Alert (alert_prefix ++ message e ++ alert_suffix)
               :: SetItem LOGS_KEY (JSON.stringify logs)
               :: (if localStorage.accepts LOGS_KEY (JSON.stringify logs) w
                   then []
                   else [Console LError msg_quota None])
  end.
Proof.
  intros H Hv Hput.
  destruct (get_request (config w)) as [g|e] eqn:Hg.
  - destruct (saveLogs_configured_effect logs w H)
      as (b & w' & Hr & Hs & _ & Hw & Ha & _ & Ht).
    rewrite (Ht Hv (ex_intro _ g Hg) Hput) in Hr, Ha.
    exists w'. repeat split; try assumption.
    intros Hacc. rewrite Hs. apply stored_rejected, Hacc.
  - rewrite (saveLogs_unaddressable logs w H Hv Hg).
    match goal with
    | |- context [save_failed logs e ?w0] =>
        destruct (save_failed_run logs e w0) as (w' & -> & Hn & Ht)
    end.
    exists w'. split; [reflexivity|]. split; [exact Hn|].
    rewrite Ht. cbn [trace emit]. rewrite <- app_assoc. reflexivity.
Qed.

Lemma saveLogs_remote_success_witness :
  let w := sample_world sample_config ∅ 8
             [Responded (mkResponse 404 (js "{}"));
              Responded (mkResponse 201 (js "{}"))] in
  is_configured w = true /\ json_valid sample_logs = true
  /\ succeeded (put_outcome w) = true
  /\ localStorage.accepts LOGS_KEY (JSON.stringify sample_logs) w = false
  /\ exists w',
       saveLogs sample_logs w = (Ok true, w')
       /\ alerts (trace w') = alerts (trace w)
       /\ writes (trace w')
          = writes (trace w) ++ [(LOGS_KEY, JSON.stringify sample_logs)]
       /\ (localStorage.accepts LOGS_KEY (JSON.stringify sample_logs) w = false ->
           storage w' = storage w).
Proof.
  intros w. split; [reflexivity|]. split; [reflexivity|].
  split; [reflexivity|]. split; [vm_compute; reflexivity|].
  exact (saveLogs_remote_success sample_logs w eq_refl eq_refl eq_refl).
Defined.

(** With a field that does not convert to a string no request is sent,
    whatever the remote end would answer: [saveLogs] alerts, writes the
    local cache and returns [false]. *)
Example saveLogs_unprintable_username :
  let c := JObj [(js "username", JObj [(js "toString", JNum 1 0)]);
                 (js "repo", JStr (js "update-log"));
                 (js "token", JStr (js "ghp_0123456789"))] in
  let w := sample_world c ∅ 5000
             [Responded (mkResponse 404 (js "{}"));
              Responded (mkResponse 201 (js "{}"))] in
  is_configured w = true
  /\ succeeded (put_outcome w) = true
  /\ get_request (config w) = Throw TypeError
  /\ fst (saveLogs sample_logs w) = Ok false
  /\ net (snd (saveLogs sample_logs w)) = net w
  /\ requests (trace (snd (saveLogs sample_logs w))) = []
  /\ length (alerts (trace (snd (saveLogs sample_logs w)))) = 1%nat.
Proof. repeat split; vm_compute; reflexivity. Qed.

(** ** Reading from the remote end *)

(** Every failure of the remote read falls back to the local cache:
    the result is what [loadLogsFromLocal] makes of the key, and the
    store is not touched. *)
Lemma loadLogs_fallback (w : World) (e : error) :
  is_configured w = true ->
  remote_logs (hd Rejected (net w)) = Throw e ->
  exists w', loadLogs w = (local_logs (storage w !! LOGS_KEY), w')
    /\ storage w' = storage w
    /\ writes (trace w') = writes (trace w).
Proof.
  intros H He. rewrite (loadLogs_configured w H).
  destruct (get_request (config w)) as [req|e0]; cbv zeta;
    rewrite ?He, load_failed_run;
    (eexists; split; [reflexivity|]; split; [reflexivity|]; trace_eq).
Qed.

(** The read path absorbs every failure of the remote end: when the
    local cache is absent, empty or holds valid JSON, [loadLogs] returns
    a collection in every state and for every outcome of the request. *)
Lemma loadLogs_absorbs_remote_failures (w : World) (v : json) :
  local_logs (storage w !! LOGS_KEY) = Ok v ->
  exists logs w', loadLogs w = (Ok logs, w').
Proof.
  intros Hl. destruct (is_configured w) eqn:H.
  - rewrite (loadLogs_configured w H).
    destruct (get_request (config w)) as [req|e0]; cbv zeta.
    + destruct (remote_logs (hd Rejected (net w))) as [[logs|]|e].
      * eexists _, _; reflexivity.
      * eexists _, _; reflexivity.
      * rewrite load_failed_run. cbn [storage emit with_net]. rewrite Hl.
        eexists _, _; reflexivity.
    + rewrite load_failed_run, Hl. eexists _, _; reflexivity.
  - rewrite (loadLogs_unconfigured_run w H), Hl. eexists _, _; reflexivity.
Qed.

(** C4 (the defect). [loadLogs] lets the [SyntaxError] of a malformed
    local cache through: in an unconfigured state, when the key
    [updateLogs] holds a text that is not empty and is not valid JSON,
    [loadLogs()] throws the error of [JSON.parse]. *)
Theorem loadLogs_throws_on_malformed_cache (w : World) (s : jsstring) (e : error) :
  is_configured w = false ->
  storage w !! LOGS_KEY = Some s ->
  nonempty s = true ->
  JSON.parse s = Throw e ->
  exists w', loadLogs w = (Throw e, w').
Proof.
  intros H Hs Hne He. rewrite (loadLogs_unconfigured_run w H), Hs.
  destruct s as [|a s]; [discriminate|]. cbn [local_logs]. rewrite He.
  eexists; reflexivity.
Qed.

Lemma loadLogs_throws_on_malformed_cache_witness :
  let w := sample_world JNull {[LOGS_KEY := js "{"]} 5000 [] in
  is_configured w = false
  /\ storage w !! LOGS_KEY = Some (js "{")
  /\ nonempty (js "{") = true
  /\ JSON.parse (js "{") = Throw SyntaxError
  /\ exists w', loadLogs w = (Throw SyntaxError, w').
Proof.
  intros w. split; [reflexivity|]. split; [vm_compute; reflexivity|].
  split; [reflexivity|]. split; [reflexivity|].
  apply loadLogs_throws_on_malformed_cache with (s := js "{");
    [reflexivity | vm_compute; reflexivity | reflexivity | reflexivity].
Defined.

(** The same defect on the fallback path: in a configured state, when
    the read request is rejected and the local cache is malformed, the
    error of [JSON.parse] escapes the [catch] block. *)
Lemma loadLogs_fallback_throws (w : World) (s : jsstring) (e : error) :
  is_configured w = true ->
  hd Rejected (net w) = Rejected ->
  storage w !! LOGS_KEY = Some s ->
  nonempty s = true ->
  JSON.parse s = Throw e ->
  exists w', loadLogs w = (Throw e, w').
Proof.
  intros H Hn Hs Hne He. rewrite (loadLogs_configured w H), Hn.
  destruct (get_request (config w)) as [req|e0]; cbv zeta;
    cbn [remote_logs]; rewrite load_failed_run;
    cbn [storage emit with_net]; rewrite Hs;
    (destruct s as [|a s]; [discriminate|]); cbn [local_logs]; rewrite He;
    eexists; reflexivity.
Qed.

(** ** Saving, then loading *)

(** C1 (the defect). The collection of one record with a text of two
    CJK characters does not survive the round trip: [saveLogs] sends the
    Base64 of the UTF-8 bytes of the JSON text, [loadLogs] parses the
    decoded bytes without decoding UTF-8, and returns a different
    collection, which it also writes into the local cache. *)
Theorem save_then_load_garbles_non_ascii :
  let w := sample_world sample_config ∅ 5000
             [Responded (mkResponse 404 (js "{}"));
              Responded (mkResponse 201 (js "{}"))] in
  fst (saveLogs sample_logs w) = Ok true
  /\ written_content (trace (snd (saveLogs sample_logs w)))
     = Some (JStr (js "WwogIHsKICAgICJ0ZXh0IjogIuaXpeW/lyIKICB9Cl0="))
  /\ save_then_load sample_logs w = Some (Ok garbled_logs)
  /\ garbled_logs <> sample_logs.
Proof.
  intros w. split; [vm_compute; reflexivity|].
  split; [vm_compute; reflexivity|].
  split; [vm_compute; reflexivity|]. discriminate.
Qed.

(** A collection of ASCII text does survive it. *)
Example save_then_load_ascii :
  let logs := JArr [JObj [(js "text", JStr (js "fix: typo (#12)"));
                          (js "version", JNum 12 (-1));
                          (js "tags", JArr [JStr (js "a"); JBool true; JNull])]] in
  save_then_load logs
    (sample_world sample_config ∅ 5000
       [Responded (mkResponse 404 (js "{}"));
        Responded (mkResponse 201 (js "{}"))])
  = Some (Ok logs).
Proof. vm_compute. reflexivity. Qed.

(** ** JSON.parse never runs out of fuel *)

Lemma skip_ws_length (s : jsstring) : (length (JSON.skip_ws s) <= length s)%nat.
Proof.
  induction s as [|c s IH]; [reflexivity|].
  cbn [JSON.skip_ws]. destruct (JSON.is_ws c); simpl; lia.
Qed.

Lemma span_digits_length (s ds r : jsstring) :
  JSON.span_digits s = (ds, r) -> length s = (length ds + length r)%nat.
Proof.
  revert ds r. induction s as [|c s IH]; intros ds r H; cbn [JSON.span_digits] in H.
  - injection H as <- <-. reflexivity.
  - destruct (is_digit c).
    + destruct (JSON.span_digits s) as [ds' r'] eqn:E. injection H as <- <-.
      simpl. rewrite (IH _ _ eq_refl). reflexivity.
    + injection H as <- <-. reflexivity.
Qed.

Lemma parse_chars_length (s cs r : jsstring) :
  JSON.parse_chars s = Some (cs, r) -> (length r < length s)%nat.
Proof.
  remember (length s) as n eqn:Hn. revert s cs r Hn.
  induction n as [n IH] using lt_wf_ind. intros s cs r Hn H.
  destruct s as [|c s]; [discriminate|]. cbn [JSON.parse_chars] in H.
  assert (IHs : forall t cs' r', (length t <= length s)%nat ->
            JSON.parse_chars t = Some (cs', r') -> (length r' < length (c :: s))%nat).
  { intros t cs' r' Ht E.
    assert (Hlt : (length t < n)%nat) by (subst n; simpl; lia).
    pose proof (IH (length t) Hlt t cs' r' eq_refl E). simpl. lia. }
  subst n. clear IH.
  destruct (c =? 34); [injection H as <- <-; simpl; lia|].
  destruct (c =? 92).
  - destruct s as [|e s']; [discriminate|].
    destruct (e =? 117).
    + destruct s' as [|h1 [|h2 [|h3 [|h4 t]]]]; try discriminate.
      destruct (hex4 h1 h2 h3 h4); [|discriminate].
      destruct (JSON.parse_chars t) as [[cs' r']|] eqn:E; [|discriminate].
      injection H as <- <-. apply (IHs t cs' r'); [simpl; lia | exact E].
    + destruct (JSON.simple_escape e); [|discriminate].
      destruct (JSON.parse_chars s') as [[cs' r']|] eqn:E; [|discriminate].
      injection H as <- <-. apply (IHs s' cs' r'); [simpl; lia | exact E].
  - destruct (c <? 32); [discriminate|].
    destruct (JSON.parse_chars s) as [[cs' r']|] eqn:E; [|discriminate].
    injection H as <- <-. apply (IHs s cs' r'); [lia | exact E].
Qed.

Lemma expect_length (lit : jsstring) (v v' : json) (s r : jsstring) :
  JSON.expect lit v s = JSON.POk v' r -> (length r <= length s)%nat.
Proof.
  revert s. induction lit as [|c lit IH]; intros s H; cbn [JSON.expect] in H.
  - injection H as _ <-. reflexivity.
  - destruct s as [|d s]; [discriminate|].
    destruct (c =? d); [|discriminate]. apply IH in H. simpl. lia.
Qed.

Lemma expect_fuel (lit : jsstring) (v : json) (s : jsstring) :
  JSON.expect lit v s <> JSON.PFuel.
Proof.
  revert s. induction lit as [|c lit IH]; intros s; cbn [JSON.expect].
  - discriminate.
  - destruct s as [|d s]; [discriminate|].
    destruct (c =? d); [apply IH | discriminate].
Qed.

Lemma parse_number_length (s : jsstring) (v : json) (r : jsstring) :
  JSON.parse_number s = Some (v, r) -> (length r < length s)%nat.
Proof.
  unfold JSON.parse_number. intros H.
  repeat case_match; simplify_eq;
    repeat match goal with
           | E : JSON.span_digits _ = _ |- _ =>
               apply span_digits_length in E
           end;
    simpl in *; lia.
Qed.

(** With fuel for twice the length of the input, [parse_value] comes to
    a value or a syntax error, and a value consumes input. *)
Lemma parse_fuel_enough (fuel : nat) :
  (forall s, (2 * length s + 1 <= fuel)%nat ->
     JSON.parse_value fuel s <> JSON.PFuel
     /\ forall v r, JSON.parse_value fuel s = JSON.POk v r ->
          (length r < length s)%nat)
  /\ (forall acc s, (2 * length s + 2 <= fuel)%nat ->
     JSON.parse_elements fuel acc s <> JSON.PFuel
     /\ forall v r, JSON.parse_elements fuel acc s = JSON.POk v r ->
          (length r < length s)%nat)
  /\ (forall acc s, (2 * length s + 2 <= fuel)%nat ->
     JSON.parse_members fuel acc s <> JSON.PFuel
     /\ forall v r, JSON.parse_members fuel acc s = JSON.POk v r ->
          (length r < length s)%nat).
Proof.
  induction fuel as [|f (IHv & IHe & IHm)].
  { repeat split; intros; lia. }
  split; [|split].
  - intros s Hf. cbn [JSON.parse_value].
    pose proof (skip_ws_length s) as Hws.
    destruct (JSON.skip_ws s) as [|c r] eqn:Es; [split; [discriminate | discriminate]|].
    cbn [length] in Hws.
    destruct (c =? 91).
    { pose proof (skip_ws_length r) as Hr.
      destruct (JSON.skip_ws r) as [|d r'] eqn:Er; [split; discriminate|].
      cbn [length] in Hr.
      destruct (d =? 93).
      - split; [discriminate|]. intros v r0 H. injection H as _ <-. lia.
      - destruct (IHe [] (d :: r')) as [Hne Hlen]; [cbn [length]; lia|].
        split; [exact Hne|]. intros v r0 H. apply Hlen in H. cbn [length] in H. lia. }
    destruct (c =? 123).
    { pose proof (skip_ws_length r) as Hr.
      destruct (JSON.skip_ws r) as [|d r'] eqn:Er; [split; discriminate|].
      cbn [length] in Hr.
      destruct (d =? 125).
      - split; [discriminate|]. intros v r0 H. injection H as _ <-. lia.
      - destruct (IHm [] (d :: r')) as [Hne Hlen]; [cbn [length]; lia|].
        split; [exact Hne|]. intros v r0 H. apply Hlen in H. cbn [length] in H. lia. }
    destruct (c =? 34).
    { destruct (JSON.parse_chars r) as [[cs rest]|] eqn:Ec; [|split; discriminate].
      apply parse_chars_length in Ec.
      split; [discriminate|]. intros v r0 H. injection H as _ <-. lia. }
    destruct (c =? 116).
    { split; [apply expect_fuel|]. intros v r0 H. apply expect_length in H. lia. }
    destruct (c =? 102).
    { split; [apply expect_fuel|]. intros v r0 H. apply expect_length in H. lia. }
    destruct (c =? 110).
    { split; [apply expect_fuel|]. intros v r0 H. apply expect_length in H. lia. }
    destruct (JSON.parse_number (c :: r)) as [[v0 rest]|] eqn:En; [|split; discriminate].
    apply parse_number_length in En. cbn [length] in En.
    split; [discriminate|]. intros v r0 H. injection H as _ <-. lia.
  - intros acc s Hf. cbn [JSON.parse_elements].
    destruct (IHv s) as [Hne Hlen]; [lia|].
    destruct (JSON.parse_value f s) as [v r| |] eqn:Ev;
      [|split; discriminate|congruence].
    specialize (Hlen v r eq_refl).
    pose proof (skip_ws_length r) as Hr.
    destruct (JSON.skip_ws r) as [|c r'] eqn:Er; [split; discriminate|].
    cbn [length] in Hr.
    destruct (c =? 44).
    { destruct (IHe (acc ++ [v]) r') as [Hne' Hlen']; [lia|].
      split; [exact Hne'|]. intros v0 r0 H. apply Hlen' in H. lia. }
    destruct (c =? 93); [|split; discriminate].
    split; [discriminate|]. intros v0 r0 H. injection H as _ <-. lia.
  - intros acc s Hf. cbn [JSON.parse_members].
    pose proof (skip_ws_length s) as Hws.
    destruct (JSON.skip_ws s) as [|c r] eqn:Es; [split; discriminate|].
    cbn [length] in Hws.
    destruct (c =? 34); [|split; discriminate].
    destruct (JSON.parse_chars r) as [[k r1]|] eqn:Ec; [|split; discriminate].
    apply parse_chars_length in Ec.
    pose proof (skip_ws_length r1) as Hr1.
    destruct (JSON.skip_ws r1) as [|d r2] eqn:Er1; [split; discriminate|].
    cbn [length] in Hr1.
    destruct (d =? 58); [|split; discriminate].
    destruct (IHv r2) as [Hne Hlen]; [lia|].
    destruct (JSON.parse_value f r2) as [v r3| |] eqn:Ev;
      [|split; discriminate|congruence].
    specialize (Hlen v r3 eq_refl).
    pose proof (skip_ws_length r3) as Hr3.
    destruct (JSON.skip_ws r3) as [|x r4] eqn:Er3; [split; discriminate|].
    cbn [length] in Hr3.
    destruct (x =? 44).
    { destruct (IHm (JSON.obj_set k v acc) r4) as [Hne' Hlen']; [lia|].
      split; [exact Hne'|]. intros v0 r0 H. apply Hlen' in H. lia. }
    destruct (x =? 125); [|split; discriminate].
    split; [discriminate|]. intros v0 r0 H. injection H as _ <-. lia.
Qed.

(** [JSON.parse] is total: the fuel it starts with is never used up. *)
Lemma parse_value_fuel_enough (s : jsstring) :
  JSON.parse_value (JSON.parse_fuel s) s <> JSON.PFuel.
Proof.
  apply (parse_fuel_enough (JSON.parse_fuel s)). unfold JSON.parse_fuel. lia.
Qed.

(** * Further properties of the adapter *)

(** ** The configuration accessors *)

(** An object with an own property [toString] does not convert to a
    string. *)
Lemma to_string_own_toString (kvs : list (jsstring * json)) :
  assoc (js "toString") kvs <> None -> to_string (JObj kvs) = Throw TypeError.
Proof.
  intros H. cbn [to_string].
  destruct (assoc (js "toString") kvs); [reflexivity | congruence].
Qed.

(** X1. [getApiUrl()] has no effect.  It throws
    [Error('GitHub not configured')] in an unconfigured state.  In a
    configured state it converts [username] and [repo] to strings and
    returns the Contents API URL of [data/logs.json] in the repository:
    the plain concatenation when the two fields are strings; and it
    throws a [TypeError] when [username] is an object with an own
    property [toString], which does not convert to a string. *)
Theorem getApiUrl_spec (w : World) :
  getApiUrl w
  = ((if is_configured w then
        result_bind (to_string_val (field (config w) (js "username")))
          (fun username =>
        result_bind (to_string_val (field (config w) (js "repo")))
          (fun repo =>
        Ok (js "https://api.github.com/repos/" ++ username ++ js "/" ++ repo
              ++ js "/contents/data/logs.json")))
      else Throw (Error msg_not_configured)), w)
  /\ (forall u r : jsstring,
        is_configured w = true ->
        field (config w) (js "username") = Some (JStr u) ->
        field (config w) (js "repo") = Some (JStr r) ->
        fst (getApiUrl w)
        = Ok (js "https://api.github.com/repos/" ++ u ++ js "/" ++ r
                ++ js "/contents/data/logs.json"))
  /\ (forall kvs,
        is_configured w = true ->
        field (config w) (js "username") = Some (JObj kvs) ->
        assoc (js "toString") kvs <> None ->
        fst (getApiUrl w) = Throw TypeError).
Proof.
  split; [|split].
  - destruct (is_configured w) eqn:H; [exact (getApiUrl_run w H)|].
    destruct (not_configured_value w H) as (v & Hv & Ht).
    unfold getApiUrl, isConfigured. run. rewrite Hv, Ht. reflexivity.
  - intros u r H Hu Hr. rewrite (getApiUrl_run w H). unfold api_url.
    rewrite Hu, Hr. reflexivity.
  - intros kvs H Hu Hk. rewrite (getApiUrl_run w H). unfold api_url.
    rewrite Hu. cbn [to_string_val].
    rewrite (to_string_own_toString kvs Hk). reflexivity.
Qed.

Example getApiUrl_sample :
  fst (getApiUrl (sample_world sample_config ∅ 0 []))
  = Ok (js "https://api.github.com/repos/alice/update-log/contents/data/logs.json").
Proof. reflexivity. Qed.

(** X2. [getHeaders()] has no effect.  It throws
    [Error('GitHub not configured')] in an unconfigured state.  In a
    configured state it converts [token] to a string and returns the
    three headers, the first of which carries the token, as it is when
    it is a string; and it throws a [TypeError] when [token] is an
    object with an own property [toString]. *)
Theorem getHeaders_spec (w : World) :
  getHeaders w
  = ((if is_configured w then
        result_bind (to_string_val (field (config w) (js "token")))
          (fun token =>
        Ok [(js "Authorization", js "token " ++ token);
            (js "Accept", js "application/vnd.github.v3+json");
            (js "Content-Type", js "application/json")])
      else Throw (Error msg_not_configured)), w)
  /\ (forall t : jsstring,
        is_configured w = true ->
        field (config w) (js "token") = Some (JStr t) ->
        fst (getHeaders w)
        = Ok [(js "Authorization", js "token " ++ t);
              (js "Accept", js "application/vnd.github.v3+json");
              (js "Content-Type", js "application/json")])
  /\ (forall kvs,
        is_configured w = true ->
        field (config w) (js "token") = Some (JObj kvs) ->
        assoc (js "toString") kvs <> None ->
        fst (getHeaders w) = Throw TypeError).
Proof.
  split; [|split].
  - destruct (is_configured w) eqn:H; [exact (getHeaders_run w H)|].
    destruct (not_configured_value w H) as (v & Hv & Ht).
    unfold getHeaders, isConfigured. run. rewrite Hv, Ht. reflexivity.
  - intros t H Ht. rewrite (getHeaders_run w H). unfold api_headers.
    rewrite Ht. reflexivity.
  - intros kvs H Ht Hk. rewrite (getHeaders_run w H). unfold api_headers.
    rewrite Ht. cbn [to_string_val].
    rewrite (to_string_own_toString kvs Hk). reflexivity.
Qed.

Example getHeaders_sample :
  fst (getHeaders (sample_world sample_config ∅ 0 []))
  = Ok [(js "Authorization", js "token ghp_0123456789");
        (js "Accept", js "application/vnd.github.v3+json");
        (js "Content-Type", js "application/json")].
Proof. reflexivity. Qed.

Example getApiUrl_unprintable_username :
  fst (getApiUrl
         (sample_world
            (JObj [(js "username", JObj [(js "toString", JNum 1 0)]);
                   (js "repo", JStr (js "update-log"));
                   (js "token", JStr (js "ghp_0123456789"))]) ∅ 0 []))
  = Throw TypeError.
Proof. reflexivity. Qed.

(** X3. [getConfigInfo()] has no effect and returns [null] in an
    unconfigured state.  In a configured state [username] and [repo]
    are there and truthy; when both convert to strings it returns an
    object with exactly the properties [username], [repo], [branch] and
    [repoUrl]: the first two are the fields of the configuration,
    [branch] is the configured branch or ['main'], [repoUrl] is built
    from the strings of the two fields, and there is no [token].  When
    one of the two does not convert, building [repoUrl] throws the
    [TypeError] of the conversion. *)
Theorem getConfigInfo_spec (w : World) :
  if is_configured w then
    exists u r,
      field (config w) (js "username") = Some u
      /\ field (config w) (js "repo") = Some r
      /\ truthy (Some u) = true /\ truthy (Some r) = true
      /\ getConfigInfo w
         = (result_bind (to_string u) (fun username =>
            result_bind (to_string r) (fun repo =>
            Ok (Some [(js "username", Some u);
                      (js "repo", Some r);
                      (js "branch",
                       js_or (field (config w) (js "branch"))
                         (Some (JStr (js "main"))));
                      (js "repoUrl",
                       Some (JStr (js "https://github.com/" ++ username
                                     ++ js "/" ++ repo)))]))), w)
  else getConfigInfo w = (Ok None, w).
Proof.
  destruct (is_configured w) eqn:H.
  - destruct (is_configured_value w H) as (v & Hv & Ht).
    destruct (is_configured_inv w H) as (kvs & Hc & Hu & Hr & _).
    rewrite Hc. cbn [field].
    destruct (assoc (js "username") kvs) as [u|] eqn:Eu; [|discriminate].
    destruct (assoc (js "repo") kvs) as [r|] eqn:Er; [|discriminate].
    exists u, r. repeat split; try assumption.
    unfold getConfigInfo, isConfigured. run. rewrite Hv, Ht.
    cbv beta iota delta [negb]. rewrite Hc. cbn [get_prop].
    rewrite Eu, Er. cbn [to_string_val]. unfold result_bind.
    destruct (to_string u); [|reflexivity].
    destruct (to_string r); reflexivity.
  - destruct (not_configured_value w H) as (v & Hv & Ht).
    unfold getConfigInfo, isConfigured. run. rewrite Hv, Ht. reflexivity.
Qed.

Example getConfigInfo_sample :
  fst (getConfigInfo (sample_world sample_config ∅ 0 []))
  = Ok (Some [(js "username", Some (JStr (js "alice")));
              (js "repo", Some (JStr (js "update-log")));
              (js "branch", Some (JStr (js "main")));
              (js "repoUrl",
               Some (JStr (js "https://github.com/alice/update-log")))]).
Proof. reflexivity. Qed.

Example getConfigInfo_unprintable_repo :
  fst (getConfigInfo
         (sample_world
            (JObj [(js "username", JStr (js "alice"));
                   (js "repo", JArr [JObj [(js "toString", JNull)]]);
                   (js "token", JStr (js "ghp_0123456789"))]) ∅ 0 []))
  = Throw TypeError.
Proof. reflexivity. Qed.

(** ** Loading the configuration *)

Lemma parse_nonempty (s : jsstring) (v : json) :
  JSON.parse s = Ok v -> nonempty s = true.
Proof. destruct s; [rewrite parse_empty; discriminate | reflexivity]. Qed.

(** X4. [loadConfig()] never throws and does not write to the store.  It
    returns [true] exactly when the key [github_config] holds a text
    that [JSON.parse] accepts, and then [this.config] is the parsed
    value; when it returns [false], [this.config] is what it was. *)
Theorem loadConfig_spec (w : World) :
  exists b w',
    loadConfig w = (Ok b, w')
    /\ storage w' = storage w
    /\ writes (trace w') = writes (trace w)
    /\ (b = true <->
        exists s c, storage w !! CONFIG_KEY = Some s /\ JSON.parse s = Ok c)
    /\ (forall s c, storage w !! CONFIG_KEY = Some s -> JSON.parse s = Ok c ->
        config w' = c)
    /\ (b = false -> config w' = config w).
Proof.
  unfold loadConfig. run.
  destruct (storage w !! CONFIG_KEY) as [s|] eqn:Hs.
  - destruct s as [|a s].
    + cbn [truthy_str nonempty]. eexists _, _. split; [reflexivity|].
      split; [reflexivity|]. split; [trace_eq|]. split; [|split].
      * split; [discriminate|]. intros (s' & c & E & Hp).
        injection E as <-. rewrite parse_empty in Hp. discriminate.
      * intros s' c E Hp. injection E as <-. rewrite parse_empty in Hp.
        discriminate.
      * reflexivity.
    + cbn [truthy_str nonempty].
      destruct (JSON.parse (a :: s)) as [c|e] eqn:Hp.
      * eexists _, _. split; [reflexivity|]. split; [reflexivity|].
        split; [trace_eq|]. split; [|split].
        -- split; [intros _; eauto | reflexivity].
        -- intros s' c' E Hp'. injection E as <-. cbn [config with_config].
           congruence.
        -- discriminate.
      * eexists _, _. split; [reflexivity|]. split; [reflexivity|].
        split; [trace_eq|]. split; [|split].
        -- split; [discriminate|]. intros (s' & c & E & Hp').
           injection E as <-. congruence.
        -- intros s' c' E Hp'. injection E as <-. congruence.
        -- reflexivity.
  - eexists _, _. split; [reflexivity|]. split; [reflexivity|].
    split; [trace_eq|]. split; [|split].
    + split; [discriminate|]. intros (s' & c & E & _). discriminate.
    + intros s' c E. discriminate.
    + reflexivity.
Qed.

(** X5. Constructing the adapter never throws and does not write to the
    store: afterwards [this.config] is the value [JSON.parse] gives for
    the text under [github_config], and [null] when the key is absent
    or its text is rejected, whatever [this.config] was before. *)
Theorem constructor_spec (w : World) :
  exists w',
    constructor w = (Ok tt, w')
    /\ storage w' = storage w
    /\ net w' = net w
    /\ config w'
       = match storage w !! CONFIG_KEY with
         | Some s =>
             match JSON.parse s with
             | Ok c => c
             | Throw _ => JNull
             end
         | None => JNull
         end.
Proof.
  rewrite constructor_run. cbv zeta.
  destruct (storage w !! CONFIG_KEY) as [[|a s]|].
  - eexists. repeat split.
  - destruct (JSON.parse (a :: s)); eexists; repeat split.
  - eexists. repeat split.
Qed.

(** A configuration written as JSON text makes the adapter configured. *)
Example constructor_sample :
  let w := sample_world JNull
             {[CONFIG_KEY := JSON.stringify sample_config]} 5000 [] in
  config (snd (constructor w)) = sample_config
  /\ is_configured (snd (constructor w)) = true.
Proof. split; vm_compute; reflexivity. Qed.

(** ** The local cache *)

(** X6. [saveLogsToLocal(logs)] never throws.  It issues one write of
    [JSON.stringify(logs)] to the key [updateLogs] and returns whether
    the store took it; when the store refuses, the store is as it was
    and the only other action is the console line about the quota. *)
Theorem saveLogsToLocal_spec (logs : json) (w : World) :
  exists w',
    saveLogsToLocal logs w
      = (Ok (localStorage.accepts LOGS_KEY (JSON.stringify logs) w), w')
    /\ config w' = config w /\ net w' = net w
    /\ storage w'
       = (if localStorage.accepts LOGS_KEY (JSON.stringify logs) w
          then <[LOGS_KEY := JSON.stringify logs]> (storage w)
          else storage w)
    /\ trace w'
       = trace w ++ SetItem LOGS_KEY (JSON.stringify logs) ::
           (if localStorage.accepts LOGS_KEY (JSON.stringify logs) w
            then []
            else [Console LError msg_quota None]).
Proof.
  rewrite saveLogsToLocal_run. cbv zeta.
  destruct (localStorage.accepts LOGS_KEY (JSON.stringify logs) w);
    eexists; (split; [reflexivity|]); repeat split.
  cbn [trace emit]. rewrite <- app_assoc. reflexivity.
Qed.

(** X7. [loadLogsFromLocal()] reads the key [updateLogs] and nothing
    else.  It returns the empty array when the key is absent or holds
    the empty string, and otherwise what [JSON.parse] makes of the text,
    a thrown [SyntaxError] included. *)
Theorem loadLogsFromLocal_spec (w : World) :
  exists r w',
    loadLogsFromLocal w = (r, w')
    /\ storage w' = storage w /\ config w' = config w /\ net w' = net w
    /\ trace w' = trace w ++ [GetItem LOGS_KEY]
    /\ (storage w !! LOGS_KEY = None -> r = Ok (JArr []))
    /\ (storage w !! LOGS_KEY = Some [] -> r = Ok (JArr []))
    /\ (forall s, storage w !! LOGS_KEY = Some s -> nonempty s = true ->
        r = JSON.parse s).
Proof.
  rewrite loadLogsFromLocal_run. eexists _, _. split; [reflexivity|].
  repeat split.
  - intros ->. reflexivity.
  - intros ->. reflexivity.
  - intros s -> Hs. destruct s; [discriminate | reflexivity].
Qed.

(** ** Reading: the remote paths *)

Lemma requests_snoc (t : list event) (e : event) :
  requests (t ++ [e]) = requests t ++ requests [e].
Proof. unfold requests. apply flat_map_app. Qed.

Ltac trace_eq' :=
  cbn [storage config net quota clock trace emit with_net with_storage
       with_config snd fst];
  rewrite ?alerts_snoc, ?writes_snoc, ?requests_snoc;
  cbn [alerts writes requests flat_map];
  rewrite ?app_nil_r, <- ?app_assoc; try reflexivity.

Lemma ok_not_404 (r : response) : ok r = true -> (status r =? 404) = false.
Proof.
  unfold ok. intros H. apply between_true in H. apply N.eqb_neq. lia.
Qed.

(** X8. In a configured state whose read request can be built, when the
    request is answered with a success status and its body decodes to a
    collection ([content] converts to a string that is Base64 of a JSON
    text), [loadLogs()] returns that collection and refreshes the local
    cache: it sends the one request, issues one write of
    [JSON.stringify(logs)] to [updateLogs], which the key then holds
    when the store takes it.  The cache is not read and nothing is
    alerted. *)
Theorem loadLogs_remote_success (w : World) (req : request) (r : response)
    (data : json) (dc : jsval) (encoded content : jsstring) (logs : json) :
  is_configured w = true ->
  get_request (config w) = Ok req ->
  hd Rejected (net w) = Responded r ->
  ok r = true ->
  JSON.parse (text r) = Ok data ->
  get_prop (Some data) (js "content") = Ok dc ->
  to_string_val dc = Ok encoded ->
  atob encoded = Ok content ->
  JSON.parse content = Ok logs ->
  exists w',
    loadLogs w = (Ok logs, w')
    /\ requests (trace w') = requests (trace w) ++ [req]
    /\ reads (trace w') = reads (trace w)
    /\ alerts (trace w') = alerts (trace w)
    /\ writes (trace w') = writes (trace w) ++ [(LOGS_KEY, JSON.stringify logs)]
    /\ storage w' = stored LOGS_KEY (JSON.stringify logs) w
    /\ (localStorage.accepts LOGS_KEY (JSON.stringify logs) w = true ->
        storage w' !! LOGS_KEY = Some (JSON.stringify logs)).
Proof.
  intros H Hg Hn Hok Hd Hc Hs Ha Hl.
  rewrite (loadLogs_configured w H), Hg, Hn. cbv zeta.
  unfold remote_logs. rewrite (ok_not_404 r Hok), Hok.
  cbv beta iota delta [negb]. rewrite Hd. cbn [result_bind].
  rewrite Hc. cbn [result_bind]. rewrite Hs. cbn [result_bind].
  rewrite Ha. cbn [result_bind]. rewrite Hl. cbn [result_bind].
  rewrite saveLogsToLocal_run. cbv zeta.
  change (localStorage.accepts LOGS_KEY (JSON.stringify logs)
            (with_net (tl (net w)) (emit (Fetch req) w)))
    with (localStorage.accepts LOGS_KEY (JSON.stringify logs) w).
  unfold stored, reads.
  destruct (localStorage.accepts LOGS_KEY (JSON.stringify logs) w) eqn:Hacc;
    eexists; (split; [reflexivity|]); cbn [snd trace storage emit with_net
      with_storage]; rewrite ?flat_map_app; cbn [flat_map];
    rewrite ?requests_snoc, ?alerts_snoc, ?writes_snoc;
    cbn [requests alerts writes flat_map]; rewrite ?app_nil_r;
    repeat split; try discriminate.
  intros _. apply lookup_insert_eq.
Qed.

Lemma loadLogs_remote_success_witness :
  let r := mkResponse 200
             (JSON.stringify (JObj [(js "content", JStr (js "WzEsMl0="));
                                    (js "sha", JStr (js "0a1b"))])) in
  let w := sample_world sample_config ∅ 5000 [Responded r] in
  let logs := JArr [JNum 1 0; JNum 2 0] in
  exists req,
  is_configured w = true /\ get_request (config w) = Ok req /\ ok r = true
  /\ atob (js "WzEsMl0=") = Ok (js "[1,2]")
  /\ exists w',
    loadLogs w = (Ok logs, w')
    /\ requests (trace w') = requests (trace w) ++ [req]
    /\ reads (trace w') = reads (trace w)
    /\ alerts (trace w') = alerts (trace w)
    /\ writes (trace w') = writes (trace w) ++ [(LOGS_KEY, JSON.stringify logs)]
    /\ storage w' = stored LOGS_KEY (JSON.stringify logs) w
    /\ (localStorage.accepts LOGS_KEY (JSON.stringify logs) w = true ->
        storage w' !! LOGS_KEY = Some (JSON.stringify logs)).
Proof.
  intros r w logs. eexists.
  split; [reflexivity|]. split; [reflexivity|]. split; [reflexivity|].
  split; [reflexivity|].
  apply loadLogs_remote_success
    with (r := r)
         (data := JObj [(js "content", JStr (js "WzEsMl0="));
                        (js "sha", JStr (js "0a1b"))])
         (dc := Some (JStr (js "WzEsMl0=")))
         (encoded := js "WzEsMl0=")
         (content := js "[1,2]");
    vm_compute; reflexivity.
Defined.

(** X9. In a configured state whose read request can be built, every
    failure of the remote read falls back to the local cache: when the
    request is rejected, or answered with an error status other than
    404, or its body is not JSON, or [content] does not convert to a
    string or is not Base64 of a JSON text, [loadLogs()] logs the error
    and returns what [loadLogsFromLocal()] makes of the key
    [updateLogs]; it writes nothing to the store and alerts nothing. *)
Theorem loadLogs_remote_failure (w : World) (req : request) (e : error) :
  is_configured w = true ->
  get_request (config w) = Ok req ->
  remote_logs (hd Rejected (net w)) = Throw e ->
  exists w',
    loadLogs w = (local_logs (storage w !! LOGS_KEY), w')
    /\ storage w' = storage w
    /\ trace w'
       = trace w ++ [Fetch req;
                     Console LError msg_load_failed (Some e);
                     Console LLog msg_try_local None;
                     GetItem LOGS_KEY].
Proof.
  intros H Hg He. rewrite (loadLogs_configured w H), Hg, He. cbv zeta.
  rewrite load_failed_run.
  eexists. split; [reflexivity|]. split; [reflexivity|].
  cbn [trace emit with_net]. rewrite <- !app_assoc. reflexivity.
Qed.

Lemma loadLogs_remote_failure_witness :
  let w := sample_world sample_config
             {[LOGS_KEY := JSON.stringify sample_logs]} 5000
             [Responded (mkResponse 200 (js "<html>rate limited</html>"))] in
  exists req,
  is_configured w = true
  /\ get_request (config w) = Ok req
  /\ remote_logs (hd Rejected (net w)) = Throw SyntaxError
  /\ exists w',
       loadLogs w = (local_logs (storage w !! LOGS_KEY), w')
       /\ storage w' = storage w
       /\ trace w'
          = trace w ++ [Fetch req;
                        Console LError msg_load_failed (Some SyntaxError);
                        Console LLog msg_try_local None;
                        GetItem LOGS_KEY].
Proof.
  intros w. eexists. split; [reflexivity|]. split; [reflexivity|].
  split; [vm_compute; reflexivity|].
  apply loadLogs_remote_failure;
    [reflexivity | reflexivity | vm_compute; reflexivity].
Defined.

(** A [content] that is an object with an own property [toString] does
    not convert to a string: the error logged is a [TypeError]. *)
Example loadLogs_unprintable_content :
  let body := JSON.stringify
                (JObj [(js "content", JObj [(js "toString", JNum 1 0)])]) in
  let w := sample_world sample_config ∅ 5000
             [Responded (mkResponse 200 body)] in
  remote_logs (hd Rejected (net w)) = Throw TypeError
  /\ fst (loadLogs w) = Ok (JArr []).
Proof. split; vm_compute; reflexivity. Qed.

(** X10. An error status other than 404 is reported with its number: in
    a configured state whose read request can be built, when the
    request is answered with such a status, the error [loadLogs()] logs
    is [Error('GitHub API error: ' + status)], and the result is the
    local cache fallback. *)
Theorem loadLogs_error_status (w : World) (req : request) (r : response) :
  is_configured w = true ->
  get_request (config w) = Ok req ->
  hd Rejected (net w) = Responded r ->
  status r <> 404 ->
  ok r = false ->
  exists w',
    loadLogs w = (local_logs (storage w !! LOGS_KEY), w')
    /\ storage w' = storage w
    /\ trace w'
       = trace w ++ [Fetch req;
                     Console LError msg_load_failed
                       (Some (Error (msg_api_error_colon ++ dec_of_N (status r))));
                     Console LLog msg_try_local None;
                     GetItem LOGS_KEY].
Proof.
  intros H Hg Hn H404 Hok. rewrite (loadLogs_configured w H), Hg, Hn. cbv zeta.
  unfold remote_logs. apply N.eqb_neq in H404. rewrite H404, Hok.
  cbv beta iota delta [negb]. rewrite load_failed_run.
  eexists. split; [reflexivity|]. split; [reflexivity|].
  cbn [trace emit with_net]. rewrite <- !app_assoc. reflexivity.
Qed.

Lemma loadLogs_error_status_witness :
  let r := mkResponse 503 (js "Service Unavailable") in
  let w := sample_world sample_config ∅ 5000 [Responded r] in
  exists req,
  is_configured w = true /\ get_request (config w) = Ok req
  /\ hd Rejected (net w) = Responded r
  /\ status r <> 404 /\ ok r = false
  /\ dec_of_N (status r) = js "503"
  /\ exists w',
       loadLogs w = (local_logs (storage w !! LOGS_KEY), w')
       /\ storage w' = storage w
       /\ trace w'
          = trace w ++ [Fetch req;
                        Console LError msg_load_failed
                          (Some (Error (msg_api_error_colon ++ dec_of_N (status r))));
                        Console LLog msg_try_local None;
                        GetItem LOGS_KEY].
Proof.
  intros r w. eexists. split; [reflexivity|]. split; [reflexivity|].
  split; [reflexivity|].
  split; [discriminate|]. split; [reflexivity|]. split; [reflexivity|].
  apply loadLogs_error_status;
    [reflexivity | reflexivity | reflexivity | discriminate | reflexivity].
Defined.

(** X11. Whatever the state and the remote end, [loadLogs()] never
    alerts, never changes [this.config], and sends at most one request:
    the read request, in a configured state in which it can be built,
    and then it consumes one outcome of the remote end; no request
    otherwise, and then it consumes none. *)
Theorem loadLogs_frame (w : World) :
  exists r w',
    loadLogs w = (r, w')
    /\ alerts (trace w') = alerts (trace w)
    /\ config w' = config w
    /\ match (if is_configured w then get_request (config w)
              else Throw (Error msg_not_configured)) with
       | Ok req =>
           requests (trace w') = requests (trace w) ++ [req]
           /\ net w' = tl (net w)
       | Throw _ =>
           requests (trace w') = requests (trace w)
           /\ net w' = net w
       end.
Proof.
  destruct (is_configured w) eqn:H.
  - rewrite (loadLogs_configured w H).
    destruct (get_request (config w)) as [req|e0]; cbv zeta.
    + destruct (remote_logs (hd Rejected (net w))) as [[logs|]|e].
      * rewrite saveLogsToLocal_run. cbv zeta.
        match goal with
        | |- context [if ?b then _ else _] => destruct b
        end; eexists _, _; (split; [reflexivity|]); trace_eq'; repeat split.
      * eexists _, _; (split; [reflexivity|]); trace_eq'; repeat split.
      * rewrite load_failed_run.
        eexists _, _; (split; [reflexivity|]); trace_eq'; repeat split.
    + rewrite load_failed_run.
      eexists _, _; (split; [reflexivity|]); trace_eq'; repeat split.
  - rewrite (loadLogs_unconfigured_run w H).
    eexists _, _; (split; [reflexivity|]); trace_eq'; repeat split.
Qed.

(** ** Writing: the requests *)

(** X13. In an unconfigured state [saveLogs(X)] is a local write: it
    sends no request and alerts nothing, warns on the console, issues
    the one write of [JSON.stringify(X)] to [updateLogs], and returns
    whether the store took it. *)
Theorem saveLogs_unconfigured_spec (logs : json) (w : World) :
  is_configured w = false ->
  exists w',
    saveLogs logs w
      = (Ok (localStorage.accepts LOGS_KEY (JSON.stringify logs) w), w')
    /\ net w' = net w
    /\ storage w' = stored LOGS_KEY (JSON.stringify logs) w
    /\ trace w'
       = trace w ++ Console LWarn msg_warn_local_only None
           :: SetItem LOGS_KEY (JSON.stringify logs)
           :: (if localStorage.accepts LOGS_KEY (JSON.stringify logs) w
               then []
               else [Console LError msg_quota None]).
Proof.
  intros H. rewrite (saveLogs_unconfigured logs w H), saveLogsToLocal_run.
  cbv zeta.
  change (localStorage.accepts LOGS_KEY (JSON.stringify logs)
            (emit (Console LWarn msg_warn_local_only None) w))
    with (localStorage.accepts LOGS_KEY (JSON.stringify logs) w).
  unfold stored.
  destruct (localStorage.accepts LOGS_KEY (JSON.stringify logs) w);
    eexists; (split; [reflexivity|]); repeat split;
    cbn [trace emit with_storage]; rewrite <- ?app_assoc; reflexivity.
Qed.

Lemma saveLogs_unconfigured_spec_witness :
  let w := sample_world JNull ∅ 5000 [Responded (mkResponse 200 (js "{}"))] in
  is_configured w = false
  /\ localStorage.accepts LOGS_KEY (JSON.stringify sample_logs) w = true
  /\ exists w',
       saveLogs sample_logs w
         = (Ok (localStorage.accepts LOGS_KEY (JSON.stringify sample_logs) w), w')
       /\ net w' = net w
       /\ storage w' = stored LOGS_KEY (JSON.stringify sample_logs) w
       /\ trace w'
          = trace w ++ Console LWarn msg_warn_local_only None
              :: SetItem LOGS_KEY (JSON.stringify sample_logs)
              :: (if localStorage.accepts LOGS_KEY (JSON.stringify sample_logs) w
                  then []
                  else [Console LError msg_quota None]).
Proof.
  intros w. split; [reflexivity|]. split; [vm_compute; reflexivity|].
  apply saveLogs_unconfigured_spec. reflexivity.
Defined.

(** ** Base64 and UTF-8: what is sent and what is read back *)

Lemma in_all_bytes (a : N) : a < 256 -> In a all_bytes.
Proof.
  intros Ha. unfold all_bytes. apply in_map_iff. exists (N.to_nat a).
  split; [apply N2Nat.id|]. apply in_seq. lia.
Qed.

Lemma check_bytes (p : N -> bool) :
  forallb p all_bytes = true -> forall a, a < 256 -> p a = true.
Proof.
  intros H a Ha. exact (proj1 (forallb_forall p all_bytes) H a (in_all_bytes Ha)).
Qed.

Lemma check_bytes2 (p : N -> N -> bool) :
  forallb (fun a => forallb (p a) all_bytes) all_bytes = true ->
  forall a b, a < 256 -> b < 256 -> p a b = true.
Proof.
  intros H a b Ha Hb.
  pose proof (check_bytes (fun a => forallb (p a) all_bytes) H Ha) as H'.
  exact (check_bytes (p a) H' Hb).
Qed.

(** The bit identities of the Base64 decoding of an encoding. *)
Lemma b64_byte1 (a b : N) : a < 256 -> b < 256 ->
  N.lor (N.shiftl (N.shiftr a 2) 2)
        (N.shiftr (N.lor (N.shiftl (N.land a 3) 4) (N.shiftr b 4)) 4) = a.
Proof.
  intros Ha Hb. apply N.eqb_eq.
  refine (check_bytes2
            (fun a b => N.lor (N.shiftl (N.shiftr a 2) 2)
               (N.shiftr (N.lor (N.shiftl (N.land a 3) 4) (N.shiftr b 4)) 4) =? a)
            _ Ha Hb).
  vm_compute. reflexivity.
Qed.

Lemma b64_byte2 (a b c : N) : a < 256 -> b < 256 -> c < 256 ->
  N.lor (N.shiftl (N.land (N.lor (N.shiftl (N.land a 3) 4) (N.shiftr b 4)) 15) 4)
        (N.shiftr (N.lor (N.shiftl (N.land b 15) 2) (N.shiftr c 6)) 2) = b.
Proof.
  intros Ha Hb Hc.
  assert (E1 : N.land (N.lor (N.shiftl (N.land a 3) 4) (N.shiftr b 4)) 15
               = N.shiftr b 4).
  { apply N.eqb_eq.
    refine (check_bytes2
              (fun a b => N.land (N.lor (N.shiftl (N.land a 3) 4) (N.shiftr b 4)) 15
                          =? N.shiftr b 4) _ Ha Hb).
    vm_compute. reflexivity. }
  assert (E2 : N.shiftr (N.lor (N.shiftl (N.land b 15) 2) (N.shiftr c 6)) 2
               = N.land b 15).
  { apply N.eqb_eq.
    refine (check_bytes2
              (fun b c => N.shiftr (N.lor (N.shiftl (N.land b 15) 2) (N.shiftr c 6)) 2
                          =? N.land b 15) _ Hb Hc).
    vm_compute. reflexivity. }
  rewrite E1, E2. apply N.eqb_eq.
  refine (check_bytes
            (fun b => N.lor (N.shiftl (N.shiftr b 4) 4) (N.land b 15) =? b) _ Hb).
  vm_compute. reflexivity.
Qed.

Lemma b64_byte3 (b c : N) : b < 256 -> c < 256 ->
  N.lor (N.shiftl (N.land (N.lor (N.shiftl (N.land b 15) 2) (N.shiftr c 6)) 3) 6)
        (N.land c 63) = c.
Proof.
  intros Hb Hc. apply N.eqb_eq.
  refine (check_bytes2
            (fun b c => N.lor (N.shiftl (N.land (N.lor (N.shiftl (N.land b 15) 2)
                                                   (N.shiftr c 6)) 3) 6)
                          (N.land c 63) =? c) _ Hb Hc).
  vm_compute. reflexivity.
Qed.

Lemma b64_tail1 (a : N) : a < 256 ->
  N.lor (N.shiftl (N.shiftr a 2) 2) (N.shiftr (N.shiftl (N.land a 3) 4) 4) = a.
Proof.
  intros Ha. apply N.eqb_eq.
  refine (check_bytes
            (fun a => N.lor (N.shiftl (N.shiftr a 2) 2)
                        (N.shiftr (N.shiftl (N.land a 3) 4) 4) =? a) _ Ha).
  vm_compute. reflexivity.
Qed.

Lemma b64_tail2 (a b : N) : a < 256 -> b < 256 ->
  N.lor (N.shiftl (N.land (N.lor (N.shiftl (N.land a 3) 4) (N.shiftr b 4)) 15) 4)
        (N.shiftr (N.shiftl (N.land b 15) 2) 2) = b.
Proof.
  intros Ha Hb. apply N.eqb_eq.
  refine (check_bytes2
            (fun a b => N.lor (N.shiftl (N.land (N.lor (N.shiftl (N.land a 3) 4)
                                                  (N.shiftr b 4)) 15) 4)
                          (N.shiftr (N.shiftl (N.land b 15) 2) 2) =? b) _ Ha Hb).
  vm_compute. reflexivity.
Qed.

Lemma b64_decode_sextets (bs : list N) :
  bytes bs -> b64_decode (sextets bs) = bs.
Proof.
  induction bs as [|a|a b|a b c r IH] using list_ind3; intros Hb.
  - reflexivity.
  - inversion_clear Hb as [|? ? Ha _]. cbn [sextets b64_decode].
    rewrite (b64_tail1 Ha). reflexivity.
  - inversion_clear Hb as [|? ? Ha Hb']. inversion_clear Hb' as [|? ? Hb _].
    cbn [sextets b64_decode].
    rewrite (b64_byte1 Ha Hb), (b64_tail2 Ha Hb). reflexivity.
  - inversion_clear Hb as [|? ? Ha Hb']. inversion_clear Hb' as [|? ? Hb Hc'].
    inversion_clear Hc' as [|? ? Hc Hr].
    cbn [sextets b64_decode].
    rewrite (b64_byte1 Ha Hb), (b64_byte2 Ha Hb Hc), (b64_byte3 Hb Hc), (IH Hr).
    reflexivity.
Qed.

Lemma b64_encode_sextets (bs : list N) :
  b64_encode bs = map b64_char (sextets bs) ++ padding bs.
Proof.
  induction bs as [|a|a b|a b c r IH] using list_ind3; try reflexivity.
  cbn [b64_encode sextets padding map app]. rewrite IH. reflexivity.
Qed.

Lemma b64_char_range (v : N) : 43 <= b64_char v /\ b64_char v <> 61.
Proof.
  unfold b64_char.
  destruct (v <? 26) eqn:H1; [lia|]. apply N.ltb_ge in H1.
  destruct (v <? 52) eqn:H2; [lia|]. apply N.ltb_ge in H2.
  destruct (v <? 62) eqn:H3; [apply N.ltb_lt in H3; lia|].
  destruct (v =? 62); lia.
Qed.

Lemma b64_val_char (v : N) : v < 64 -> b64_val (b64_char v) = Some v.
Proof.
  intros Hv. unfold b64_val, b64_char, is_upper, is_lower, is_digit.
  destruct (v <? 26) eqn:H1.
  { apply N.ltb_lt in H1.
    replace (between 65 90 (65 + v)) with true
      by (symmetry; apply between_true; lia).
    f_equal. lia. }
  apply N.ltb_ge in H1. destruct (v <? 52) eqn:H2.
  { apply N.ltb_lt in H2.
    replace (between 65 90 (97 + (v - 26))) with false
      by (symmetry; apply between_false; lia).
    replace (between 97 122 (97 + (v - 26))) with true
      by (symmetry; apply between_true; lia).
    f_equal. lia. }
  apply N.ltb_ge in H2. destruct (v <? 62) eqn:H3.
  { apply N.ltb_lt in H3.
    replace (between 65 90 (48 + (v - 52))) with false
      by (symmetry; apply between_false; lia).
    replace (between 97 122 (48 + (v - 52))) with false
      by (symmetry; apply between_false; lia).
    replace (between 48 57 (48 + (v - 52))) with true
      by (symmetry; apply between_true; lia).
    f_equal. lia. }
  apply N.ltb_ge in H3. destruct (v =? 62) eqn:H4.
  { apply N.eqb_eq in H4. subst v. reflexivity. }
  apply N.eqb_neq in H4. assert (v = 63) by lia. subst v. reflexivity.
Qed.

Lemma b64_vals_chars (vs : list N) :
  Forall (fun v => v < 64) vs -> b64_vals (map b64_char vs) = Some vs.
Proof.
  induction 1 as [|v vs Hv Hvs IH]; [reflexivity|].
  cbn [map b64_vals]. rewrite (b64_val_char Hv), IH. reflexivity.
Qed.

Lemma land_below (a k : N) : N.land a (N.ones k) < 2 ^ k.
Proof.
  rewrite N.land_ones. apply N.mod_lt. apply N.pow_nonzero. discriminate.
Qed.

Lemma shiftl_below (a n k : N) : a < k -> N.shiftl a n < k * 2 ^ n.
Proof.
  intros H. rewrite N.shiftl_mul_pow2.
  apply N.mul_lt_mono_pos_r; [|exact H].
  apply N.neq_0_lt_0, N.pow_nonzero. discriminate.
Qed.

Lemma sextets_range (bs : list N) :
  bytes bs -> Forall (fun v => v < 64) (sextets bs).
Proof.
  assert (S1 : forall a, a < 256 -> N.shiftr a 2 < 64)
    by (intros a Ha; apply shiftr_below; exact Ha).
  assert (S2 : forall a b, b < 256 ->
            N.lor (N.shiftl (N.land a 3) 4) (N.shiftr b 4) < 64).
  { intros a b Hb. apply (@lor_below 6).
    - pose proof (@shiftl_below (N.land a 3) 4 4 (land_below a 2)) as L.
      exact L.
    - pose proof (@shiftr_below b 4 16 Hb) as L. change (2 ^ 6) with 64. lia. }
  assert (S3 : forall b c, c < 256 ->
            N.lor (N.shiftl (N.land b 15) 2) (N.shiftr c 6) < 64).
  { intros b c Hc. apply (@lor_below 6).
    - pose proof (@shiftl_below (N.land b 15) 2 16 (land_below b 4)) as L.
      exact L.
    - pose proof (@shiftr_below c 6 4 Hc) as L. change (2 ^ 6) with 64. lia. }
  assert (S4 : forall c, N.land c 63 < 64) by (intros c; apply land_63).
  assert (T1 : forall a, N.shiftl (N.land a 3) 4 < 64)
    by (intros a; exact (@shiftl_below (N.land a 3) 4 4 (land_below a 2))).
  assert (T2 : forall b, N.shiftl (N.land b 15) 2 < 64)
    by (intros b; exact (@shiftl_below (N.land b 15) 2 16 (land_below b 4))).
  induction bs as [|a|a b|a b c r IH] using list_ind3; intros Hb.
  - constructor.
  - inversion_clear Hb as [|? ? Ha _]. cbn [sextets]. repeat constructor; auto.
  - inversion_clear Hb as [|? ? Ha Hb']. inversion_clear Hb' as [|? ? Hb _].
    cbn [sextets]. repeat constructor; auto.
  - inversion_clear Hb as [|? ? Ha Hb']. inversion_clear Hb' as [|? ? Hb Hc'].
    inversion_clear Hc' as [|? ? Hc Hr].
    cbn [sextets]. repeat (constructor; auto).
Qed.

Lemma mod4_step (n : nat) : ((4 + n) mod 4 = n mod 4)%nat.
Proof.
  replace (4 + n)%nat with (n + 1 * 4)%nat by lia. apply Nat.Div0.mod_add.
Qed.

Lemma sextets_length (bs : list N) :
  (length (sextets bs) mod 4 <> 1)%nat
  /\ ((length (sextets bs) + length (padding bs)) mod 4 = 0)%nat.
Proof.
  induction bs as [|a|a b|a b c r [IH1 IH2]] using list_ind3;
    try (split; [discriminate | reflexivity]).
  cbn [sextets padding length].
  change (S (S (S (S (length (sextets r))))))
    with (4 + length (sextets r))%nat.
  rewrite <- Nat.add_assoc, !mod4_step. split; assumption.
Qed.

Lemma padding_cases (bs : list N) :
  padding bs = [] \/ padding bs = [61] \/ padding bs = [61; 61].
Proof.
  induction bs as [|a|a b|a b c r IH] using list_ind3; cbn [padding]; auto.
Qed.

Lemma strip_padding_chars (X p : jsstring) :
  Forall (fun c => c <> 61) X ->
  p = [] \/ p = [61] \/ p = [61; 61] ->
  strip_padding (X ++ p) = X.
Proof.
  intros HX Hp. unfold strip_padding. rewrite rev_app_distr.
  assert (Hrev : Forall (fun c => c <> 61) (rev X)) by (apply Forall_rev, HX).
  assert (HrX : rev (rev X) = X) by apply rev_involutive.
  destruct Hp as [-> | [-> | ->]]; cbn [rev app].
  - rewrite app_nil_r.
    destruct (rev X) as [|a [|b r]] eqn:E; [reflexivity| |];
      inversion_clear Hrev as [|? ? Ha _]; apply N.eqb_neq in Ha;
      rewrite Ha; reflexivity.
  - destruct (rev X) as [|b r] eqn:E.
    + rewrite <- HrX. reflexivity.
    + inversion_clear Hrev as [|? ? Hb _]. apply N.eqb_neq in Hb.
      change (61 =? 61) with true. cbv iota. rewrite Hb. exact HrX.
  - change (61 =? 61) with true. cbv iota. exact HrX.
Qed.

Lemma filter_all {A} (P : A -> Prop) `{forall x, Decision (P x)} (l : list A) :
  Forall P l -> filter P l = l.
Proof.
  induction 1 as [|x l Hx Hl IH]; [reflexivity|].
  rewrite filter_cons_True by exact Hx. rewrite IH. reflexivity.
Qed.

Lemma b64_chars_plain (vs : list N) :
  Forall (fun c => is_ascii_ws c = false) (map b64_char vs)
  /\ Forall (fun c => c <> 61) (map b64_char vs).
Proof.
  split; apply Forall_map, Forall_forall; intros v _;
    destruct (b64_char_range v) as [H1 H2]; [|exact H2].
  unfold is_ascii_ws. rewrite !orb_false_iff, !N.eqb_neq. simpl. lia.
Qed.

(** [atob] undoes the Base64 encoding of [btoa]. *)
Lemma atob_b64_encode (bs : list N) :
  bytes bs -> atob (b64_encode bs) = Ok bs.
Proof.
  intros Hb. rewrite b64_encode_sextets.
  destruct (b64_chars_plain (sextets bs)) as [Hws H61].
  destruct (sextets_length bs) as [Hl1 Hl0].
  unfold atob.
  assert (Hall : Forall (fun c => is_ascii_ws c = false)
                   (map b64_char (sextets bs) ++ padding bs)).
  { apply Forall_app. split; [exact Hws|].
    destruct (padding_cases bs) as [-> | [-> | ->]]; repeat constructor. }
  rewrite (filter_all Hall). cbv zeta.
  rewrite length_app, length_map, Hl0. cbn [Nat.eqb].
  rewrite (strip_padding_chars H61 (padding_cases bs)).
  rewrite length_map.
  destruct (length (sextets bs) mod 4 =? 1)%nat eqn:E;
    [apply Nat.eqb_eq in E; contradiction|].
  rewrite (b64_vals_chars (sextets_range Hb)), (b64_decode_sextets Hb).
  reflexivity.
Qed.

Lemma utf8_ascii (c : N) : c < 128 -> utf8 c = [c].
Proof.
  intros Hc. unfold utf8. apply N.ltb_lt in Hc. rewrite Hc. reflexivity.
Qed.

Lemma utf8_length (c : N) : 128 <= c -> (2 <= length (utf8 c))%nat.
Proof.
  intros Hc. unfold utf8. apply N.ltb_ge in Hc. rewrite Hc.
  destruct (c <? 0x800); [simpl; lia|].
  destruct (c <? 0x10000); simpl; lia.
Qed.

Lemma utf8_length_astral (c : N) : 0x10000 <= c -> length (utf8 c) = 4%nat.
Proof.
  intros Hc. unfold utf8.
  replace (c <? 0x80) with false by (symmetry; apply N.ltb_ge; lia).
  replace (c <? 0x800) with false by (symmetry; apply N.ltb_ge; lia).
  replace (c <? 0x10000) with false by (symmetry; apply N.ltb_ge; lia).
  reflexivity.
Qed.

Lemma utf8_units_unit (c : N) (s : jsstring) :
  is_surrogate c = false -> utf8_units (c :: s) = utf8 c ++ utf8_units s.
Proof.
  intros Hc. destruct (surrogate_split c Hc) as [Hh _].
  cbn [utf8_units]. rewrite Hh. reflexivity.
Qed.

Lemma utf8_units_pair (h l : N) (s : jsstring) :
  is_high_surrogate h = true -> is_low_surrogate l = true ->
  utf8_units (h :: l :: s) = utf8 (code_point h l) ++ utf8_units s.
Proof. intros Hh Hl. cbn [utf8_units]. rewrite Hh, Hl. reflexivity. Qed.

(** [unescape(encodeURIComponent(s))] is the UTF-8 of [s]. *)
Lemma escape_utf8 (s : jsstring) :
  well_formed s ->
  exists e, encodeURIComponent s = Ok e /\ unescape e = utf8_units s.
Proof.
  induction 1 as [|c s Hc Hs Hwf (e & He & Hu)|h l s Hh Hl Hwf (e & He & Hu)].
  - exists []. split; reflexivity.
  - rewrite (@utf8_units_unit c s Hs).
    cbn [encodeURIComponent]. rewrite He. unfold result_bind.
    destruct (surrogate_split c Hs) as [Hhi Hlo]. rewrite Hhi, Hlo.
    destruct (uri_unreserved c) eqn:Hun.
    + destruct (uri_unreserved_ascii c Hun) as [Ha Hn].
      eexists; split; [reflexivity|]. rewrite (unescape_literal _ Hn), Hu.
      rewrite (utf8_ascii Ha). reflexivity.
    + eexists; split; [reflexivity|].
      assert (Hbs : bytes (utf8 c)) by (apply utf8_bytes; lia).
      rewrite (unescape_percent_all _ Hbs), Hu. reflexivity.
  - rewrite (@utf8_units_pair h l s Hh Hl).
    apply between_true in Hh as Hh'. apply between_true in Hl as Hl'.
    cbn [encodeURIComponent]. rewrite He. unfold result_bind.
    replace (uri_unreserved h) with false.
    2:{ symmetry. destruct (uri_unreserved h) eqn:Hun; [|reflexivity].
        apply uri_unreserved_ascii in Hun. lia. }
    replace (is_low_surrogate h) with false
      by (symmetry; apply between_false; lia).
    rewrite Hh, Hl.
    eexists; split; [reflexivity|].
    assert (Hbs : bytes (utf8 (code_point h l)))
      by (apply utf8_bytes; unfold code_point; lia).
    rewrite (unescape_percent_all _ Hbs), Hu. reflexivity.
Qed.

Lemma utf8_units_bytes (s : jsstring) : well_formed s -> bytes (utf8_units s).
Proof.
  induction 1 as [|c s Hc Hs Hwf IH|h l s Hh Hl Hwf IH].
  - constructor.
  - rewrite (@utf8_units_unit c s Hs). apply Forall_app. split; [|exact IH].
    apply utf8_bytes. lia.
  - rewrite (@utf8_units_pair h l s Hh Hl). apply Forall_app. split; [|exact IH].
    apply between_true in Hh, Hl. apply utf8_bytes. unfold code_point. lia.
Qed.

Lemma utf8_units_ascii (s : jsstring) : ascii_only s -> utf8_units s = s.
Proof.
  induction 1 as [|c s Hc Hs IH]; [reflexivity|].
  rewrite utf8_units_unit by (apply between_false; lia).
  rewrite (utf8_ascii Hc), IH. reflexivity.
Qed.

Lemma utf8_units_length (s : jsstring) :
  well_formed s ->
  (length s <= length (utf8_units s))%nat
  /\ (length (utf8_units s) = length s -> ascii_only s).
Proof.
  induction 1 as [|c s Hc Hs Hwf [IH1 IH2]|h l s Hh Hl Hwf [IH1 IH2]].
  - split; [reflexivity | constructor].
  - rewrite (@utf8_units_unit c s Hs), length_app. cbn [length].
    destruct (N.lt_ge_cases c 128) as [Ha|Ha].
    + rewrite (utf8_ascii Ha). cbn [length]. split; [lia|].
      intros E. constructor; [exact Ha | apply IH2; lia].
    + pose proof (utf8_length Ha). split; lia.
  - rewrite (@utf8_units_pair h l s Hh Hl), length_app. cbn [length].
    apply between_true in Hh, Hl.
    assert (Hcp : 0x10000 <= code_point h l) by (unfold code_point; lia).
    rewrite (utf8_length_astral Hcp). split; lia.
Qed.

Lemma ascii_well_formed (s : jsstring) : ascii_only s -> well_formed s.
Proof.
  intros H. apply plain_well_formed. unfold plain.
  eapply Forall_impl; [exact H|]. simpl. intros; lia.
Qed.

(** X14. For a string of well-formed UTF-16,
    [btoa(unescape(encodeURIComponent(s)))] never throws and is the
    Base64 of the UTF-8 bytes of [s]; [atob] of it is the string of
    those bytes, which is [s] itself exactly when [s] is ASCII. *)
Theorem content_encoding_round_trip (s : jsstring) :
  well_formed s ->
  encode_content s = Ok (b64_encode (utf8_units s))
  /\ result_bind (encode_content s) atob = Ok (utf8_units s)
  /\ (utf8_units s = s <-> ascii_only s).
Proof.
  intros Hwf. destruct (escape_utf8 Hwf) as (e & He & Hu).
  pose proof (utf8_units_bytes Hwf) as Hb.
  assert (E : encode_content s = Ok (b64_encode (utf8_units s))).
  { unfold encode_content. rewrite He. cbn [result_bind].
    rewrite Hu. apply btoa_bytes, Hb. }
  split; [exact E|]. split.
  - rewrite E. cbn [result_bind]. apply atob_b64_encode, Hb.
  - split; [|apply utf8_units_ascii].
    intros Heq. apply (utf8_units_length Hwf). rewrite Heq. reflexivity.
Qed.

Lemma content_encoding_round_trip_witness :
  let s := js "caf" ++ [0xE9; 0x20; 0xD83D; 0xDE00] in
  well_formed s
  /\ utf8_units s = js "caf" ++ [0xC3; 0xA9; 0x20; 0xF0; 0x9F; 0x98; 0x80]
  /\ encode_content s = Ok (b64_encode (utf8_units s))
  /\ result_bind (encode_content s) atob = Ok (utf8_units s)
  /\ (utf8_units s = s <-> ascii_only s).
Proof.
  intros s.
  assert (Hwf : well_formed s).
  { unfold s. apply well_formed_plain_app; [apply plain_js|].
    apply wf_unit; [reflexivity | reflexivity|].
    apply wf_unit; [reflexivity | reflexivity|].
    apply wf_pair; [reflexivity | reflexivity | apply wf_nil]. }
  split; [exact Hwf|]. split; [reflexivity|].
  apply content_encoding_round_trip. exact Hwf.
Defined.

Lemma span_digits_cons (ds : jsstring) (c : N) (r : jsstring) :
  digits ds -> is_digit c = false ->
  JSON.span_digits (ds ++ c :: r) = (ds, c :: r).
Proof.
  intros Hd Hc. induction Hd as [|d ds Hd _ IH]; cbn [app JSON.span_digits].
  - rewrite Hc. reflexivity.
  - rewrite Hd, IH. reflexivity.
Qed.

Lemma span_digits_nil (ds : jsstring) :
  digits ds -> JSON.span_digits ds = (ds, []).
Proof.
  intros Hd. induction Hd as [|d ds Hd _ IH]; cbn [JSON.span_digits].
  - reflexivity.
  - rewrite Hd, IH. reflexivity.
Qed.

Lemma span_digits_end (ds rest : jsstring) :
  digits ds -> number_end rest -> JSON.span_digits (ds ++ rest) = (ds, rest).
Proof.
  intros Hd Hr. destruct rest as [|c r].
  - rewrite app_nil_r. apply span_digits_nil, Hd.
  - apply span_digits_cons; [exact Hd | apply Hr].
Qed.

Lemma digits_uint_units (d : Decimal.uint) : digits (uint_units d).
Proof. induction d; cbn [uint_units]; constructor; auto. Qed.

Lemma digits_dec_of_N (n : N) : digits (dec_of_N n).
Proof. apply digits_uint_units. Qed.

Lemma digits_repeat (j : nat) : digits (repeat 48 j).
Proof. induction j; cbn [repeat]; constructor; auto. Qed.

Lemma digits_app (a b : jsstring) : digits a -> digits b -> digits (a ++ b).
Proof. apply Forall_app_2. Qed.

Lemma N_of_digits_acc (d : Decimal.uint) (acc : positive) :
  fold_left (fun a c => 10 * a + (c - 48)) (uint_units d) (N.pos acc)
  = N.pos (Pos.of_uint_acc d acc).
Proof.
  revert acc. induction d; intros acc; cbn [uint_units fold_left Pos.of_uint_acc];
    [reflexivity | rewrite <- IHd; f_equal; lia ..].
Qed.

Lemma N_of_digits_uint (d : Decimal.uint) :
  N_of_digits (uint_units d) = Pos.of_uint d.
Proof.
  unfold N_of_digits.
  induction d; cbn [uint_units fold_left Pos.of_uint];
    [reflexivity | exact IHd | apply N_of_digits_acc ..].
Qed.

Lemma N_of_digits_dec (n : N) : N_of_digits (dec_of_N n) = n.
Proof.
  unfold dec_of_N. rewrite N_of_digits_uint. apply DecimalN.Unsigned.of_to.
Qed.

Lemma N_of_digits_snoc (ds : jsstring) (c : N) :
  N_of_digits (ds ++ [c]) = 10 * N_of_digits ds + (c - 48).
Proof. unfold N_of_digits. rewrite fold_left_app. reflexivity. Qed.

Lemma N_of_digits_zeros (j : nat) (ds : jsstring) :
  N_of_digits (repeat 48 j ++ ds) = N_of_digits ds.
Proof.
  unfold N_of_digits. rewrite fold_left_app. f_equal.
  induction j as [|j IH]; [reflexivity|].
  cbn [repeat fold_left]. exact IH.
Qed.

(** The decimal of a positive number starts with a digit other than 0. *)
Lemma dec_of_N_head (n : N) :
  n <> 0 -> exists c r, dec_of_N n = c :: r /\ (c =? 48) = false.
Proof.
  intros Hn. destruct n as [|p]; [congruence|].
  unfold dec_of_N. cbn [N.to_uint].
  assert (Hu : Decimal.unorm (Pos.to_uint p) = Pos.to_uint p).
  { rewrite <- DecimalPos.Unsigned.to_of, DecimalPos.Unsigned.of_to. reflexivity. }
  pose proof (DecimalPos.Unsigned.to_uint_nonzero p) as Hz.
  pose proof (DecimalPos.Unsigned.to_uint_nonnil p) as Hnil.
  destruct (Pos.to_uint p) as [|u|u|u|u|u|u|u|u|u|u] eqn:E; cbn [uint_units];
    try (eexists _, _; split; [reflexivity | reflexivity]); [congruence|].
  exfalso. unfold Decimal.unorm in Hu. cbn [Decimal.nzhead] in Hu.
  destruct (Decimal.nzhead u) eqn:Eh;
    try (injection Hu as <-; apply Hz; reflexivity);
    try discriminate.
  apply (DecimalFacts.nzhead_nonzero u u). rewrite Eh at 1. exact Hu.
Qed.

Lemma dec_of_N_last (n : N) :
  n mod 10 <> 0 -> exists c r, rev (dec_of_N n) = c :: r /\ (c =? 48) = false.
Proof.
  intros Hn. pose proof (N_of_digits_dec n) as Hv.
  destruct (rev (dec_of_N n)) as [|c r] eqn:E.
  - apply (f_equal (@rev N)) in E. rewrite rev_involutive in E. cbn in E.
    rewrite E in Hv. cbv in Hv. subst n. cbv in Hn. congruence.
  - exists c, r. split; [reflexivity|].
    apply (f_equal (@rev N)) in E. rewrite rev_involutive in E. cbn [rev] in E.
    rewrite E, N_of_digits_snoc in Hv.
    destruct (N.eqb_spec c 48) as [->|]; [|reflexivity].
    exfalso. apply Hn. rewrite <- Hv. change (48 - 48) with 0.
    rewrite N.add_0_r, N.mul_comm. apply N.Div0.mod_mul.
Qed.

Lemma drop_zeros_repeat (j : nat) (ds : jsstring) :
  drop_zeros (repeat 48 j ++ ds)
  = (fst (drop_zeros ds), (j + snd (drop_zeros ds))%nat).
Proof.
  induction j as [|j IH]; cbn [repeat app].
  - destruct (drop_zeros ds); reflexivity.
  - cbn [drop_zeros]. change (48 =? 48) with true. cbv iota. rewrite IH. reflexivity.
Qed.

(** [make_number] of the digits of a canonical mantissa, between
    zeros. *)
Lemma make_number_dec (neg : bool) (a : N) (i j : nat) (e0 : Z) :
  a mod 10 <> 0 ->
  JSON.make_number neg (repeat 48 i ++ dec_of_N a ++ repeat 48 j) e0
  = JNum (if neg then - Z.of_N a else Z.of_N a) (e0 + Z.of_nat j).
Proof.
  intros Ha. unfold JSON.make_number.
  rewrite !rev_app_distr, !rev_repeat, <- app_assoc, drop_zeros_repeat.
  destruct (@dec_of_N_last a Ha) as (c & r & E & Hc).
  rewrite E. cbn [app drop_zeros]. rewrite Hc. cbn [fst snd].
  rewrite Nat.add_0_r.
  change (c :: r ++ repeat 48 i) with ((c :: r) ++ repeat 48 i).
  rewrite <- E, rev_app_distr, rev_repeat, rev_involutive, N_of_digits_zeros,
    N_of_digits_dec.
  assert (Hz : (Z.of_N a =? 0)%Z = false).
  { apply Z.eqb_neq. intros H0. apply Ha.
    assert (a = 0) as -> by lia. reflexivity. }
  rewrite Hz. reflexivity.
Qed.

Lemma number_to_string_canonical (m e : Z) :
  m <> 0%Z -> Z.abs_N m mod 10 <> 0 ->
  number_to_string m e =
    let ds := dec_of_N (Z.abs_N m) in
    let k := Z.of_nat (length ds) in
    let n := (k + e)%Z in
    (if (m <? 0)%Z then js "-" else []) ++
    (if (k <=? n)%Z && (n <=? 21)%Z then
       ds ++ repeat 48 (Z.to_nat (n - k))
     else if (0 <? n)%Z && (n <=? 21)%Z then
       take (Z.to_nat n) ds ++ js "." ++ drop (Z.to_nat n) ds
     else if (-6 <? n)%Z && (n <=? 0)%Z then
       js "0." ++ repeat 48 (Z.to_nat (- n)) ++ ds
     else
       let x := (n - 1)%Z in
       let es := (if (x <? 0)%Z then js "e-" else js "e+")
                   ++ dec_of_N (Z.abs_N x) in
       match ds with
       | [] => []
       | [d] => d :: es
       | d :: r => d :: js "." ++ r ++ es
       end).
Proof.
  intros Hm Ha. unfold number_to_string.
  rewrite (proj2 (Z.eqb_neq m 0) Hm).
  destruct (@dec_of_N_last _ Ha) as (c & r & E & Hc).
  rewrite E. cbn [drop_zeros]. rewrite Hc. rewrite <- E, rev_involutive.
  change (Z.of_nat 0) with 0%Z. rewrite Z.add_0_r. reflexivity.
Qed.

Lemma digit_range (c : N) : is_digit c = true -> 48 <= c <= 57.
Proof.
  unfold is_digit, between. rewrite andb_true_iff, !N.leb_le. tauto.
Qed.

Lemma digit_neq (c x : N) :
  is_digit c = true -> is_digit x = false -> (c =? x) = false.
Proof.
  intros Hc Hx. apply N.eqb_neq. intros ->. congruence.
Qed.

Ltac int_part neg Hd Hz :=
  match type of Hd with
  | digits (?c :: ?ip') =>
      let Hc := fresh "Hc" in
      assert (Hc : is_digit c = true) by (exact (Forall_inv Hd));
      unfold JSON.parse_number;
      destruct neg; cbn [app];
      [ change (45 =? 45) with true | rewrite (@digit_neq c 45 Hc eq_refl) ];
      cbv iota;
      let Ec := fresh "Ec" in
      (destruct Hz as [Ec | Ec];
       [ rewrite Ec
       | subst ip'; destruct (c =? 48) eqn:Ec;
         [ apply N.eqb_eq in Ec; subst c; cbn [app] | ] ])
  end.

Lemma number_end_cons (c : N) (r : jsstring) :
  number_end (c :: r) ->
  is_digit c = false /\ (c =? 46) = false /\ (c =? 101) = false /\ (c =? 69) = false.
Proof.
  intros (Hd & H46 & H101 & H69). rewrite !N.eqb_neq. auto.
Qed.

Lemma parse_number_int (c : N) (ip' rest : jsstring) (neg : bool) :
  digits (c :: ip') -> (c =? 48) = false \/ ip' = [] -> number_end rest ->
  JSON.parse_number ((if neg then [45] else []) ++ (c :: ip') ++ rest)
  = Some (JSON.make_number neg (c :: ip') 0, rest).
Proof.
  intros Hd Hz Hr.
  assert (Hs : JSON.span_digits ((c :: ip') ++ rest) = (c :: ip', rest))
    by (apply span_digits_end; assumption).
  int_part neg Hd Hz.
  all: cbn [app] in Hs |- *; rewrite ?Hs; cbv iota.
  all: destruct rest as [|c0 r]; [cbv iota beta; rewrite ?app_nil_r; reflexivity|].
  all: destruct (number_end_cons Hr) as (_ & E46 & E101 & E69);
    rewrite E46; cbv iota beta; rewrite E101, E69, ?app_nil_r; reflexivity.
Qed.

Lemma parse_number_frac (c : N) (ip' fp rest : jsstring) (neg : bool) :
  digits (c :: ip') -> (c =? 48) = false \/ ip' = [] ->
  digits fp -> fp <> [] -> number_end rest ->
  JSON.parse_number ((if neg then [45] else []) ++ (c :: ip') ++ 46 :: fp ++ rest)
  = Some (JSON.make_number neg ((c :: ip') ++ fp) (- Z.of_nat (length fp)), rest).
Proof.
  intros Hd Hz Hf Hne Hr.
  assert (Hs : JSON.span_digits ((c :: ip') ++ 46 :: fp ++ rest)
               = (c :: ip', 46 :: fp ++ rest))
    by (apply span_digits_cons; [assumption | reflexivity]).
  assert (Hs2 : JSON.span_digits (fp ++ rest) = (fp, rest))
    by (apply span_digits_end; assumption).
  int_part neg Hd Hz.
  all: cbn [app] in Hs |- *; rewrite ?Hs; cbv iota.
  all: change (46 =? 46) with true; cbv iota; rewrite Hs2.
  all: destruct fp as [|f fp']; [congruence|]; cbv iota beta.
  all: destruct rest as [|c0 r]; [reflexivity|].
  all: destruct (number_end_cons Hr) as (_ & E46 & E101 & E69);
    rewrite E101, E69; reflexivity.
Qed.

Lemma parse_number_exp (c : N) (ip' es rest : jsstring) (neg eneg : bool) :
  digits (c :: ip') -> (c =? 48) = false \/ ip' = [] ->
  digits es -> es <> [] -> number_end rest ->
  JSON.parse_number
    ((if neg then [45] else []) ++ (c :: ip') ++ 101 :: (if eneg then 45 else 43) :: es ++ rest)
  = Some (JSON.make_number neg (c :: ip')
            (if eneg then - Z.of_N (N_of_digits es) else Z.of_N (N_of_digits es)),
          rest).
Proof.
  intros Hd Hz He Hne Hr.
  assert (Hs : JSON.span_digits
                 ((c :: ip') ++ 101 :: (if eneg then 45 else 43) :: es ++ rest)
               = (c :: ip', 101 :: (if eneg then 45 else 43) :: es ++ rest))
    by (apply span_digits_cons; [assumption | reflexivity]).
  assert (Hs2 : JSON.span_digits (es ++ rest) = (es, rest))
    by (apply span_digits_end; assumption).
  int_part neg Hd Hz.
  all: cbn [app] in Hs |- *; rewrite ?Hs; cbv iota.
  all: change (101 =? 46) with false; cbv iota beta.
  all: change ((101 =? 101) || (101 =? 69)) with true; cbv iota.
  all: destruct eneg;
    [change (45 =? 45) with true
    |change (43 =? 45) with false; change (43 =? 43) with true];
    cbv iota; rewrite Hs2;
    (destruct es as [|x es']; [congruence|]); cbv iota beta;
    rewrite ?app_nil_r; reflexivity.
Qed.

Lemma parse_number_frac_exp (c : N) (ip' fp es rest : jsstring) (neg eneg : bool) :
  digits (c :: ip') -> (c =? 48) = false \/ ip' = [] ->
  digits fp -> fp <> [] -> digits es -> es <> [] -> number_end rest ->
  JSON.parse_number
    ((if neg then [45] else []) ++ (c :: ip') ++ 46 :: fp ++ 101 :: (if eneg then 45 else 43) :: es ++ rest)
  = Some (JSON.make_number neg ((c :: ip') ++ fp)
            (- Z.of_nat (length fp)
             + (if eneg then - Z.of_N (N_of_digits es) else Z.of_N (N_of_digits es))),
          rest).
Proof.
  intros Hd Hz Hf Hnf He Hne Hr.
  assert (Hs : JSON.span_digits
                 ((c :: ip') ++ 46 :: fp ++ 101 :: (if eneg then 45 else 43) :: es ++ rest)
               = (c :: ip', 46 :: fp ++ 101 :: (if eneg then 45 else 43) :: es ++ rest))
    by (apply span_digits_cons; [assumption | reflexivity]).
  assert (Hs1 : JSON.span_digits
                  (fp ++ 101 :: (if eneg then 45 else 43) :: es ++ rest)
                = (fp, 101 :: (if eneg then 45 else 43) :: es ++ rest))
    by (apply span_digits_cons; [assumption | reflexivity]).
  assert (Hs2 : JSON.span_digits (es ++ rest) = (es, rest))
    by (apply span_digits_end; assumption).
  int_part neg Hd Hz.
  all: cbn [app] in Hs |- *; rewrite ?Hs; cbv iota.
  all: change (46 =? 46) with true; cbv iota; rewrite Hs1.
  all: destruct fp as [|f fp']; [congruence|]; cbv iota beta.
  all: change ((101 =? 101) || (101 =? 69)) with true; cbv iota.
  all: destruct eneg;
    [change (45 =? 45) with true
    |change (43 =? 45) with false; change (43 =? 43) with true];
    cbv iota; rewrite Hs2;
    (destruct es as [|x es']; [congruence|]); cbv iota beta;
    reflexivity.
Qed.

Lemma dec_of_N_nonempty (n : N) : dec_of_N n <> [].
Proof.
  destruct (N.eq_dec n 0) as [->|Hn]; [discriminate|].
  destruct (dec_of_N_head Hn) as (c & r & E & _). rewrite E. discriminate.
Qed.

(** [JSON.parse] reads a number back from what [Number::toString]
    prints. *)
Lemma parse_number_to_string (m e : Z) (rest : jsstring) :
  canonical_number m e = true -> number_end rest ->
  JSON.parse_number (number_to_string m e ++ rest) = Some (JNum m e, rest).
Proof.
  unfold canonical_number. intros Hc Hr.
  destruct (Z.eqb_spec m 0) as [->|Hm].
  { apply Z.eqb_eq in Hc. subst e.
    change (number_to_string 0 0 ++ rest) with ((if false then [45] else []) ++ [48] ++ rest).
    rewrite parse_number_int; [reflexivity | repeat constructor | right; reflexivity | exact Hr]. }
  apply negb_true_iff, N.eqb_neq in Hc.
  rewrite (number_to_string_canonical e Hm Hc). cbv zeta.
  set (a := Z.abs_N m) in *.
  assert (Ha : a <> 0) by (subst a; lia).
  pose proof (digits_dec_of_N a) as HD.
  destruct (dec_of_N_head Ha) as (c & r & ED & Hc0).
  assert (Hmk : forall i j e0,
    JSON.make_number (m <? 0)%Z (repeat 48 i ++ dec_of_N a ++ repeat 48 j) e0
    = JNum m (e0 + Z.of_nat j)).
  { intros i j e0. rewrite (@make_number_dec (m <? 0)%Z a i j e0 Hc). f_equal.
    subst a. destruct (Z.ltb_spec m 0); lia. }
  assert (Hsign : (if (m <? 0)%Z then js "-" else []) = if (m <? 0)%Z then [45] else [])
    by reflexivity.
  rewrite Hsign. clear Hsign.
  set (k := Z.of_nat (length (dec_of_N a))).
  assert (Hk : (1 <= k)%Z) by (subst k; rewrite ED; cbn [length]; lia).
  set (n := (k + e)%Z).
  rewrite <- !app_assoc.
  destruct ((k <=? n)%Z && (n <=? 21)%Z) eqn:EA.
  { (* integer *)
    apply andb_true_iff in EA. destruct EA as [E1 E2].
    apply Z.leb_le in E1.
    rewrite ED.
    change (((c :: r) ++ repeat 48 (Z.to_nat (n - k))) ++ rest)
      with ((c :: r ++ repeat 48 (Z.to_nat (n - k))) ++ rest).
    rewrite parse_number_int; [| |left; exact Hc0|exact Hr].
    - do 2 f_equal.
      change (c :: r ++ repeat 48 (Z.to_nat (n - k)))
        with (repeat 48 0 ++ (c :: r) ++ repeat 48 (Z.to_nat (n - k))).
      rewrite <- ED, Hmk. f_equal. subst n. lia.
    - change (c :: r ++ repeat 48 (Z.to_nat (n - k)))
        with ((c :: r) ++ repeat 48 (Z.to_nat (n - k))).
      rewrite <- ED. apply digits_app; [exact HD | apply digits_repeat]. }
  destruct ((0 <? n)%Z && (n <=? 21)%Z) eqn:EB.
  { (* fraction *)
    apply andb_true_iff in EB. destruct EB as [E1 E2].
    apply Z.ltb_lt in E1. apply Z.leb_le in E2.
    assert (Hnk : (n < k)%Z).
    { apply andb_false_iff in EA. destruct EA as [EA|EA];
        [apply Z.leb_gt in EA; exact EA | apply Z.leb_gt in EA; lia]. }
    destruct (Z.to_nat n) as [|p] eqn:Ep; [lia|].
    assert (Hp : (S p < length (dec_of_N a))%nat) by (subst k; lia).
    rewrite <- !app_assoc.
    assert (Et : take (S p) (dec_of_N a) = c :: take p r)
      by (rewrite ED; reflexivity).
    rewrite Et.
    change (js "." ++ drop (S p) (dec_of_N a) ++ rest)
      with (46 :: drop (S p) (dec_of_N a) ++ rest).
    rewrite parse_number_frac; [| |left; exact Hc0| | |exact Hr].
    - do 2 f_equal. rewrite <- Et, take_drop.
      rewrite <- (app_nil_r (dec_of_N a)) at 1.
      change (dec_of_N a ++ []) with (repeat 48 0 ++ dec_of_N a ++ repeat 48 0).
      rewrite Hmk. f_equal. rewrite length_drop. subst n k. lia.
    - rewrite <- Et. apply Forall_take, HD.
    - apply Forall_drop, HD.
    - intros E0. apply (f_equal (@length N)) in E0.
      rewrite length_drop in E0. cbn [length] in E0. lia. }
  destruct ((-6 <? n)%Z && (n <=? 0)%Z) eqn:EC.
  { (* leading zeros *)
    apply andb_true_iff in EC. destruct EC as [E1 E2].
    apply Z.ltb_lt in E1. apply Z.leb_le in E2.
    rewrite <- !app_assoc.
    change (js "0." ++ repeat 48 (Z.to_nat (- n)) ++ dec_of_N a ++ rest)
      with ([48] ++ 46 :: repeat 48 (Z.to_nat (- n)) ++ dec_of_N a ++ rest).
    rewrite (app_assoc (repeat 48 (Z.to_nat (- n)))).
    rewrite parse_number_frac; [| |right; reflexivity| | |exact Hr].
    - do 2 f_equal.
      change ([48] ++ repeat 48 (Z.to_nat (- n)) ++ dec_of_N a)
        with (repeat 48 (S (Z.to_nat (- n))) ++ dec_of_N a).
      rewrite <- (app_nil_r (dec_of_N a)).
      change (dec_of_N a ++ []) with (dec_of_N a ++ repeat 48 0).
      rewrite Hmk. f_equal. rewrite !length_app, !repeat_length. subst n k. lia.
    - repeat constructor.
    - apply digits_app; [apply digits_repeat | exact HD].
    - rewrite ED. destruct (repeat 48 (Z.to_nat (- n))); discriminate. }
  (* exponent *)
  set (x := (n - 1)%Z).
  assert (Hx : (if (x <? 0)%Z then js "e-" else js "e+") ++ dec_of_N (Z.abs_N x)
               = 101 :: (if (x <? 0)%Z then 45 else 43) :: dec_of_N (Z.abs_N x))
    by (destruct (x <? 0)%Z; reflexivity).
  rewrite Hx. clear Hx.
  assert (Hxv : (if (x <? 0)%Z
                 then (- Z.of_N (N_of_digits (dec_of_N (Z.abs_N x))))%Z
                 else Z.of_N (N_of_digits (dec_of_N (Z.abs_N x)))) = x).
  { rewrite N_of_digits_dec. destruct (Z.ltb_spec x 0); lia. }
  rewrite ED in *. destruct r as [|d r].
  - cbn [app].
    change (c :: 101 :: (if (x <? 0)%Z then 45 else 43) :: dec_of_N (Z.abs_N x) ++ rest)
      with ([c] ++ 101 :: (if (x <? 0)%Z then 45 else 43) :: dec_of_N (Z.abs_N x) ++ rest).
    rewrite parse_number_exp;
      [|exact HD|right; reflexivity|apply digits_dec_of_N|apply dec_of_N_nonempty|exact Hr].
    do 2 f_equal. rewrite Hxv.
    change [c] with (repeat 48 0 ++ [c] ++ repeat 48 0).
    rewrite Hmk. f_equal. subst x n k. rewrite ED. cbn [length]. lia.
  - change ((if (m <? 0)%Z then [45] else []) ++
            (c :: js "." ++ (d :: r) ++
               101 :: (if (x <? 0)%Z then 45 else 43) :: dec_of_N (Z.abs_N x)) ++ rest)
      with ((if (m <? 0)%Z then [45] else []) ++
            ([c] ++ 46 :: ((d :: r) ++
               101 :: (if (x <? 0)%Z then 45 else 43) :: dec_of_N (Z.abs_N x)) ++ rest)).
    rewrite <- (app_assoc (d :: r)).
    change ((101 :: (if (x <? 0)%Z then 45 else 43) :: dec_of_N (Z.abs_N x)) ++ rest)
      with (101 :: (if (x <? 0)%Z then 45 else 43) :: dec_of_N (Z.abs_N x) ++ rest).
    rewrite parse_number_frac_exp;
      [|repeat constructor; exact (Forall_inv HD)|right; reflexivity
       |exact (Forall_inv_tail HD)|discriminate
       |apply digits_dec_of_N|apply dec_of_N_nonempty|exact Hr].
    do 2 f_equal. rewrite Hxv.
    change ([c] ++ d :: r) with (c :: d :: r).
    rewrite <- (app_nil_r (c :: d :: r)).
    change ((c :: d :: r) ++ []) with (repeat 48 0 ++ (c :: d :: r) ++ repeat 48 0).
    rewrite Hmk. f_equal. subst x n k. rewrite ED. cbn [length]. lia.
Qed.

(** *** Strings *)

Lemma hex4_unicode_escape (c : N) :
  c < 65536 ->
  hex4 (hex_lower (N.shiftr c 12 mod 16)) (hex_lower (N.shiftr c 8 mod 16))
       (hex_lower (N.shiftr c 4 mod 16)) (hex_lower (c mod 16)) = Some c.
Proof.
  intros Hc.
  assert (H : forall a b, a < 256 -> b < 256 ->
    (let c := a * 256 + b in
     match hex4 (hex_lower (N.shiftr c 12 mod 16)) (hex_lower (N.shiftr c 8 mod 16))
                (hex_lower (N.shiftr c 4 mod 16)) (hex_lower (c mod 16)) with
     | Some u => u =? c
     | None => false
     end) = true).
  { apply (check_bytes2 (fun a b =>
      let c := a * 256 + b in
      match hex4 (hex_lower (N.shiftr c 12 mod 16)) (hex_lower (N.shiftr c 8 mod 16))
                 (hex_lower (N.shiftr c 4 mod 16)) (hex_lower (c mod 16)) with
      | Some u => u =? c
      | None => false
      end)).
    vm_compute. reflexivity. }
  assert (Hdiv : c / 256 < 256)
    by (apply N.Div0.div_lt_upper_bound; lia).
  assert (Hmod : c mod 256 < 256) by (apply N.mod_upper_bound; lia).
  specialize (H (c / 256) (c mod 256) Hdiv Hmod). cbv zeta in H.
  assert (E : c / 256 * 256 + c mod 256 = c).
  { rewrite (N.div_mod c 256) at 3 by lia. lia. }
  rewrite E in H.
  destruct (hex4 _ _ _ _) as [u|]; [|discriminate].
  apply N.eqb_eq in H. congruence.
Qed.

Lemma parse_chars_simple (e u : N) (s : jsstring) :
  (e =? 117) = false -> JSON.simple_escape e = Some u ->
  JSON.parse_chars (92 :: e :: s)
  = match JSON.parse_chars s with
    | Some (cs, rest) => Some (u :: cs, rest)
    | None => None
    end.
Proof.
  intros He Hu. cbn [JSON.parse_chars].
  change (92 =? 34) with false. change (92 =? 92) with true. cbv iota.
  rewrite He, Hu. reflexivity.
Qed.

Lemma parse_chars_unicode (c : N) (s : jsstring) :
  c < 65536 ->
  JSON.parse_chars (JSON.unicode_escape c ++ s)
  = match JSON.parse_chars s with
    | Some (cs, rest) => Some (c :: cs, rest)
    | None => None
    end.
Proof.
  intros Hc. unfold JSON.unicode_escape.
  change (js "\u") with [92; 117]. cbn [app JSON.parse_chars].
  change (92 =? 34) with false. change (92 =? 92) with true.
  change (117 =? 117) with true. cbv iota.
  rewrite (@hex4_unicode_escape c Hc). reflexivity.
Qed.

Lemma parse_chars_plain (c : N) (s : jsstring) :
  (c =? 34) = false -> (c =? 92) = false -> (c <? 32) = false ->
  JSON.parse_chars (c :: s)
  = match JSON.parse_chars s with
    | Some (cs, rest) => Some (c :: cs, rest)
    | None => None
    end.
Proof.
  intros H1 H2 H3. cbn [JSON.parse_chars]. rewrite H1, H2, H3. reflexivity.
Qed.

Lemma surrogate_plain (c : N) :
  is_surrogate c = true ->
  (c =? 34) = false /\ (c =? 92) = false /\ (c <? 32) = false.
Proof.
  unfold is_surrogate, between. rewrite andb_true_iff, !N.leb_le.
  intros [H1 H2]. rewrite !N.eqb_neq, N.ltb_ge. lia.
Qed.

Lemma high_surrogate (c : N) : is_high_surrogate c = true -> is_surrogate c = true.
Proof.
  unfold is_high_surrogate, is_surrogate, between.
  rewrite !andb_true_iff, !N.leb_le. lia.
Qed.

Lemma low_surrogate (c : N) : is_low_surrogate c = true -> is_surrogate c = true.
Proof.
  unfold is_low_surrogate, is_surrogate, between.
  rewrite !andb_true_iff, !N.leb_le. lia.
Qed.

(** [JSON.parse] reads a string back from its quotation. *)
Lemma parse_chars_quote_body (s rest : jsstring) :
  valid_string s = true ->
  JSON.parse_chars (JSON.quote_body s ++ 34 :: rest) = Some (s, rest).
Proof.
  remember (length s) as n eqn:Hn. revert s Hn.
  induction n as [n IH] using lt_wf_ind. intros s Hn Hv.
  destruct s as [|c s]; [reflexivity|].
  destruct (valid_string_cons _ _ Hv) as [Hc Hs].
  assert (IHs : JSON.parse_chars (JSON.quote_body s ++ 34 :: rest) = Some (s, rest)).
  { apply (IH (length s)); [subst n; simpl; lia | reflexivity | exact Hs]. }
  cbn [JSON.quote_body].
  destruct (N.eqb_spec c 8) as [->|H8].
  { change ((js "\b" ++ JSON.quote_body s) ++ 34 :: rest)
      with (92 :: 98 :: JSON.quote_body s ++ 34 :: rest).
    rewrite (@parse_chars_simple 98 8), IHs; reflexivity. }
  destruct (N.eqb_spec c 9) as [->|H9].
  { change ((js "\t" ++ JSON.quote_body s) ++ 34 :: rest)
      with (92 :: 116 :: JSON.quote_body s ++ 34 :: rest).
    rewrite (@parse_chars_simple 116 9), IHs; reflexivity. }
  destruct (N.eqb_spec c 10) as [->|H10].
  { change ((js "\n" ++ JSON.quote_body s) ++ 34 :: rest)
      with (92 :: 110 :: JSON.quote_body s ++ 34 :: rest).
    rewrite (@parse_chars_simple 110 10), IHs; reflexivity. }
  destruct (N.eqb_spec c 12) as [->|H12].
  { change ((js "\f" ++ JSON.quote_body s) ++ 34 :: rest)
      with (92 :: 102 :: JSON.quote_body s ++ 34 :: rest).
    rewrite (@parse_chars_simple 102 12), IHs; reflexivity. }
  destruct (N.eqb_spec c 13) as [->|H13].
  { change ((js "\r" ++ JSON.quote_body s) ++ 34 :: rest)
      with (92 :: 114 :: JSON.quote_body s ++ 34 :: rest).
    rewrite (@parse_chars_simple 114 13), IHs; reflexivity. }
  destruct (N.eqb_spec c 34) as [->|H34].
  { change (([92; 34] ++ JSON.quote_body s) ++ 34 :: rest)
      with (92 :: 34 :: JSON.quote_body s ++ 34 :: rest).
    rewrite (@parse_chars_simple 34 34), IHs; reflexivity. }
  destruct (N.eqb_spec c 92) as [->|H92].
  { change (([92; 92] ++ JSON.quote_body s) ++ 34 :: rest)
      with (92 :: 92 :: JSON.quote_body s ++ 34 :: rest).
    rewrite (@parse_chars_simple 92 92), IHs; reflexivity. }
  destruct (c <? 32) eqn:H32.
  { rewrite <- app_assoc, (@parse_chars_unicode c _ Hc), IHs. reflexivity. }
  destruct (is_high_surrogate c) eqn:Hh.
  { destruct s as [|d s'].
    - rewrite (@parse_chars_unicode c _ Hc). reflexivity.
    - destruct (is_low_surrogate d) eqn:Hl.
      + destruct (valid_string_cons _ _ Hs) as [Hd Hs'].
        destruct (@surrogate_plain c (@high_surrogate c Hh)) as (A1 & A2 & A3).
        destruct (@surrogate_plain d (@low_surrogate d Hl)) as (B1 & B2 & B3).
        cbn [app].
        rewrite (@parse_chars_plain c _ A1 A2 A3), (@parse_chars_plain d _ B1 B2 B3).
        rewrite (IH (length s')); [reflexivity | subst n; simpl; lia | reflexivity | exact Hs'].
      + rewrite <- app_assoc, (@parse_chars_unicode c _ Hc), IHs. reflexivity. }
  destruct (is_low_surrogate c) eqn:Hl.
  { rewrite <- app_assoc, (@parse_chars_unicode c _ Hc), IHs. reflexivity. }
  cbn [app]. rewrite parse_chars_plain, IHs;
    [reflexivity | apply N.eqb_neq; exact H34 | apply N.eqb_neq; exact H92 | exact H32].
Qed.

(** *** More fuel does not change what [JSON.parse] returns *)

Lemma parse_fuel_mono (f : nat) :
  (forall s f', (f <= f')%nat -> JSON.parse_value f s <> JSON.PFuel ->
     JSON.parse_value f' s = JSON.parse_value f s)
  /\ (forall acc s f', (f <= f')%nat -> JSON.parse_elements f acc s <> JSON.PFuel ->
     JSON.parse_elements f' acc s = JSON.parse_elements f acc s)
  /\ (forall acc s f', (f <= f')%nat -> JSON.parse_members f acc s <> JSON.PFuel ->
     JSON.parse_members f' acc s = JSON.parse_members f acc s).
Proof.
  induction f as [|f (IHv & IHe & IHm)].
  { repeat split; intros; cbn in *; congruence. }
  split; [|split].
  - intros s f' Hf H. destruct f' as [|f']; [lia|].
    assert (Hle : (f <= f')%nat) by lia.
    cbn [JSON.parse_value] in *.
    destruct (JSON.skip_ws s) as [|c r]; [reflexivity|].
    destruct (c =? 91).
    { destruct (JSON.skip_ws r) as [|d r']; [reflexivity|].
      destruct (d =? 93); [reflexivity|]. apply IHe; assumption. }
    destruct (c =? 123).
    { destruct (JSON.skip_ws r) as [|d r']; [reflexivity|].
      destruct (d =? 125); [reflexivity|]. apply IHm; assumption. }
    reflexivity.
  - intros acc s f' Hf H. destruct f' as [|f']; [lia|].
    assert (Hle : (f <= f')%nat) by lia.
    cbn [JSON.parse_elements] in *.
    destruct (JSON.parse_value f s) as [v r| |] eqn:Ev; [| |congruence].
    + rewrite (IHv s f' Hle), Ev by (rewrite Ev; discriminate).
      destruct (JSON.skip_ws r) as [|c r']; [reflexivity|].
      destruct (c =? 44); [apply IHe; assumption | reflexivity].
    + rewrite (IHv s f' Hle), Ev by (rewrite Ev; discriminate). reflexivity.
  - intros acc s f' Hf H. destruct f' as [|f']; [lia|].
    assert (Hle : (f <= f')%nat) by lia.
    cbn [JSON.parse_members] in *.
    destruct (JSON.skip_ws s) as [|c r]; [reflexivity|].
    destruct (c =? 34); [|reflexivity].
    destruct (JSON.parse_chars r) as [[k r1]|]; [|reflexivity].
    destruct (JSON.skip_ws r1) as [|d r2]; [reflexivity|].
    destruct (d =? 58); [|reflexivity].
    destruct (JSON.parse_value f r2) as [v r3| |] eqn:Ev; [| |congruence].
    + rewrite (IHv r2 f' Hle), Ev by (rewrite Ev; discriminate).
      destruct (JSON.skip_ws r3) as [|x r4]; [reflexivity|].
      destruct (x =? 44); [apply IHm; assumption | reflexivity].
    + rewrite (IHv r2 f' Hle), Ev by (rewrite Ev; discriminate). reflexivity.
Qed.

(** What [parse_value] returns with some fuel is what [JSON.parse]
    computes. *)
Lemma parse_value_parse (f : nat) (s : jsstring) (v : json) :
  JSON.parse_value f s = JSON.POk v [] -> JSON.parse s = Ok v.
Proof.
  intros H. unfold JSON.parse.
  pose proof (parse_value_fuel_enough s) as Hne.
  destruct (parse_fuel_mono f) as (Hf & _ & _).
  destruct (parse_fuel_mono (JSON.parse_fuel s)) as (Hp & _ & _).
  specialize (Hf s (Nat.max f (JSON.parse_fuel s)) (Nat.le_max_l _ _)).
  specialize (Hp s (Nat.max f (JSON.parse_fuel s)) (Nat.le_max_r _ _) Hne).
  rewrite <- Hp, Hf, H by (rewrite H; discriminate). reflexivity.
Qed.

(** *** White space and the ends of tokens *)

Lemma skip_ws_app (ws s : jsstring) :
  whitespace ws -> JSON.skip_ws (ws ++ s) = JSON.skip_ws s.
Proof.
  intros H. induction H as [|c ws Hc _ IH]; [reflexivity|].
  cbn [app JSON.skip_ws]. rewrite Hc. exact IH.
Qed.

Lemma parse_value_ws (f : nat) (ws s : jsstring) :
  whitespace ws -> JSON.parse_value f (ws ++ s) = JSON.parse_value f s.
Proof.
  intros H. destruct f as [|f]; [reflexivity|].
  cbn [JSON.parse_value]. rewrite (skip_ws_app s H). reflexivity.
Qed.

Lemma parse_elements_ws (f : nat) (acc : list json) (ws s : jsstring) :
  whitespace ws -> JSON.parse_elements f acc (ws ++ s) = JSON.parse_elements f acc s.
Proof.
  intros H. destruct f as [|f]; [reflexivity|].
  cbn [JSON.parse_elements]. rewrite (parse_value_ws f s H). reflexivity.
Qed.

Lemma parse_members_ws (f : nat) (acc : list (jsstring * json)) (ws s : jsstring) :
  whitespace ws -> JSON.parse_members f acc (ws ++ s) = JSON.parse_members f acc s.
Proof.
  intros H. destruct f as [|f]; [reflexivity|].
  cbn [JSON.parse_members]. rewrite (skip_ws_app s H). reflexivity.
Qed.

Lemma number_end_ws (ws s : jsstring) :
  whitespace ws -> number_end s -> number_end (ws ++ s).
Proof.
  intros H Hs. destruct H as [|c ws Hc _]; [exact Hs|].
  cbn [app number_end]. unfold JSON.is_ws in Hc.
  rewrite !orb_true_iff, !N.eqb_eq in Hc.
  destruct Hc as [[[->| ->]| ->]| ->]; repeat split; discriminate.
Qed.

Lemma whitespace_app (a b : jsstring) :
  whitespace a -> whitespace b -> whitespace (a ++ b).
Proof. apply Forall_app_2. Qed.

Lemma join_cons (sep p q : jsstring) (ps : list jsstring) :
  join sep (p :: q :: ps) = p ++ sep ++ join sep (q :: ps).
Proof. reflexivity. Qed.

Lemma join_head (sep p : jsstring) (ps : list jsstring) (tail : jsstring) :
  exists tail', join sep (p :: ps) ++ tail = p ++ tail'.
Proof.
  destruct ps as [|q ps].
  - exists tail. reflexivity.
  - exists (sep ++ join sep (q :: ps) ++ tail).
    rewrite join_cons, <- !app_assoc. reflexivity.
Qed.

Lemma number_end_punct (c : N) (s : jsstring) :
  c = 44 \/ c = 93 \/ c = 125 -> number_end (c :: s).
Proof. intros [->|[->| ->]]; repeat split; discriminate. Qed.

Section composite.

Variables (ser : json -> jsstring) (opening closing wsS wsC : jsstring).
Hypothesis Hopening : whitespace opening.
Hypothesis Hclosing : whitespace closing.
Hypothesis HwsS : whitespace wsS.
Hypothesis HwsC : whitespace wsC.

(** The elements of an array, read back one after the other. *)
Lemma parse_elements_join (l : list json) :
  forall (x : json) (acc : list json) (rest : jsstring),
  Forall (fun x => forall rest, number_end rest ->
            exists f0, forall f, (f0 <= f)%nat ->
              JSON.parse_value f (ser x ++ rest) = JSON.POk x rest) (x :: l) ->
  exists f0, forall f, (f0 <= f)%nat ->
    JSON.parse_elements f acc
      (join (44 :: wsS) (map ser (x :: l)) ++ closing ++ 93 :: rest)
    = JSON.POk (JArr (acc ++ x :: l)) rest.
Proof.
  induction l as [|y l IH]; intros x acc rest H.
  - apply Forall_inv in H.
    destruct (H (closing ++ 93 :: rest)) as [f0 Hf0].
    { apply number_end_ws; [exact Hclosing | apply number_end_punct; auto]. }
    exists (S f0). intros f Hf. destruct f as [|f]; [lia|].
    cbn [map join JSON.parse_elements]. rewrite Hf0 by lia.
    rewrite (skip_ws_app _ Hclosing). reflexivity.
  - pose proof (Forall_inv H) as Hx. apply Forall_inv_tail in H.
    destruct (Hx ((44 :: wsS) ++ join (44 :: wsS) (map ser (y :: l))
                    ++ closing ++ 93 :: rest)) as [f0 Hf0].
    { apply number_end_punct. auto. }
    destruct (IH y (acc ++ [x]) rest H) as [f1 Hf1].
    exists (S (Nat.max f0 f1)). intros f Hf. destruct f as [|f]; [lia|].
    change (map ser (x :: y :: l)) with (ser x :: ser y :: map ser l).
    rewrite join_cons, <- !app_assoc.
    cbn [JSON.parse_elements]. rewrite Hf0 by lia.
    cbn [app JSON.skip_ws]. change (JSON.is_ws 44) with false. cbv iota.
    change (44 =? 44) with true. cbv iota.
    rewrite (parse_elements_ws f (acc ++ [x]) _ HwsS).
    change (ser y :: map ser l) with (map ser (y :: l)).
    rewrite Hf1 by lia. rewrite <- app_assoc. reflexivity.
Qed.

Lemma parse_array (x : json) (l : list json) (rest : jsstring) (d : N) (t : jsstring) :
  ser x = d :: t -> JSON.is_ws d = false -> (d =? 93) = false ->
  Forall (fun x => forall rest, number_end rest ->
            exists f0, forall f, (f0 <= f)%nat ->
              JSON.parse_value f (ser x ++ rest) = JSON.POk x rest) (x :: l) ->
  exists f0, forall f, (f0 <= f)%nat ->
    JSON.parse_value f
      ((js "[" ++ opening ++ join (44 :: wsS) (map ser (x :: l))
          ++ closing ++ js "]") ++ rest)
    = JSON.POk (JArr (x :: l)) rest.
Proof.
  intros Ed Hd Hd93 H.
  destruct (parse_elements_join [] rest H) as [f0 Hf0].
  exists (S f0). intros f Hf. destruct f as [|f]; [lia|].
  rewrite <- !app_assoc. specialize (Hf0 f ltac:(lia)).
  change (js "]" ++ rest) with (93 :: rest).
  destruct (join_head (44 :: wsS) (ser x) (map ser l) (closing ++ 93 :: rest))
    as [tail' Et].
  change (ser x :: map ser l) with (map ser (x :: l)) in Et.
  rewrite Et, Ed in Hf0. rewrite Et, Ed.
  change (js "[" ++ opening ++ (d :: t) ++ tail')
    with (91 :: opening ++ d :: t ++ tail').
  cbn [JSON.parse_value JSON.skip_ws].
  change (JSON.is_ws 91) with false. cbv iota.
  change (91 =? 91) with true. cbv iota.
  rewrite (skip_ws_app _ Hopening). cbn [JSON.skip_ws]. rewrite Hd, Hd93.
  exact Hf0.
Qed.

(** The members of an object, read back one after the other. *)
Lemma parse_members_join (l : list (jsstring * json)) :
  forall (kv : jsstring * json) (acc : list (jsstring * json)) (rest : jsstring),
  Forall (fun kv => valid_string (fst kv) = true
            /\ forall rest, number_end rest ->
               exists f0, forall f, (f0 <= f)%nat ->
                 JSON.parse_value f (ser (snd kv) ++ rest) = JSON.POk (snd kv) rest)
         (kv :: l) ->
  exists f0, forall f, (f0 <= f)%nat ->
    JSON.parse_members f acc
      (join (44 :: wsS)
         (map (fun kv => JSON.quote (fst kv) ++ js ":" ++ wsC ++ ser (snd kv)) (kv :: l))
       ++ closing ++ 125 :: rest)
    = JSON.POk (JObj (fold_left (fun acc kv => JSON.obj_set (fst kv) (snd kv) acc)
                        (kv :: l) acc)) rest.
Proof.
  induction l as [|kv' l IH]; intros [k v] acc rest H.
  - apply Forall_inv in H. destruct H as [Hk Hv]. cbn [fst snd] in *.
    destruct (Hv (closing ++ 125 :: rest)) as [f0 Hf0].
    { apply number_end_ws; [exact Hclosing | apply number_end_punct; auto]. }
    exists (S f0). intros f Hf. destruct f as [|f]; [lia|].
    cbn [map join fst snd fold_left]. unfold JSON.quote.
    rewrite <- !app_assoc. cbn [app JSON.parse_members JSON.skip_ws].
    change (JSON.is_ws 34) with false. cbv iota.
    change (34 =? 34) with true. cbv iota.
    rewrite (@parse_chars_quote_body k _ Hk). cbv iota beta.
    change (js ":" ++ ?X) with (58 :: X).
    cbn [JSON.skip_ws]. change (JSON.is_ws 58) with false. cbv iota.
    change (58 =? 58) with true. cbv iota.
    rewrite (parse_value_ws f _ HwsC), Hf0 by lia.
    rewrite (skip_ws_app _ Hclosing). reflexivity.
  - pose proof (Forall_inv H) as [Hk Hv]. apply Forall_inv_tail in H.
    cbn [fst snd] in Hk, Hv.
    set (mem := fun kv : jsstring * json =>
                  JSON.quote (fst kv) ++ js ":" ++ wsC ++ ser (snd kv)) in *.
    destruct (Hv ((44 :: wsS) ++ join (44 :: wsS) (map mem (kv' :: l))
                    ++ closing ++ 125 :: rest)) as [f0 Hf0].
    { apply number_end_punct. auto. }
    destruct (IH kv' (JSON.obj_set k v acc) rest H) as [f1 Hf1].
    exists (S (Nat.max f0 f1)). intros f Hf. destruct f as [|f]; [lia|].
    change (map mem ((k, v) :: kv' :: l)) with (mem (k, v) :: mem kv' :: map mem l).
    rewrite join_cons.
    change (mem kv' :: map mem l) with (map mem (kv' :: l)).
    unfold mem at 1. cbn [fst snd]. unfold JSON.quote.
    rewrite <- !app_assoc. cbn [app JSON.parse_members JSON.skip_ws].
    change (JSON.is_ws 34) with false. cbv iota.
    change (34 =? 34) with true. cbv iota.
    rewrite (@parse_chars_quote_body k _ Hk). cbv iota beta.
    change (js ":" ++ ?X) with (58 :: X).
    cbn [JSON.skip_ws]. change (JSON.is_ws 58) with false. cbv iota.
    change (58 =? 58) with true. cbv iota.
    rewrite (parse_value_ws f _ HwsC), Hf0 by lia.
    cbn [app JSON.skip_ws]. change (JSON.is_ws 44) with false. cbv iota.
    change (44 =? 44) with true. cbv iota.
    rewrite (parse_members_ws f _ _ HwsS).
    rewrite Hf1 by lia. reflexivity.
Qed.

Lemma parse_object (kv : jsstring * json) (l : list (jsstring * json))
    (rest : jsstring) :
  Forall (fun kv => valid_string (fst kv) = true
            /\ forall rest, number_end rest ->
               exists f0, forall f, (f0 <= f)%nat ->
                 JSON.parse_value f (ser (snd kv) ++ rest) = JSON.POk (snd kv) rest)
         (kv :: l) ->
  exists f0, forall f, (f0 <= f)%nat ->
    JSON.parse_value f
      ((js "{" ++ opening
          ++ join (44 :: wsS)
               (map (fun kv => JSON.quote (fst kv) ++ js ":" ++ wsC ++ ser (snd kv))
                    (kv :: l))
          ++ closing ++ js "}") ++ rest)
    = JSON.POk (JObj (fold_left (fun acc kv => JSON.obj_set (fst kv) (snd kv) acc)
                        (kv :: l) [])) rest.
Proof.
  intros H.
  destruct (parse_members_join [] rest H) as [f0 Hf0].
  exists (S f0). intros f Hf. destruct f as [|f]; [lia|].
  rewrite <- !app_assoc. specialize (Hf0 f ltac:(lia)).
  change (js "}" ++ rest) with (125 :: rest).
  set (mem := fun kv : jsstring * json =>
                JSON.quote (fst kv) ++ js ":" ++ wsC ++ ser (snd kv)) in *.
  destruct (join_head (44 :: wsS) (mem kv) (map mem l) (closing ++ 125 :: rest))
    as [tail' Et].
  change (mem kv :: map mem l) with (map mem (kv :: l)) in Et.
  rewrite Et in Hf0. rewrite Et.
  unfold mem in Hf0 at 1. unfold mem at 1. unfold JSON.quote in *.
  rewrite <- !app_assoc in Hf0. rewrite <- !app_assoc.
  cbn [app] in Hf0.
  change (js "{" ++ opening ++ [34] ++ ?X) with (123 :: opening ++ 34 :: X).
  cbn [app JSON.parse_value JSON.skip_ws].
  change (JSON.is_ws 123) with false. cbv iota.
  change (123 =? 91) with false. change (123 =? 123) with true. cbv iota.
  rewrite (skip_ws_app _ Hopening). cbn [JSON.skip_ws].
  change (JSON.is_ws 34) with false. cbv iota.
  change (34 =? 125) with false. cbv iota.
  exact Hf0.
Qed.

End composite.

Lemma number_to_string_head (m e : Z) :
  canonical_number m e = true ->
  exists c t, number_to_string m e = c :: t /\ (c = 45 \/ is_digit c = true).
Proof.
  unfold canonical_number. intros Hc.
  destruct (Z.eqb_spec m 0) as [->|Hm].
  { exists 48, []. split; [reflexivity | right; reflexivity]. }
  apply negb_true_iff, N.eqb_neq in Hc.
  rewrite (number_to_string_canonical e Hm Hc). cbv zeta.
  destruct (m <? 0)%Z.
  { eexists _, _. split; [reflexivity | left; reflexivity]. }
  assert (Ha : Z.abs_N m <> 0) by lia.
  pose proof (digits_dec_of_N (Z.abs_N m)) as HD.
  destruct (dec_of_N_head Ha) as (c & r & ED & _).
  pose proof HD as HD'. rewrite ED in HD'. pose proof (Forall_inv HD') as Hd.
  cbn beta in Hd. cbn [app].
  set (n := (Z.of_nat (length (dec_of_N (Z.abs_N m))) + e)%Z).
  destruct ((Z.of_nat (length (dec_of_N (Z.abs_N m))) <=? n)%Z && (n <=? 21)%Z).
  { rewrite ED. eexists _, _. split; [reflexivity | right; exact Hd]. }
  destruct ((0 <? n)%Z && (n <=? 21)%Z) eqn:EB.
  { apply andb_true_iff in EB. destruct EB as [E1 _]. apply Z.ltb_lt in E1.
    destruct (Z.to_nat n) as [|p] eqn:Ep; [lia|].
    rewrite ED. eexists _, _. split; [reflexivity | right; exact Hd]. }
  destruct ((-6 <? n)%Z && (n <=? 0)%Z).
  { eexists _, _. split; [reflexivity | right; reflexivity]. }
  rewrite ED. destruct r; eexists _, _; (split; [reflexivity | right; exact Hd]).
Qed.

Lemma number_start (c : N) :
  c = 45 \/ is_digit c = true ->
  JSON.is_ws c = false /\ (c =? 91) = false /\ (c =? 93) = false
  /\ (c =? 123) = false /\ (c =? 34) = false /\ (c =? 116) = false
  /\ (c =? 102) = false /\ (c =? 110) = false.
Proof.
  intros [->|Hd]; [repeat split; reflexivity|].
  apply digit_range in Hd. unfold JSON.is_ws.
  rewrite !orb_false_iff, !N.eqb_neq. repeat split; lia.
Qed.

Lemma canonical_array (l : list json) :
  json_canonical (JArr l) <-> Forall json_canonical l.
Proof.
  cbn [json_canonical]. induction l as [|x l IH].
  - split; [constructor | trivial].
  - rewrite Forall_cons, IH. reflexivity.
Qed.

Lemma canonical_object (kvs : list (jsstring * json)) :
  json_canonical (JObj kvs)
  <-> js_ordered kvs
      /\ Forall (fun kv => valid_string (fst kv) = true /\ json_canonical (snd kv)) kvs.
Proof.
  cbn [json_canonical]. apply and_iff_compat_l.
  induction kvs as [|kv kvs IH].
  - split; [constructor | trivial].
  - rewrite Forall_cons, IH. tauto.
Qed.

Lemma whitespace_nil : whitespace [].
Proof. constructor. Qed.

Lemma whitespace_spaces (n : nat) : whitespace (repeat 32 n).
Proof. induction n; cbn [repeat]; constructor; auto. Qed.

(** The first character of the text of a value. *)
Lemma serialize_head (gap indent : jsstring) (v : json) :
  json_canonical v ->
  exists c t, JSON.serialize gap indent v = c :: t
    /\ JSON.is_ws c = false /\ (c =? 93) = false.
Proof.
  intros Hv. destruct v as [|[|]|m e|s|[|x l]|[|kv kvs]];
    try (eexists _, _; split; [reflexivity | split; reflexivity]).
  destruct (@number_to_string_head m e Hv) as (c & t & E & Hc).
  exists c, t. split; [exact E|].
  destruct (@number_start c Hc) as (H1 & _ & H2 & _). auto.
Qed.

(** [parse_value] reads a value back from its text, whatever follows
    it. *)
Lemma parse_value_serialize (gap : jsstring) (v : json) :
  whitespace gap -> json_canonical v ->
  forall indent rest, whitespace indent -> number_end rest ->
  exists f0, forall f, (f0 <= f)%nat ->
    JSON.parse_value f (JSON.serialize gap indent v ++ rest) = JSON.POk v rest.
Proof.
  intros Hgap. induction v as [|b|m e|s|l IH|kvs IH] using json_ind_nested;
    intros Hv indent rest Hind Hr.
  - exists 1%nat. intros [|f] Hf; [lia | reflexivity].
  - exists 1%nat. intros [|f] Hf; [lia | destruct b; reflexivity].
  - exists 1%nat. intros [|f] Hf; [lia|].
    cbn [json_canonical] in Hv.
    destruct (@number_to_string_head m e Hv) as (c & t & E & Hc).
    destruct (@number_start c Hc) as (H0 & H1 & _ & H2 & H3 & H4 & H5 & H6).
    cbn [JSON.serialize]. pose proof (@parse_number_to_string m e rest Hv Hr) as Hp.
    rewrite E in *. cbn [app] in *. cbn [JSON.parse_value JSON.skip_ws].
    rewrite H0, H1, H2, H3, H4, H5, H6, Hp. reflexivity.
  - exists 1%nat. intros [|f] Hf; [lia|]. cbn [json_canonical] in Hv.
    cbn [JSON.serialize]. unfold JSON.quote. rewrite <- !app_assoc.
    cbn [app JSON.parse_value JSON.skip_ws].
    change (JSON.is_ws 34) with false. cbv iota.
    change (34 =? 91) with false. change (34 =? 123) with false.
    change (34 =? 34) with true. cbv iota.
    rewrite (@parse_chars_quote_body s _ Hv). reflexivity.
  - destruct l as [|x l].
    { exists 1%nat. intros [|f] Hf; [lia | reflexivity]. }
    apply canonical_array in Hv. rewrite serialize_array.
    assert (Hind' : whitespace (indent ++ gap)) by (apply whitespace_app; assumption).
    assert (Hnl : forall s, whitespace s -> whitespace ([10] ++ s))
      by (intros s0 Hs0; constructor; [reflexivity | exact Hs0]).
    assert (Hall : Forall (fun x => forall rest, number_end rest ->
              exists f0, forall f, (f0 <= f)%nat ->
                JSON.parse_value f (JSON.serialize gap (indent ++ gap) x ++ rest)
                = JSON.POk x rest) (x :: l)).
    { rewrite Forall_forall in IH, Hv |- *. intros y Hy rest' Hr'.
      apply IH; auto. }
    destruct (@serialize_head gap (indent ++ gap) x (Forall_inv Hv)) as (d & t & Ed & Hd & Hd93).
    destruct (nonempty gap).
    + exact (@parse_array (JSON.serialize gap (indent ++ gap))
               ([10] ++ indent ++ gap) ([10] ++ indent) ([10] ++ indent ++ gap)
               (Hnl _ Hind') (Hnl _ Hind) (Hnl _ Hind') x l rest d t Ed Hd Hd93 Hall).
    + exact (@parse_array (JSON.serialize gap (indent ++ gap)) [] [] []
               whitespace_nil whitespace_nil whitespace_nil x l rest d t Ed Hd Hd93 Hall).
  - destruct kvs as [|kv kvs].
    { exists 1%nat. intros [|f] Hf; [lia | reflexivity]. }
    apply canonical_object in Hv. destruct Hv as [Hord Hv].
    rewrite serialize_object.
    assert (Hind' : whitespace (indent ++ gap)) by (apply whitespace_app; assumption).
    assert (Hnl : forall s, whitespace s -> whitespace ([10] ++ s))
      by (intros s0 Hs0; constructor; [reflexivity | exact Hs0]).
    assert (Hall : Forall (fun kv => valid_string (fst kv) = true
              /\ forall rest, number_end rest ->
                 exists f0, forall f, (f0 <= f)%nat ->
                   JSON.parse_value f (JSON.serialize gap (indent ++ gap) (snd kv) ++ rest)
                   = JSON.POk (snd kv) rest) (kv :: kvs)).
    { rewrite Forall_forall in IH, Hv |- *. intros y Hy.
      destruct (Hv y Hy) as [Hk Hc]. split; [exact Hk|].
      intros rest' Hr'. apply IH; auto. }
    unfold js_ordered in Hord.
    destruct (nonempty gap).
    + destruct (@parse_object (JSON.serialize gap (indent ++ gap))
               ([10] ++ indent ++ gap) ([10] ++ indent) ([10] ++ indent ++ gap) (js " ")
               (Hnl _ Hind') (Hnl _ Hind) (Hnl _ Hind')
               (whitespace_spaces 1) kv kvs rest Hall) as [f0 Hf0].
      exists f0. intros f Hf. rewrite <- Hord at 2. exact (Hf0 f Hf).
    + destruct (@parse_object (JSON.serialize gap (indent ++ gap)) [] [] [] []
               whitespace_nil whitespace_nil whitespace_nil whitespace_nil
               kv kvs rest Hall) as [f0 Hf0].
      exists f0. intros f Hf. rewrite <- Hord at 2. exact (Hf0 f Hf).
Qed.

(** [JSON.parse] reads a value back from the text [JSON.stringify]
    gives for it, with or without indentation. *)
Lemma parse_serialize (gap : jsstring) (v : json) :
  whitespace gap -> json_canonical v ->
  JSON.parse (JSON.serialize gap [] v) = Ok v.
Proof.
  intros Hgap Hv.
  destruct (@parse_value_serialize gap v Hgap Hv [] [] whitespace_nil I) as [f0 Hf0].
  specialize (Hf0 f0 (Nat.le_refl _)). rewrite app_nil_r in Hf0.
  exact (@parse_value_parse f0 _ v Hf0).
Qed.

(** ** Round trips *)

Lemma canonical_valid (v : json) : json_canonical v -> json_valid v = true.
Proof.
  induction v as [|b|m e|s|l IH|kvs IH] using json_ind_nested; intros Hv;
    try reflexivity.
  - exact Hv.
  - apply canonical_array in Hv. cbn [json_valid]. apply forallb_forall.
    rewrite Forall_forall in IH, Hv. intros x Hx.
    apply list_elem_of_In in Hx. auto.
  - apply canonical_object in Hv. destruct Hv as [_ Hv].
    cbn [json_valid]. apply forallb_forall.
    rewrite Forall_forall in IH, Hv. intros kv Hkv.
    apply list_elem_of_In in Hkv. destruct (Hv kv Hkv) as [Hk Hc].
    rewrite Hk. cbn [andb]. auto.
Qed.

(** What [loadLogsFromLocal()] makes of the text [saveLogsToLocal]
    writes. *)
Lemma local_logs_stringify (logs : json) :
  json_canonical logs -> local_logs (Some (JSON.stringify logs)) = Ok logs.
Proof.
  intros Hv. unfold local_logs, JSON.stringify.
  destruct (@serialize_head [] [] logs Hv) as (c & t & E & _).
  rewrite <- (@parse_serialize [] logs whitespace_nil Hv), E. reflexivity.
Qed.

(** X15. The local cache gives back what was put into it: for a value
    [X] as [JSON.parse] returns them (numbers in canonical form, the
    properties of objects in the order of JavaScript), when the store
    takes the write, [saveLogsToLocal(X)] returns [true] and
    [loadLogsFromLocal()] after it returns [X]. *)
Theorem local_cache_round_trip (logs : json) (w : World) :
  json_canonical logs ->
  localStorage.accepts LOGS_KEY (JSON.stringify logs) w = true ->
  fst (saveLogsToLocal logs w) = Ok true
  /\ fst (loadLogsFromLocal (snd (saveLogsToLocal logs w))) = Ok logs.
Proof.
  intros Hv Ha. rewrite saveLogsToLocal_run. cbv zeta. rewrite Ha.
  split; [reflexivity|]. cbn [snd]. rewrite loadLogsFromLocal_run. cbn [fst].
  cbn [storage with_storage]. rewrite lookup_insert_eq.
  apply local_logs_stringify, Hv.
Qed.

Lemma local_cache_round_trip_witness :
  let logs := JArr [JObj [(js "version", JStr (js "1.2.0"));
                          (js "notes", JArr [JStr [0x65E5; 0x5FD7]; JNum 15 (-1)]);
                          (js "draft", JBool false)]] in
  let w := sample_world JNull ∅ 5000 [] in
  json_canonical logs
  /\ localStorage.accepts LOGS_KEY (JSON.stringify logs) w = true
  /\ fst (saveLogsToLocal logs w) = Ok true
  /\ fst (loadLogsFromLocal (snd (saveLogsToLocal logs w))) = Ok logs.
Proof.
  intros logs w.
  assert (Hv : json_canonical logs) by (vm_compute; repeat split).
  assert (Ha : localStorage.accepts LOGS_KEY (JSON.stringify logs) w = true)
    by (vm_compute; reflexivity).
  split; [exact Hv|]. split; [exact Ha|].
  exact (local_cache_round_trip logs w Hv Ha).
Defined.

(** X16. What was saved last is what the fallback returns.  After
    [saveLogs(X)] whose write to the local cache was taken, whatever
    became of the remote write, a later [loadLogs()] returns [X]
    whenever it ends up reading the cache: in an unconfigured state,
    and in a configured state when the read request fails (rejected,
    error status, undecodable body).  [X] is a value as [JSON.parse]
    returns them; [n] is what the remote end answers after the save. *)
Theorem saved_logs_fallback (logs : json) (w : World) (n : list outcome) :
  json_canonical logs ->
  localStorage.accepts LOGS_KEY (JSON.stringify logs) w = true ->
  is_configured w = false \/ (exists e, remote_logs (hd Rejected n) = Throw e) ->
  fst (loadLogs (with_net n (snd (saveLogs logs w)))) = Ok logs.
Proof.
  intros Hv Ha Hn.
  assert (H : exists b w', saveLogs logs w = (Ok b, w')
                /\ storage w' = stored LOGS_KEY (JSON.stringify logs) w
                /\ config w' = config w).
  { destruct (is_configured w) eqn:Hc.
    - destruct (saveLogs_configured_effect logs w Hc) as (b & w' & Hr & Hs & Hcfg & _).
      exists b, w'. auto.
    - rewrite (saveLogs_unconfigured logs w Hc).
      match goal with
      | |- context [saveLogsToLocal logs ?w0] =>
          destruct (saveLogsToLocal_effect logs w0)
            as (w' & -> & Hs & Hcfg & _)
      end.
      eexists _, w'. split; [reflexivity|]. split; [exact Hs | exact Hcfg]. }
  destruct H as (b & w' & -> & Hs & Hcfg). cbn [snd].
  assert (Hl : storage (with_net n w') !! LOGS_KEY = Some (JSON.stringify logs)).
  { cbn [storage with_net]. rewrite Hs. apply stored_accepted, Ha. }
  assert (Hc' : is_configured (with_net n w') = is_configured w).
  { unfold is_configured. cbn [config with_net]. rewrite Hcfg. reflexivity. }
  destruct (is_configured w) eqn:Hc.
  - destruct Hn as [Hn|[e He]]; [discriminate|].
    destruct (@loadLogs_fallback (with_net n w') e Hc' He) as (w'' & -> & _).
    cbn [fst]. rewrite Hl. apply local_logs_stringify, Hv.
  - rewrite (loadLogs_unconfigured_run _ Hc'). cbn [fst]. rewrite Hl.
    apply local_logs_stringify, Hv.
Qed.

Lemma saved_logs_fallback_witness :
  let logs := JArr [JObj [(js "text", JStr [0x65E5; 0x5FD7])]] in
  let w := sample_world sample_config ∅ 5000
             [Responded (mkResponse 404 (js "{}")); Rejected] in
  let n := [Responded (mkResponse 500 (js "oops"))] in
  json_canonical logs
  /\ localStorage.accepts LOGS_KEY (JSON.stringify logs) w = true
  /\ is_configured w = true
  /\ fst (saveLogs logs w) = Ok false
  /\ fst (loadLogs (with_net n (snd (saveLogs logs w)))) = Ok logs.
Proof.
  intros logs w n.
  assert (Hv : json_canonical logs) by (vm_compute; repeat split).
  assert (Ha : localStorage.accepts LOGS_KEY (JSON.stringify logs) w = true)
    by (vm_compute; reflexivity).
  split; [exact Hv|]. split; [exact Ha|].
  split; [vm_compute; reflexivity|]. split; [vm_compute; reflexivity|].
  apply (saved_logs_fallback logs w n Hv Ha).
  right. eexists. vm_compute. reflexivity.
Defined.

Lemma encode_content_utf8 (s : jsstring) :
  well_formed s -> encode_content s = Ok (b64_encode (utf8_units s)).
Proof.
  intros Hwf. destruct (escape_utf8 Hwf) as (e & He & Hu).
  unfold encode_content. rewrite He. cbn [result_bind].
  rewrite Hu. apply btoa_bytes, utf8_units_bytes, Hwf.
Qed.

Lemma b64_char_ascii (v : N) : b64_char v < 128.
Proof.
  unfold b64_char.
  destruct (v <? 26) eqn:H1; [apply N.ltb_lt in H1; lia|].
  destruct (v <? 52) eqn:H2; [apply N.ltb_lt in H2; lia|].
  destruct (v <? 62) eqn:H3; [apply N.ltb_lt in H3; lia|].
  destruct (v =? 62); lia.
Qed.

Lemma b64_encode_valid (bs : list N) : valid_string (b64_encode bs) = true.
Proof.
  rewrite b64_encode_sextets. unfold valid_string.
  rewrite forallb_app. apply andb_true_iff. split.
  - apply forallb_forall. intros c Hc. apply in_map_iff in Hc.
    destruct Hc as (v & <- & _). apply N.ltb_lt.
    pose proof (b64_char_ascii v). lia.
  - destruct (padding_cases bs) as [->|[->| ->]]; reflexivity.
Qed.

(** What the [try] block of [loadLogs] makes of the answer of a remote
    end that holds the Base64 of the bytes [bs]. *)
Lemma remote_logs_file_response (bs : list N) :
  bytes bs ->
  remote_logs (file_response (JStr (b64_encode bs)))
  = result_bind (JSON.parse bs) (fun logs => Ok (Some logs)).
Proof.
  intros Hb. unfold remote_logs, file_response. cbn [status text].
  change (200 =? 404) with false. cbv iota.
  change (negb (ok _)) with false. cbv iota.
  unfold JSON.stringify. rewrite parse_serialize.
  - cbn [result_bind]. change (get_prop _ _) with (Ok (Some (JStr (b64_encode bs)))).
    cbn [result_bind to_string_val to_string].
    rewrite (atob_b64_encode Hb). reflexivity.
  - apply whitespace_nil.
  - cbn [json_canonical fst snd]. rewrite b64_encode_valid.
    repeat split.
Qed.

Lemma stringify_indent_well_formed (n : nat) (logs : json) :
  json_valid logs = true -> well_formed (JSON.stringify_indent n logs).
Proof.
  intros Hv. unfold JSON.stringify_indent.
  apply serialize_well_formed; [apply plain_repeat; lia | exact Hv | constructor].
Qed.

(** What [saveLogs] sends in a configured state whose requests can be
    built. *)
Lemma saveLogs_sends (logs : json) (w : World) (g : request) :
  is_configured w = true ->
  json_valid logs = true ->
  get_request (config w) = Ok g ->
  exists b w',
    saveLogs logs w = (Ok b, w')
    /\ requests (trace w')
       = requests (trace w)
           ++ [g;
               mkRequest (js "PUT") (url g) (headers g)
                 (Some (JSON.stringify
                    (requestBody (clock w)
                       (b64_encode (utf8_units (JSON.stringify_indent 2 logs)))
                       (field (config w) (js "branch"))
                       (sha_of (hd Rejected (net w))))))]
    /\ net w' = tl (tl (net w)).
Proof.
  intros H Hv Hg.
  rewrite (saveLogs_configured logs w H), (fetch_sha_run w H), Hg. cbv zeta.
  rewrite (encode_content_utf8 (stringify_indent_well_formed 2 logs Hv)).
  unfold sha_of.
  destruct (sha_result (hd Rejected (net w))) as [sha|e0]; cbv beta iota zeta.
  all: rewrite put_request_get_request, Hg; cbn [result_bind].
  all: match goal with
       | |- context [put_error ?o] => destruct (put_error o) as [e|]
       end.
  all: try (unfold save_failed; run; unfold bind).
  all: rewrite saveLogsToLocal_run; cbv zeta.
  all: match goal with
       | |- context [if ?b then _ else _] => destruct b
       end; eexists _, _; (split; [reflexivity|]);
       trace_eq'; repeat split.
Qed.

Lemma requestBody_literal (timestamp encodedContent : jsstring)
    (branch sha : jsval) :
  requestBody timestamp encodedContent branch sha
  = JObj ([(js "message", JStr (msg_commit_prefix ++ timestamp));
           (js "content", JStr encodedContent);
           (js "branch", or_default branch (JStr (js "main")))]
          ++ when_truthy (js "sha") sha).
Proof.
  unfold requestBody, or_default, when_truthy, js_or.
  destruct branch as [b|]; [destruct (truthy (Some b))|]; reflexivity.
Qed.

(** X12. In a configured state whose requests can be built,
    [saveLogs(X)] sends exactly two requests, to the same URL with the
    same headers: the read request, then a [PUT] whose body is the JSON
    text of the object with, in this order, [message]: the commit
    prefix and the timestamp; [content]: the Base64 of the UTF-8 bytes
    of [JSON.stringify(X, null, 2)]; [branch]: the configured branch,
    or ['main'] when it is falsy; and [sha]: the SHA the read request
    returned, only when it is truthy.  It consumes two outcomes of the
    remote end. *)
Theorem saveLogs_requests (logs : json) (w : World) (g : request) :
  is_configured w = true ->
  json_valid logs = true ->
  get_request (config w) = Ok g ->
  exists b w',
    saveLogs logs w = (Ok b, w')
    /\ requests (trace w')
       = requests (trace w)
           ++ [g;
               mkRequest (js "PUT") (url g) (headers g)
                 (Some (JSON.stringify
                    (JObj ([(js "message", JStr (msg_commit_prefix ++ clock w));
                            (js "content",
                             JStr (b64_encode
                                     (utf8_units (JSON.stringify_indent 2 logs))));
                            (js "branch",
                             or_default (field (config w) (js "branch"))
                               (JStr (js "main")))]
                           ++ when_truthy (js "sha")
                                (sha_of (hd Rejected (net w)))))))]
    /\ net w' = tl (tl (net w)).
Proof.
  intros H Hv Hg.
  destruct (saveLogs_sends logs w H Hv Hg) as (b & w' & Hr & Ht & Hn).
  exists b, w'. split; [exact Hr|]. split; [|exact Hn].
  rewrite Ht, requestBody_literal. reflexivity.
Qed.

Lemma saveLogs_requests_witness :
  let w := sample_world sample_config ∅ 5000
             [Responded (mkResponse 200
                (JSON.stringify (JObj [(js "content", JStr (js "W10="));
                                       (js "sha", JStr (js "0a1b"))])));
              Responded (mkResponse 200 (js "{}"))] in
  exists g,
  is_configured w = true /\ json_valid sample_logs = true
  /\ get_request (config w) = Ok g
  /\ when_truthy (js "sha") (sha_of (hd Rejected (net w)))
     = [(js "sha", JStr (js "0a1b"))]
  /\ exists b w',
       saveLogs sample_logs w = (Ok b, w')
       /\ requests (trace w')
          = requests (trace w)
              ++ [g;
                  mkRequest (js "PUT") (url g) (headers g)
                    (Some (JSON.stringify
                       (JObj ([(js "message", JStr (msg_commit_prefix ++ clock w));
                               (js "content",
                                JStr (b64_encode
                                        (utf8_units
                                           (JSON.stringify_indent 2 sample_logs))));
                               (js "branch",
                                or_default (field (config w) (js "branch"))
                                  (JStr (js "main")))]
                              ++ when_truthy (js "sha")
                                   (sha_of (hd Rejected (net w)))))))]
       /\ net w' = tl (tl (net w)).
Proof.
  intros w. eexists. split; [reflexivity|]. split; [reflexivity|].
  split; [reflexivity|]. split; [vm_compute; reflexivity|].
  apply saveLogs_requests; reflexivity.
Defined.

(** The body of the write request when the file is not there yet
    (status 404): no [sha]; and when the read request returned one. *)
Example saveLogs_body_create :
  let w := sample_world sample_config ∅ 5000
             [Responded (mkResponse 404 (js "{}"));
              Responded (mkResponse 201 (js "{}"))] in
  option_map body (last (requests (trace (snd (saveLogs (JArr []) w)))))
  = Some (Some (JSON.stringify
                  (JObj [(js "message", JStr (msg_commit_prefix ++ clock w));
                         (js "content", JStr (js "W10="));
                         (js "branch", JStr (js "main"))]))).
Proof. vm_compute. reflexivity. Qed.

Example saveLogs_body_update :
  let w := sample_world sample_config ∅ 5000
             [Responded (mkResponse 200
                (JSON.stringify (JObj [(js "content", JStr (js "W10="));
                                       (js "sha", JStr (js "0a1b"))])));
              Responded (mkResponse 200 (js "{}"))] in
  option_map body (last (requests (trace (snd (saveLogs (JArr []) w)))))
  = Some (Some (JSON.stringify
                  (JObj [(js "message", JStr (msg_commit_prefix ++ clock w));
                         (js "content", JStr (js "W10="));
                         (js "branch", JStr (js "main"));
                         (js "sha", JStr (js "0a1b"))]))).
Proof. vm_compute. reflexivity. Qed.

(** The last request [saveLogs] sends in such a state is the [PUT], and
    the [content] of its body is the Base64 of the UTF-8 bytes of the
    indented JSON text. *)
Lemma saveLogs_sends_content (logs : json) (w : World) (g : request) :
  is_configured w = true ->
  json_valid logs = true ->
  get_request (config w) = Ok g ->
  exists b w' obj,
    saveLogs logs w = (Ok b, w')
    /\ last (requests (trace w'))
       = Some (mkRequest (js "PUT") (url g) (headers g)
                 (Some (JSON.stringify (JObj obj))))
    /\ assoc (js "content") obj
       = Some (JStr (b64_encode (utf8_units (JSON.stringify_indent 2 logs)))).
Proof.
  intros H Hv Hg.
  destruct (saveLogs_sends logs w H Hv Hg) as (b & w' & Hr & Ht & _).
  rewrite requestBody_literal in Ht.
  eexists b, w', _. split; [exact Hr|]. split.
  - rewrite Ht.
    change [g; ?p] with ([g] ++ [p]). rewrite app_assoc. apply last_snoc.
  - reflexivity.
Qed.

(** ** The sync wrappers *)

Lemma bind_ret_run {A} (m : M A) (w : World) : bind m ret w = m w.
Proof. unfold bind, ret. destruct (m w) as [[a|e] w']; reflexivity. Qed.

(** C8. In an unconfigured state [syncFromGitHub()] and [syncToGitHub()]
    throw the configuration error and do nothing else.  In a configured
    state [syncFromGitHub()] is [loadLogs()]; [syncToGitHub()] reads the
    key [updateLogs] of the local cache once and, when the content is
    absent, empty or parses as JSON, runs [saveLogs] on the collection
    that content stands for and returns the boolean [saveLogs] returns:
    when the requests can be built, the last request it sends is the
    [PUT] whose [content] is the Base64 of the UTF-8 bytes of the
    indented JSON text of that collection.  When the content of the key
    is not JSON, the [SyntaxError] of the unguarded [JSON.parse] in
    [loadLogsFromLocal] reaches the caller: nothing is pushed and no
    boolean is returned. *)
Theorem sync_wrappers (w : World) :
  if is_configured w then
    syncFromGitHub w = loadLogs w
    /\ match local_logs (storage w !! LOGS_KEY) with
       | Ok logs =>
           exists b w',
             syncToGitHub w = (Ok b, w')
             /\ saveLogs logs (emit (GetItem LOGS_KEY) w) = (Ok b, w')
             /\ (json_valid logs = true ->
                 forall g, get_request (config w) = Ok g ->
                 exists obj,
                   last (requests (trace w'))
                   = Some (mkRequest (js "PUT") (url g) (headers g)
                             (Some (JSON.stringify (JObj obj))))
                   /\ assoc (js "content") obj
                      = Some (JStr (b64_encode
                                      (utf8_units
                                         (JSON.stringify_indent 2 logs)))))
       | Throw e =>
           syncToGitHub w = (Throw e, emit (GetItem LOGS_KEY) w)
       end
  else
    syncFromGitHub w = (Throw (Error msg_configure_first), w)
    /\ syncToGitHub w = (Throw (Error msg_configure_first), w).
Proof.
  destruct (is_configured w) eqn:H.
  - destruct (is_configured_value w H) as (c & Hc & Ht).
    assert (E : syncToGitHub w = bind loadLogsFromLocal saveLogs w).
    { unfold syncToGitHub. unfold bind at 1. rewrite isConfigured_run, Hc, Ht.
      reflexivity. }
    split.
    + unfold syncFromGitHub. unfold bind at 1. rewrite isConfigured_run, Hc, Ht.
      cbv beta iota delta [negb]. apply bind_ret_run.
    + rewrite E. unfold bind. rewrite loadLogsFromLocal_run.
      destruct (local_logs (storage w !! LOGS_KEY)) as [logs|e]; [|reflexivity].
      set (w1 := emit (GetItem LOGS_KEY) w).
      destruct (saveLogs_effect logs w1) as (b & w' & Hr & _).
      exists b, w'. split; [exact Hr|]. split; [exact Hr|].
      intros Hv g Hg.
      destruct (@saveLogs_sends_content logs w1 g H Hv Hg)
        as (b2 & w2 & obj & Hr2 & Hl & Hcontent).
      rewrite Hr in Hr2. injection Hr2 as <- <-.
      exists obj. split; [exact Hl | exact Hcontent].
  - destruct (not_configured_value w H) as (c & Hc & Ht).
    unfold syncFromGitHub, syncToGitHub, bind.
    rewrite isConfigured_run, Hc, Ht. split; reflexivity.
Qed.

(** The cases of [sync_wrappers] on sample states: unconfigured;
    configured with a collection in the cache; configured with a cache
    that is not JSON, where [syncToGitHub()] throws and sends nothing. *)
Example sync_unconfigured :
  let w := sample_world JNull ∅ 5000 [] in
  syncFromGitHub w = (Throw (Error msg_configure_first), w)
  /\ syncToGitHub w = (Throw (Error msg_configure_first), w).
Proof. split; vm_compute; reflexivity. Qed.

Example sync_configured :
  let w := sample_world sample_config
             {[LOGS_KEY := JSON.stringify sample_logs]} 5000
             [Responded (mkResponse 404 (js "{}"));
              Responded (mkResponse 201 (js "{}"))] in
  fst (syncToGitHub w) = Ok true
  /\ written_content (trace (snd (syncToGitHub w)))
     = Some (JStr (b64_encode (utf8_units (JSON.stringify_indent 2 sample_logs))))
  /\ fst (syncFromGitHub w) = Ok (JArr []).
Proof. repeat split; vm_compute; reflexivity. Qed.

Example syncToGitHub_malformed_cache :
  let w := sample_world sample_config {[LOGS_KEY := js "{"]} 5000
             [Responded (mkResponse 404 (js "{}"));
              Responded (mkResponse 201 (js "{}"))] in
  is_configured w = true
  /\ syncToGitHub w = (Throw SyntaxError, emit (GetItem LOGS_KEY) w)
  /\ requests (trace (snd (syncToGitHub w))) = [].
Proof. repeat split; vm_compute; reflexivity. Qed.

(** ** Reading back what was sent *)

(** What [loadLogs()] returns when the remote end answers the read
    request with the Base64 of the bytes [bs]. *)
Lemma loadLogs_file_response (bs : list N) (w : World) (n : list outcome) :
  bytes bs ->
  is_configured w = true ->
  (exists req, get_request (config w) = Ok req) ->
  net w = file_response (JStr (b64_encode bs)) :: n ->
  match JSON.parse bs with
  | Ok l => exists w', loadLogs w = (Ok l, w')
                       /\ storage w' = stored LOGS_KEY (JSON.stringify l) w
  | Throw _ => fst (loadLogs w) = local_logs (storage w !! LOGS_KEY)
  end.
Proof.
  intros Hb Hc [req Hg] Hn.
  assert (Hr : remote_logs (hd Rejected (net w))
               = result_bind (JSON.parse bs) (fun l => Ok (Some l))).
  { rewrite Hn. cbn [hd]. apply remote_logs_file_response, Hb. }
  destruct (JSON.parse bs) as [l|e]; cbn [result_bind] in Hr.
  - rewrite (loadLogs_configured w Hc), Hg, Hr. cbv zeta.
    match goal with
    | |- context [saveLogsToLocal l ?w0] =>
        destruct (saveLogsToLocal_effect l w0) as (w' & E & Hs & _)
    end.
    rewrite E. cbn [snd]. exists w'. split; [reflexivity|]. exact Hs.
  - destruct (@loadLogs_fallback w e Hc Hr) as (w' & -> & _). reflexivity.
Qed.

(** X17. What a reader gets back from the repository.  In a configured
    state whose requests can be built, the last request [saveLogs(X)]
    sends is the [PUT], and the [content] of its body is the Base64 of
    the UTF-8 bytes of the indented JSON text of [X]; when the remote
    end later answers a read request with that content, [loadLogs()]
    parses the string of those bytes, each byte taken for a character,
    not the text that was saved: it returns what [JSON.parse] makes of
    the bytes, and the local cache when they are not JSON. *)
Theorem loadLogs_reads_utf8_bytes (logs : json) (w : World) (g : request) :
  is_configured w = true ->
  json_valid logs = true ->
  get_request (config w) = Ok g ->
  exists b w' obj enc,
    saveLogs logs w = (Ok b, w')
    /\ last (requests (trace w'))
       = Some (mkRequest (js "PUT") (url g) (headers g)
                 (Some (JSON.stringify (JObj obj))))
    /\ assoc (js "content") obj = Some (JStr enc)
    /\ enc = b64_encode (utf8_units (JSON.stringify_indent 2 logs))
    /\ forall w2 n,
         is_configured w2 = true ->
         (exists g2, get_request (config w2) = Ok g2) ->
         net w2 = file_response (JStr enc) :: n ->
         fst (loadLogs w2)
         = match JSON.parse (utf8_units (JSON.stringify_indent 2 logs)) with
           | Ok l => Ok l
           | Throw _ => local_logs (storage w2 !! LOGS_KEY)
           end.
Proof.
  intros H Hv Hg.
  destruct (saveLogs_sends_content logs w H Hv Hg) as (b & w' & obj & Hr & Hl & Hc).
  exists b, w', obj, (b64_encode (utf8_units (JSON.stringify_indent 2 logs))).
  split; [exact Hr|]. split; [exact Hl|]. split; [exact Hc|].
  split; [reflexivity|].
  intros w2 n Hc2 Hg2 Hn.
  pose proof (stringify_indent_well_formed 2 logs Hv) as Hwf.
  pose proof (@loadLogs_file_response _ w2 n (utf8_units_bytes Hwf) Hc2 Hg2 Hn)
    as Hload.
  destruct (JSON.parse (utf8_units (JSON.stringify_indent 2 logs))) as [l|e].
  - destruct Hload as (w2' & -> & _). reflexivity.
  - exact Hload.
Qed.

Lemma loadLogs_reads_utf8_bytes_witness :
  let w := sample_world sample_config ∅ 5000
             [Responded (mkResponse 404 (js "{}"));
              Responded (mkResponse 201 (js "{}"))] in
  exists g,
  is_configured w = true
  /\ json_valid sample_logs = true
  /\ get_request (config w) = Ok g
  /\ utf8_units (JSON.stringify_indent 2 sample_logs)
     = JSON.stringify_indent 2 garbled_logs
  /\ exists b w' obj enc,
    saveLogs sample_logs w = (Ok b, w')
    /\ last (requests (trace w'))
       = Some (mkRequest (js "PUT") (url g) (headers g)
                 (Some (JSON.stringify (JObj obj))))
    /\ assoc (js "content") obj = Some (JStr enc)
    /\ enc = b64_encode (utf8_units (JSON.stringify_indent 2 sample_logs))
    /\ forall w2 n,
         is_configured w2 = true ->
         (exists g2, get_request (config w2) = Ok g2) ->
         net w2 = file_response (JStr enc) :: n ->
         fst (loadLogs w2)
         = match JSON.parse (utf8_units (JSON.stringify_indent 2 sample_logs)) with
           | Ok l => Ok l
           | Throw _ => local_logs (storage w2 !! LOGS_KEY)
           end.
Proof.
  intros w. eexists. split; [reflexivity|]. split; [reflexivity|].
  split; [reflexivity|]. split; [vm_compute; reflexivity|].
  apply loadLogs_reads_utf8_bytes; reflexivity.
Defined.

(** X18. A configuration stored as JSON is the configuration the adapter
    is constructed with: when [github_config] holds
    [JSON.stringify(cfg)], for a value [cfg] as [JSON.parse] returns
    them, construction does not throw and afterwards [this.config] is
    [cfg]; the only other effect is the one read of [github_config]. *)
Theorem constructor_restores_config (cfg : json) (w : World) :
  json_canonical cfg ->
  storage w !! CONFIG_KEY = Some (JSON.stringify cfg) ->
  constructor w = (Ok tt, with_config cfg (emit (GetItem CONFIG_KEY) w)).
Proof.
  intros Hv Hs. rewrite constructor_run. cbv zeta. rewrite Hs.
  unfold JSON.stringify.
  destruct (@serialize_head [] [] cfg Hv) as (c & t & E & _).
  pose proof (@parse_serialize [] cfg whitespace_nil Hv) as Hp.
  rewrite E in *. rewrite Hp. reflexivity.
Qed.

Lemma constructor_restores_config_witness :
  let w := sample_world JNull {[ CONFIG_KEY := JSON.stringify sample_config ]} 5000 [] in
  json_canonical sample_config
  /\ constructor w = (Ok tt, with_config sample_config (emit (GetItem CONFIG_KEY) w))
  /\ is_configured (snd (constructor w)) = true.
Proof.
  intros w.
  assert (Hv : json_canonical sample_config) by (vm_compute; repeat split).
  assert (Hs : storage w !! CONFIG_KEY = Some (JSON.stringify sample_config))
    by (apply lookup_singleton_eq).
  split; [exact Hv|].
  pose proof (@constructor_restores_config sample_config w Hv Hs) as H.
  split; [exact H|]. rewrite H. reflexivity.
Defined.

(** *** The JSON text of ASCII values is ASCII *)

Ltac ascii_lit :=
  unfold ascii_only;
  repeat (apply List.Forall_cons; [reflexivity|]); apply List.Forall_nil.

Lemma ascii_app (a b : jsstring) : ascii_only a -> ascii_only b -> ascii_only (a ++ b).
Proof. apply Forall_app_2. Qed.

Lemma ascii_repeat (c : N) (n : nat) : c < 128 -> ascii_only (repeat c n).
Proof. intros Hc. induction n; simpl; constructor; assumption. Qed.

Lemma ascii_uint_units (d : Decimal.uint) : ascii_only (uint_units d).
Proof. induction d; simpl; constructor; (lia || assumption). Qed.

Lemma ascii_drop_zeros (ds : jsstring) :
  ascii_only ds -> ascii_only (fst (drop_zeros ds)).
Proof.
  induction 1 as [|c r Hc Hr IH]; [constructor|].
  cbn [drop_zeros]. destruct (c =? 48).
  - destruct (drop_zeros r). exact IH.
  - constructor; assumption.
Qed.

Lemma ascii_number_to_string (m e : Z) : ascii_only (number_to_string m e).
Proof.
  unfold number_to_string.
  destruct (m =? 0)%Z; [ascii_lit|].
  assert (Hd : ascii_only (fst (drop_zeros (rev (dec_of_N (Z.abs_N m))))))
    by (apply ascii_drop_zeros, Forall_rev, ascii_uint_units).
  destruct (drop_zeros (rev (dec_of_N (Z.abs_N m)))) as [rds z].
  cbn [fst] in Hd. apply Forall_rev in Hd.
  set (ds := rev rds) in *. cbv zeta.
  set (n := (Z.of_nat (length ds) + e + Z.of_nat z)%Z).
  apply ascii_app; [destruct (m <? 0)%Z; ascii_lit|].
  repeat match goal with
         | |- ascii_only (if ?b then _ else _) => destruct b
         end.
  - apply ascii_app; [exact Hd | apply ascii_repeat; lia].
  - apply ascii_app; [apply Forall_take; exact Hd|].
    apply ascii_app; [ascii_lit | apply Forall_drop; exact Hd].
  - apply ascii_app; [ascii_lit|].
    apply ascii_app; [apply ascii_repeat; lia | exact Hd].
  - assert (He : ascii_only ((if (n - 1 <? 0)%Z then js "e-" else js "e+")
                               ++ dec_of_N (Z.abs_N (n - 1)))).
    { apply ascii_app; [destruct (n - 1 <? 0)%Z; ascii_lit|].
      apply ascii_uint_units. }
    destruct Hd as [|d r Hd0 Hr]; [constructor|].
    destruct r as [|d' r'].
    + constructor; assumption.
    + constructor; [exact Hd0|].
      apply ascii_app; [ascii_lit|]. apply ascii_app; assumption.
Qed.

Lemma ascii_unicode_escape (c : N) : ascii_only (JSON.unicode_escape c).
Proof.
  assert (H : forall d, hex_lower (d mod 16) < 128).
  { intros d. pose proof (N.mod_lt d 16 ltac:(discriminate)).
    unfold hex_lower. destruct (d mod 16 <? 10); lia. }
  unfold JSON.unicode_escape. apply ascii_app; [ascii_lit|].
  repeat constructor; apply H.
Qed.

Lemma ascii_quote_body (s : jsstring) :
  ascii_string s = true -> ascii_only (JSON.quote_body s).
Proof.
  induction s as [|c s IH]; intros Hs; [constructor|].
  unfold ascii_string in Hs. cbn [forallb] in Hs.
  apply andb_true_iff in Hs. destruct Hs as [Hc Hs]. apply N.ltb_lt in Hc.
  specialize (IH Hs). cbn [JSON.quote_body].
  repeat match goal with
         | |- ascii_only (if ?b =? ?k then _ else _) =>
             destruct (b =? k); [apply ascii_app; [ascii_lit | exact IH]|]
         end.
  destruct (c <? 32); [apply ascii_app; [apply ascii_unicode_escape | exact IH]|].
  assert (Hh : is_high_surrogate c = false) by (apply between_false; lia).
  assert (Hl : is_low_surrogate c = false) by (apply between_false; lia).
  rewrite Hh, Hl. constructor; assumption.
Qed.

Lemma ascii_quote (s : jsstring) : ascii_string s = true -> ascii_only (JSON.quote s).
Proof.
  intros Hs. unfold JSON.quote. apply ascii_app; [ascii_lit|].
  apply ascii_app; [apply ascii_quote_body, Hs | ascii_lit].
Qed.

Lemma ascii_join (sep : jsstring) (parts : list jsstring) :
  ascii_only sep -> Forall ascii_only parts -> ascii_only (join sep parts).
Proof.
  intros Hsep. induction 1 as [|p ps Hp Hps IH]; [constructor|].
  cbn [join]. destruct ps as [|q ps]; [exact Hp|].
  apply ascii_app; [exact Hp|]. apply ascii_app; assumption.
Qed.

Lemma serialize_ascii (gap : jsstring) (v : json) :
  ascii_only gap -> json_ascii v = true ->
  forall indent, ascii_only indent -> ascii_only (JSON.serialize gap indent v).
Proof.
  intros Hgap. induction v as [|b|m e|s|l IH|kvs IH] using json_ind_nested;
    intros Hv indent Hind.
  - ascii_lit.
  - destruct b; ascii_lit.
  - apply ascii_number_to_string.
  - apply ascii_quote. exact Hv.
  - destruct l as [|x l]; [ascii_lit|].
    assert (Hind' : ascii_only (indent ++ gap)) by (apply ascii_app; assumption).
    assert (Hnl : forall s, ascii_only s -> ascii_only ([10] ++ s))
      by (intros s0 Hs0; constructor; [reflexivity | exact Hs0]).
    rewrite serialize_array.
    apply ascii_app; [ascii_lit|].
    apply ascii_app; [destruct (nonempty gap); [auto | constructor]|].
    apply ascii_app;
      [|apply ascii_app; [destruct (nonempty gap); [auto | constructor] | ascii_lit]].
    apply ascii_join.
    { destruct (nonempty gap); [|ascii_lit]. apply ascii_app; [ascii_lit | auto]. }
    apply Forall_map. cbn [json_ascii] in Hv.
    pose proof (proj1 (forallb_forall _ _) Hv) as Hall.
    rewrite Forall_forall in IH |- *.
    intros y Hy. apply IH; [exact Hy | | exact Hind'].
    apply Hall, list_elem_of_In, Hy.
  - destruct kvs as [|kv kvs]; [ascii_lit|].
    assert (Hind' : ascii_only (indent ++ gap)) by (apply ascii_app; assumption).
    assert (Hnl : forall s, ascii_only s -> ascii_only ([10] ++ s))
      by (intros s0 Hs0; constructor; [reflexivity | exact Hs0]).
    rewrite serialize_object.
    apply ascii_app; [ascii_lit|].
    apply ascii_app; [destruct (nonempty gap); [auto | constructor]|].
    apply ascii_app;
      [|apply ascii_app; [destruct (nonempty gap); [auto | constructor] | ascii_lit]].
    apply ascii_join.
    { destruct (nonempty gap); [|ascii_lit]. apply ascii_app; [ascii_lit | auto]. }
    apply Forall_map. cbn [json_ascii] in Hv.
    pose proof (proj1 (forallb_forall _ _) Hv) as Hall.
    rewrite Forall_forall in IH |- *.
    intros y Hy. pose proof (Hall y (proj1 (list_elem_of_In _ _) Hy)) as Hy'.
    apply andb_true_iff in Hy'. destruct Hy' as [Hk Hx].
    apply ascii_app; [apply ascii_quote, Hk|].
    apply ascii_app; [ascii_lit|].
    apply ascii_app; [destruct (nonempty gap); [ascii_lit | constructor]|].
    apply IH; [exact Hy | exact Hx | exact Hind'].
Qed.

(** The indented text [saveLogs] encodes is ASCII when the strings and
    the keys of the collection are. *)
Lemma stringify_indent_ascii (n : nat) (logs : json) :
  json_ascii logs = true -> ascii_only (JSON.stringify_indent n logs).
Proof.
  intros Hv. unfold JSON.stringify_indent.
  apply serialize_ascii; [apply ascii_repeat; lia | exact Hv | constructor].
Qed.

(** X19. A collection whose strings and keys are ASCII survives the
    repository.  For such an [X] (a value as [JSON.parse] returns
    them), in a configured state whose requests can be built, the last
    request [saveLogs(X)] sends is the [PUT], and the [content] of its
    body is the Base64 of the indented JSON text itself; when the
    remote end later answers a read request with that content,
    [loadLogs()] returns [X], and the local cache then holds
    [JSON.stringify(X)] when the store takes the write. *)
Theorem remote_round_trip_ascii (logs : json) (w : World) (g : request) :
  is_configured w = true ->
  get_request (config w) = Ok g ->
  json_canonical logs ->
  json_ascii logs = true ->
  exists b w' obj enc,
    saveLogs logs w = (Ok b, w')
    /\ last (requests (trace w'))
       = Some (mkRequest (js "PUT") (url g) (headers g)
                 (Some (JSON.stringify (JObj obj))))
    /\ assoc (js "content") obj = Some (JStr enc)
    /\ enc = b64_encode (JSON.stringify_indent 2 logs)
    /\ forall w2 n,
         is_configured w2 = true ->
         (exists g2, get_request (config w2) = Ok g2) ->
         net w2 = file_response (JStr enc) :: n ->
         exists w2', loadLogs w2 = (Ok logs, w2')
           /\ storage w2' = stored LOGS_KEY (JSON.stringify logs) w2.
Proof.
  intros H Hg Hv Ha.
  pose proof (stringify_indent_ascii 2 logs Ha) as Hascii.
  pose proof (ascii_well_formed Hascii) as Hwf.
  pose proof (utf8_units_bytes Hwf) as Hb.
  destruct (saveLogs_sends_content logs w H (canonical_valid logs Hv) Hg)
    as (b & w' & obj & Hr & Hl & Hc).
  rewrite (utf8_units_ascii Hascii) in Hc, Hb.
  exists b, w', obj, (b64_encode (JSON.stringify_indent 2 logs)).
  split; [exact Hr|]. split; [exact Hl|]. split; [exact Hc|].
  split; [reflexivity|].
  intros w2 n Hc2 Hg2 Hn.
  pose proof (@loadLogs_file_response _ w2 n Hb Hc2 Hg2 Hn) as Hload.
  unfold JSON.stringify_indent in Hload.
  rewrite (@parse_serialize _ logs (whitespace_spaces _) Hv) in Hload.
  exact Hload.
Qed.

Lemma remote_round_trip_ascii_witness :
  let logs := JArr [JObj [(js "version", JStr (js "1.2.0"));
                          (js "notes", JArr [JStr (js "fix: typo (#12)"); JNum 15 (-1)]);
                          (js "draft", JBool false)]] in
  let w := sample_world sample_config ∅ 5000
             [Responded (mkResponse 404 (js "{}"));
              Responded (mkResponse 201 (js "{}"))] in
  exists g,
  is_configured w = true
  /\ get_request (config w) = Ok g
  /\ json_canonical logs
  /\ json_ascii logs = true
  /\ exists b w' obj enc,
    saveLogs logs w = (Ok b, w')
    /\ last (requests (trace w'))
       = Some (mkRequest (js "PUT") (url g) (headers g)
                 (Some (JSON.stringify (JObj obj))))
    /\ assoc (js "content") obj = Some (JStr enc)
    /\ enc = b64_encode (JSON.stringify_indent 2 logs)
    /\ forall w2 n,
         is_configured w2 = true ->
         (exists g2, get_request (config w2) = Ok g2) ->
         net w2 = file_response (JStr enc) :: n ->
         exists w2', loadLogs w2 = (Ok logs, w2')
           /\ storage w2' = stored LOGS_KEY (JSON.stringify logs) w2.
Proof.
  intros logs w.
  assert (Hv : json_canonical logs) by (vm_compute; repeat split).
  assert (Ha : json_ascii logs = true) by (vm_compute; reflexivity).
  eexists. split; [reflexivity|]. split; [reflexivity|].
  split; [exact Hv|]. split; [exact Ha|].
  exact (@remote_round_trip_ascii logs w _ eq_refl eq_refl Hv Ha).
Defined.
